(** * Rifcare web summarizer: content analysis, fallback chain and highlighting

    A shallow embedding of [content_script.js], [background.js] and the
    summary parser of [popup.js], followed by the properties of the
    text segmenter, the frequency scorer, the summary wire format, the
    question matcher, the tiered fallback chain and the highlight
    injector / remover.

    Conventions.
    - A JavaScript string is the list of its code units.  The model covers
      code units below 256 (the Latin-1 range), carried by [ascii]; the
      white space class [\s] and [toLowerCase] are the ECMAScript ones
      restricted to that range.
    - Counters, lengths and the [maxBullets] / [maxHighlights] arguments are
      natural numbers.
    - [Array.prototype.sort] is stable (ECMAScript 2019), so sorting with
      the comparator [(a,b) => b.score - a.score] is a stable sort by
      decreasing score. *)

From Stdlib Require Import Ascii String List Arith Lia Bool Permutation Sorted.
Import ListNotations.

Set Implicit Arguments.

(* ================================================================== *)
(** * JavaScript string and array primitives used by the sources      *)
(* ================================================================== *)

Module Js.

Abbreviation str := (list ascii) (only parsing).

(** String literals of the sources. *)
Definition lit (s : string) : str := list_ascii_of_string s.
Arguments lit s%_string.

Definition LF : ascii := ascii_of_nat 10.
Definition CR : ascii := ascii_of_nat 13.
Definition SP : ascii := ascii_of_nat 32.
Definition DASH : ascii := ascii_of_nat 45.
Definition DQUOTE : ascii := ascii_of_nat 34.

Definition str_eqb (a b : str) : bool :=
  if list_eq_dec ascii_dec a b then true else false.

(** [Boolean(s)] on a string: the empty string is the only falsy one. *)
Definition truthy (s : str) : bool :=
  match s with [] => false | _ :: _ => true end.

(** The class [\s]: TAB, LF, VT, FF, CR, SPACE and NO-BREAK SPACE. *)
Definition isWhiteSpace (c : ascii) : bool :=
  let n := nat_of_ascii c in
  ((9 <=? n) && (n <=? 13)) || (n =? 32) || (n =? 160).

(** The class [[.!?]] of the sentence splitter's look-behind. *)
Definition isTerminator (c : ascii) : bool :=
  let n := nat_of_ascii c in
  (n =? 46) || (n =? 33) || (n =? 63).

(** The class [[a-z0-9\s]]; [replace(/[^a-z0-9\s]/g,'')] keeps exactly it. *)
Definition isWordChar (c : ascii) : bool :=
  let n := nat_of_ascii c in
  ((97 <=? n) && (n <=? 122)) || ((48 <=? n) && (n <=? 57)) || isWhiteSpace c.

Definition toLowerChar (c : ascii) : ascii :=
  let n := nat_of_ascii c in
  if ((65 <=? n) && (n <=? 90))
     || ((192 <=? n) && (n <=? 222) && negb (n =? 215))
  then ascii_of_nat (n + 32) else c.

Definition toLowerCase (s : str) : str := map toLowerChar s.

Definition stripNonWord (s : str) : str := filter isWordChar s.

Fixpoint trimStart (s : str) : str :=
  match s with
  | [] => []
  | c :: r => if isWhiteSpace c then trimStart r else s
  end.

Fixpoint trimEnd (s : str) : str :=
  match s with
  | [] => []
  | c :: r =>
      match trimEnd r with
      | [] => if isWhiteSpace c then [] else [c]
      | r' => c :: r'
      end
  end.

Definition trim (s : str) : str := trimEnd (trimStart s).

(** [s.replace(/\s+/g, ' ')]: every maximal run of white space becomes one
    SPACE.  [inRun] tells that the previous code unit was white space. *)
Fixpoint collapseFrom (inRun : bool) (s : str) : str :=
  match s with
  | [] => []
  | c :: r =>
      if isWhiteSpace c
      then (if inRun then collapseFrom true r else SP :: collapseFrom true r)
      else c :: collapseFrom false r
  end.

Definition collapseSpaces (s : str) : str := collapseFrom false s.

(** Adds a code unit to the piece under construction. *)
Definition consHead (c : ascii) (ps : list str) : list str :=
  match ps with
  | [] => [[c]]
  | p :: r => (c :: p) :: r
  end.

(** [s.split(re)] for a regular expression [re] of the shape
    [(?<=[K])\s+]: a separator is a maximal run of white space whose
    preceding code unit is in the class [K].  [armed] tells that the
    previous code unit allows a separator to start here, [inSep] that a
    separator is being consumed.  The result has one piece more than there
    are separators; pieces may be empty. *)
Fixpoint splitRuns (K : ascii -> bool) (armed inSep : bool) (s : str)
  : list str :=
  match s with
  | [] => [[]]
  | c :: r =>
      if isWhiteSpace c && (armed || inSep)
      then (if inSep then splitRuns K false true r
            else [] :: splitRuns K false true r)
      else consHead c (splitRuns K (K c) false r)
  end.

(** [s.split(/(?<=[.!?])\s+/)]: no separator can start at index 0. *)
Definition splitSentences (s : str) : list str :=
  splitRuns isTerminator false false s.

(** [s.split(/\s+/)]: the look-behind is absent, a separator can start
    anywhere, index 0 included. *)
Fixpoint splitWs (inSep : bool) (s : str) : list str :=
  match s with
  | [] => [[]]
  | c :: r =>
      if isWhiteSpace c
      then (if inSep then splitWs true r else [] :: splitWs true r)
      else consHead c (splitWs false r)
  end.

Definition splitWhitespace (s : str) : list str := splitWs false s.

(** [s.split(' ')], [s.split(/\n|\r/)]: every code unit of the class is a
    separator of its own. *)
Fixpoint splitOn (sep : ascii -> bool) (s : str) : list str :=
  match s with
  | [] => [[]]
  | c :: r => if sep c then [] :: splitOn sep r else consHead c (splitOn sep r)
  end.

Definition isSpaceChar (c : ascii) : bool := Ascii.eqb c SP.
Definition isLineBreak (c : ascii) : bool := Ascii.eqb c LF || Ascii.eqb c CR.

Fixpoint startsWith (p s : str) : bool :=
  match p, s with
  | [], _ => true
  | _ :: _, [] => false
  | a :: p', b :: s' => Ascii.eqb a b && startsWith p' s'
  end.

(** [s.indexOf(p)]; [None] stands for -1. *)
Fixpoint indexOf (p s : str) {struct s} : option nat :=
  if startsWith p s then Some 0
  else match s with
       | [] => None
       | _ :: r => option_map S (indexOf p r)
       end.

Definition includes (s p : str) : bool :=
  match indexOf p s with Some _ => true | None => false end.

(** [s.split(sep)] for a non-empty string [sep]: occurrences are taken from
    the left and do not overlap.  [skip] counts the code units of the
    separator that remain to be consumed. *)
Fixpoint splitStrFrom (sep : str) (skip : nat) (s : str) : list str :=
  match s with
  | [] => [[]]
  | c :: r =>
      match skip with
      | S k => splitStrFrom sep k r
      | O => if startsWith sep s
             then [] :: splitStrFrom sep (length sep - 1) r
             else consHead c (splitStrFrom sep 0 r)
      end
  end.

Definition splitStr (sep s : str) : list str := splitStrFrom sep 0 s.

(** [a.join(sep)]. *)
Fixpoint join (sep : str) (l : list str) : str :=
  match l with
  | [] => []
  | [x] => x
  | x :: r => x ++ sep ++ join sep r
  end.

(** [a.includes(x)] on an array of strings. *)
Definition arrayIncludes (l : list str) (x : str) : bool :=
  existsb (str_eqb x) l.

(** [a[i] || ''] *)
Definition at_or_empty (l : list str) (i : nat) : str := nth i l [].

(** Stable sort by decreasing score: an element is inserted after the
    elements of strictly greater score and before the others. *)
Fixpoint insertDesc (A : Type) (score : A -> nat) (x : A) (l : list A)
  : list A :=
  match l with
  | [] => [x]
  | y :: r => if score x <? score y then y :: insertDesc score x r
              else x :: y :: r
  end.

Fixpoint sortDesc (A : Type) (score : A -> nat) (l : list A) : list A :=
  match l with
  | [] => []
  | x :: r => insertDesc score x (sortDesc score r)
  end.

(** [new Set(a)] in iteration order: first occurrences, in order. *)
Fixpoint setAdd (x : str) (s : list str) : list str :=
  match s with
  | [] => [x]
  | y :: r => if str_eqb x y then s else y :: setAdd x r
  end.

Definition setOf (l : list str) : list str :=
  fold_left (fun s x => setAdd x s) l [].

Fixpoint setDelete (x : str) (s : list str) : list str :=
  match s with
  | [] => []
  | y :: r => if str_eqb x y then r else y :: setDelete x r
  end.

(** [sublist l l']: [l] is [l'] with some elements left out. *)
Inductive sublist {A : Type} : list A -> list A -> Prop :=
| sublist_nil : sublist [] []
| sublist_skip x l l' : sublist l l' -> sublist l (x :: l')
| sublist_keep x l l' : sublist l l' -> sublist (x :: l) (x :: l').

End Js.

Import Js.

(* ================================================================== *)
(** * Code shared verbatim by content_script.js and background.js     *)
(* ================================================================== *)

Module Shared.

(** [text.replace(/\s+/g,' ').split(/(?<=[.!?])\s+/).map(s => s.trim())
    .filter(Boolean)] (content_script.js 75-76 and 112, background.js 120
    and 242). *)
Definition segment (text : str) : list str :=
  filter truthy (map trim (splitSentences (collapseSpaces text))).

Definition stop : list str :=
  map lit ["the";"and";"is";"in";"to";"of";"a";"that";"it";"for";"on";"with";
           "as";"are";"was";"by";"an";"be";"this";"or";"from";"at";"which";
           "you"]%string.

(** [s.toLowerCase().replace(/[^a-z0-9\s]/g,'').split(/\s+/).filter(Boolean)] *)
Definition words (s : str) : list str :=
  filter truthy (splitWhitespace (stripNonWord (toLowerCase s))).

(** The object [freqs], a dictionary from words to counts. *)
Definition freqTable := list (str * nat).

Fixpoint lookup (f : freqTable) (w : str) : nat :=
  match f with
  | [] => 0
  | (k, n) :: r => if str_eqb w k then n else lookup r w
  end.

(** [freqs[w] = (freqs[w] || 0) + 1] *)
Fixpoint bump (f : freqTable) (w : str) : freqTable :=
  match f with
  | [] => [(w, 1)]
  | (k, n) :: r => if str_eqb w k then (k, n + 1) :: r else (k, n) :: bump r w
  end.

Definition countWords (f : freqTable) (ws : list str) : freqTable :=
  fold_left (fun f w => if arrayIncludes stop w then f else bump f w) ws f.

Definition buildFreqs (sents : list str) : freqTable :=
  fold_left (fun f s => countWords f (words s)) sents [].

(** [let score = 0; for (const w of words) if (freqs[w]) score += freqs[w]] *)
Definition sentenceScore (f : freqTable) (s : str) : nat :=
  fold_left (fun score w => score + lookup f w) (words s) 0.

Definition scoreAll (sents : list str) : list (str * nat) :=
  let f := buildFreqs sents in
  map (fun s => (s, sentenceScore f s)) sents.

(** The [for (const item of scored)] loop that collects highlights. *)
Fixpoint collectHighlights (bullets : list str) (maxHighlights : nat)
  (scored : list (str * nat)) (highlights : list str) : list str :=
  match scored with
  | [] => highlights
  | item :: rest =>
      if maxHighlights <=? length highlights then highlights
      else if arrayIncludes bullets (fst item)
      then collectHighlights bullets maxHighlights rest highlights
      else if length (splitOn isSpaceChar (fst item)) <? 6
      then collectHighlights bullets maxHighlights rest highlights
      else collectHighlights bullets maxHighlights rest
             (highlights ++ [fst item])
  end.

(** The [while (highlights.length < Math.min(maxHighlights, bullets.length))]
    loop; every turn appends one element, so it runs exactly [n] times for
    [n] the distance to the bound. *)
Fixpoint padHighlights (n : nat) (bullets highlights : list str) : list str :=
  match n with
  | O => highlights
  | S k =>
      padHighlights k bullets
        (highlights ++ [at_or_empty bullets (length highlights)])
  end.

Definition DELIMITER : str := lit "===HIGHLIGHTS===".

(** [bulletsText + '\n\n===HIGHLIGHTS===\n' + highlightsText] *)
Definition compose (bullets highlights : list str) : str :=
  join [LF] (map (fun b => lit "- " ++ b) bullets)
  ++ [LF; LF] ++ DELIMITER ++ [LF]
  ++ join [LF] (map (fun h => h) highlights).

Record summary := mkSummary {
  bullets : list str;
  highlights : list str;
  raw : str
}.

Definition emptySummary : summary := mkSummary [] [] [].

(** Lines 79-104 of content_script.js, 123-156 of background.js: scoring,
    selection and formatting of a non-empty list of sentences. *)
Definition summarizeSentences (sents : list str)
  (maxBullets maxHighlights : nat) : summary :=
  let scored := sortDesc snd (scoreAll sents) in
  let bullets :=
    map (fun x => trim (collapseSpaces (fst x))) (firstn maxBullets scored) in
  let highlights := collectHighlights bullets maxHighlights scored [] in
  let highlights :=
    padHighlights (Nat.min maxHighlights (length bullets) - length highlights)
      bullets highlights in
  mkSummary bullets highlights (compose bullets highlights).

(** [cleanQ.split(/\s+/).filter(w => w.length>2)] (content_script.js
    110-111, background.js 240-241). *)
Definition questionWords (question : str) : list str :=
  let cleanQ := stripNonWord (toLowerCase question) in
  filter (fun w => 2 <? length w) (splitWhitespace cleanQ).

(** [for (const w of qWords) if (lw.includes(w)) score += 1] *)
Definition matchScore (qWords : list str) (s : str) : nat :=
  let lw := toLowerCase s in
  fold_left (fun score w => if includes lw w then score + 1 else score)
    qWords 0.

(** [a || b] on possibly undefined strings. *)
Definition orElse (a : option str) (b : str) : str :=
  match a with
  | Some s => if truthy s then s else b
  | None => b
  end.

(** Lines 115-126 of content_script.js, 243-249 of background.js: the
    sentences are scored and sorted, the first of the sorted array is
    taken when its score is positive, otherwise
    [sents.find(s => s.split(' ').length > 6) || sents[0] || dflt], where
    the literal [dflt] is the only difference between the two files. *)
Definition pickSentence (qWords sents : list str) (dflt : str) : str :=
  let scores := map (fun s => (s, matchScore qWords s)) sents in
  let scores := sortDesc snd scores in
  let first :=
    orElse (find (fun s => 6 <? length (splitOn isSpaceChar s)) sents)
           (orElse (nth_error sents 0) dflt) in
  match nth_error scores 0 with
  | Some best => if 0 <? snd best then fst best else first
  | None => first
  end.

End Shared.

Import Shared.

(* ================================================================== *)
(** * Vocabulary of the statements about text                          *)
(* ================================================================== *)

Module TextSpec.

(** Only white space (the empty string included). *)
Definition isBlank (s : str) : bool := forallb isWhiteSpace s.

(** A sentence boundary: one of [.], [!], [?] followed by white space. *)
Fixpoint hasBoundary (s : str) : bool :=
  match s with
  | [] => false
  | c :: r =>
      match r with
      | [] => false
      | d :: _ => (isTerminator c && isWhiteSpace d) || hasBoundary r
      end
  end.

(** [lastIs prev s]: the last code unit of [s] is a terminator; [prev]
    answers for the empty string. *)
Fixpoint lastIs (prev : bool) (s : str) : bool :=
  match s with
  | [] => prev
  | c :: r => lastIs (isTerminator c) r
  end.

Definition endsWithTerminator (s : str) : bool := lastIs false s.

(** Every element but the last satisfies [Q]. *)
Fixpoint allButLast (Q : str -> bool) (l : list str) : bool :=
  match l with
  | [] => true
  | x :: r =>
      match r with
      | [] => true
      | _ :: _ => Q x && allButLast Q r
      end
  end.

(** The pieces of a split, all but the last, end where a separator could
    start; [prev] answers for an empty first piece. *)
Fixpoint closedFrom (prev : bool) (l : list str) : bool :=
  match l with
  | [] => true
  | x :: r =>
      match r with
      | [] => true
      | _ :: _ => lastIs prev x && closedFrom false r
      end
  end.

(** All white space is a single SPACE between two other code units;
    [prevWs] tells that the previous code unit was white space. *)
Fixpoint collapsedFrom (prevWs : bool) (s : str) : bool :=
  match s with
  | [] => true
  | c :: r =>
      if isWhiteSpace c
      then Ascii.eqb c SP && negb prevWs && collapsedFrom true r
      else collapsedFrom false r
  end.

(** The same, and white space neither starts nor ends the string, which is
    not empty when [prevWs] is set. *)
Fixpoint tidyFrom (prevWs : bool) (s : str) : bool :=
  match s with
  | [] => negb prevWs
  | c :: r =>
      if isWhiteSpace c
      then Ascii.eqb c SP && negb prevWs && tidyFrom true r
      else tidyFrom false r
  end.

Definition startsWs (s : str) : bool :=
  match s with [] => false | d :: _ => isWhiteSpace d end.

(** No white space in front. *)
Definition noLead (p : str) : Prop := trimStart p = p.

(** A non-empty string of words separated by single SPACEs. *)
Definition tidy (s : str) : bool := tidyFrom true s.

(** The words of a string: its maximal runs without white space. *)
Definition tokens (s : str) : list str :=
  filter truthy (splitWhitespace s).

(** No occurrence of [sep] starts inside [x] when [x] is followed by
    [y]. *)
Fixpoint cleanPrefix (sep x y : str) : bool :=
  match x with
  | [] => true
  | _ :: x' => negb (startsWith sep (x ++ y)) && cleanPrefix sep x' y
  end.

(** [x] put in front of the first piece of a split. *)
Definition prepend (x : str) (ps : list str) : list str :=
  match ps with
  | [] => [x]
  | p :: r => (x ++ p) :: r
  end.

(** The lines of a split, with the empty line standing for no line. *)
Definition linesOrBlank (lines : list str) : list str :=
  match lines with [] => [[]] | _ :: _ => lines end.

Definition noLineBreak (s : str) : bool :=
  forallb (fun c => negb (isLineBreak c)) s.

(** What a bullet or a highlight must be for the wire format to give it
    back: not empty, no white space around it, on one line, and without
    the delimiter. *)
Definition wireSafe (s : str) : bool :=
  truthy s && str_eqb (trim s) s && noLineBreak s
  && negb (includes s DELIMITER).

End TextSpec.

Import TextSpec.

(* ================================================================== *)
(** * The document                                                     *)
(* ================================================================== *)

Module Dom.

(** A node is a text node or an element.  Elements carry an identity
    ([id], the model of a JavaScript object reference: distinct elements
    of a document have distinct ids) and their class list. *)
#[local] Unset Elimination Schemes.

Inductive node : Type :=
| Text (data : str)
| Elem (id : nat) (classes : list str) (kids : list node).

#[local] Set Elimination Schemes.

(** Induction over nodes with the hypothesis on every child. *)
Section NodeInduction.
Variable P : node -> Prop.
Hypothesis P_text : forall s, P (Text s).
Hypothesis P_elem : forall i c ks, Forall P ks -> P (Elem i c ks).

Fixpoint node_ind (n : node) : P n :=
  match n with
  | Text s => P_text s
  | Elem i c ks =>
      P_elem i c
        ((fix all (l : list node) : Forall P l :=
            match l with
            | [] => Forall_nil P
            | k :: r => Forall_cons k (node_ind k) (all r)
            end) ks)
  end.
End NodeInduction.

(** The document is the list of children of [document.body]. *)
Definition document := list node.

Definition MARKER : str := lit "rifcare-highlight".

Fixpoint textContent (n : node) : str :=
  match n with
  | Text s => s
  | Elem _ _ ks => List.concat (map textContent ks)
  end.

Definition textOf (d : document) : str := List.concat (map textContent d).

Definition isElemId (x : nat) (n : node) : bool :=
  match n with
  | Text _ => false
  | Elem i _ _ => i =? x
  end.

(** Ids of the elements whose class list satisfies [sel], in document
    order. *)
Fixpoint selectIds (sel : list str -> bool) (n : node) : list nat :=
  match n with
  | Text _ => []
  | Elem i c ks =>
      (if sel c then [i] else []) ++ flat_map (selectIds sel) ks
  end.

Definition hasMarkerClass (c : list str) : bool := arrayIncludes c MARKER.

(** Ids of all elements of the document. *)
Definition docIds (d : document) : list nat :=
  flat_map (selectIds (fun _ => true)) d.

(** [querySelectorAll('.rifcare-highlight')]: the marker elements in
    document order, as references. *)
Definition querySelectorAll (d : document) : list nat :=
  flat_map (selectIds hasMarkerClass) d.

(** The text of the markers present, in document order. *)
Fixpoint markerTextsOf (n : node) : list str :=
  match n with
  | Text _ => []
  | Elem i c ks =>
      (if hasMarkerClass c then [List.concat (map textContent ks)] else [])
      ++ flat_map markerTextsOf ks
  end.

Definition markerTexts (d : document) : list str := flat_map markerTextsOf d.

(** One text node put in front of an already normalized child list. *)
Definition mergeText (s : str) (l : list node) : list node :=
  if truthy s
  then match l with
       | Text s' :: r => Text (s ++ s') :: r
       | _ => Text s :: l
       end
  else l.

(** [Node.normalize()]: in the whole subtree, empty text nodes are removed
    and adjacent text nodes are merged. *)
Fixpoint normalize (n : node) : node :=
  match n with
  | Text s => Text s
  | Elem i c ks =>
      Elem i c
        ((fix go (l : list node) : list node :=
            match l with
            | [] => []
            | k :: r =>
                match k with
                | Text s => mergeText s (go r)
                | Elem _ _ _ => normalize k :: go r
                end
            end) ks)
  end.

Fixpoint normalizeKids (l : list node) : list node :=
  match l with
  | [] => []
  | k :: r =>
      match k with
      | Text s => mergeText s (normalizeKids r)
      | Elem _ _ _ => normalize k :: normalizeKids r
      end
  end.

(** [parent.replaceChild(document.createTextNode(el.textContent), el)] seen
    from the child list of [parent]. *)
Definition swapForText (x : nat) (k : node) : node :=
  if isElemId x k then Text (textContent k) else k.

(** One turn of the loop of [removeHighlights] for the element [x]: when
    [x] is a child of this node it is replaced and the node is normalized,
    otherwise [x] is looked for below.  An element that is no longer in
    the document changes nothing in it. *)
Fixpoint replaceEl (x : nat) (n : node) : node :=
  match n with
  | Text s => Text s
  | Elem i c ks =>
      Elem i c
        (if existsb (isElemId x) ks
         then normalizeKids (map (swapForText x) ks)
         else map (replaceEl x) ks)
  end.

Definition replaceInDoc (x : nat) (d : document) : document :=
  if existsb (isElemId x) d
  then normalizeKids (map (swapForText x) d)
  else map (replaceEl x) d.

(** content_script.js 49-59.  [els] is the static array taken before the
    loop. *)
Definition removeHighlights (d : document) : document :=
  let els := querySelectorAll d in
  fold_left (fun d el => replaceInDoc el d) els d.

(** State of the loop of [highlightSentences]: the set of sentences still
    to place, the counter [highlights], and the identity the next created
    element receives. *)
Record hstate := mkH {
  sentenceSet : list str;
  highlights : nat;
  nextId : nat
}.

(** [for (const sentence of sentenceSet)] up to the first sentence found in
    [text], with its index. *)
Fixpoint firstMatch (text : str) (set : list str) : option (str * nat) :=
  match set with
  | [] => None
  | sentence :: rest =>
      match indexOf sentence text with
      | Some idx => Some (sentence, idx)
      | None => firstMatch text rest
      end
  end.

(** [span.textContent = sentence] *)
Definition setTextContent (s : str) : list node :=
  if truthy s then [Text s] else [].

(** Body of the loop over [textNodes] for one text node (lines 23-44);
    [total] is [sentences.length].  The node is replaced in its parent by
    the nodes returned. *)
Definition visitText (total : nat) (st : hstate) (text : str)
  : hstate * list node :=
  if total <=? highlights st then (st, [Text text])
  else match firstMatch text (sentenceSet st) with
       | Some (sentence, idx) =>
           (mkH (setDelete sentence (sentenceSet st))
                (S (highlights st)) (S (nextId st)),
            [Text (firstn idx text);
             Elem (nextId st) [MARKER] (setTextContent sentence);
             Text (skipn (idx + length sentence) text)])
       | None => (st, [Text text])
       end.

(** The text nodes are collected in document order before the loop and
    each is replaced in place at most once; the nodes created by a
    replacement are not in that array.  The loop is therefore one pass
    over the tree in document order that threads the state. *)
Fixpoint visit (total : nat) (st : hstate) (n : node) {struct n}
  : hstate * list node :=
  match n with
  | Text t => visitText total st t
  | Elem i c ks =>
      let (st', ks') :=
        (fix go (st : hstate) (l : list node) {struct l}
           : hstate * list node :=
           match l with
           | [] => (st, [])
           | k :: r =>
               let (st1, k') := visit total st k in
               let (st2, r') := go st1 r in
               (st2, k' ++ r')
           end) st ks in
      (st', [Elem i c ks'])
  end.

Fixpoint visitAll (total : nat) (st : hstate) (l : list node) {struct l}
  : hstate * list node :=
  match l with
  | [] => (st, [])
  | k :: r =>
      let (st1, k') := visit total st k in
      let (st2, r') := visitAll total st1 r in
      (st2, k' ++ r')
  end.

Definition freshId (d : document) : nat := S (list_max (docIds d)).

(** content_script.js 11-46, returning the final loop state with the
    document. *)
Definition highlightRun (sentences : list str) (d : document)
  : hstate * document :=
  let d1 := removeHighlights d in
  let set := setOf (filter truthy (map trim sentences)) in
  visitAll (length sentences) (mkH set 0 (freshId d1)) d1.

Definition highlightSentences (sentences : list str) (d : document)
  : document :=
  snd (highlightRun sentences d).

End Dom.

Import Dom.

(* ================================================================== *)
(** * Persistent store ([chrome.storage.local])                        *)
(* ================================================================== *)

Module Storage.

Record pageData := mkPageData {
  pd_summary : list str;
  pd_highlights : list str;
  pd_raw : str;
  pd_updated : nat
}.

Record historyEntry := mkEntry {
  he_question : str;
  he_answer : str;
  he_at : nat;
  he_source : option str
}.

Inductive stored : Type :=
| StoredPage (d : pageData)
| StoredHistory (h : list historyEntry).

(** Keys are strings; the most recent binding of a key is the first. *)
Definition storage := list (str * stored).

Fixpoint get (st : storage) (key : str) : option stored :=
  match st with
  | [] => None
  | (k, v) :: r => if str_eqb key k then Some v else get r key
  end.

Definition set (st : storage) (key : str) (v : stored) : storage :=
  (key, v) :: st.

(** [const hist = res[key] || []; hist.push(entry); set({[key]: hist})]:
    the store once the read of this append has been served and its write
    has landed, with no other write to the key in between.  The two
    moments are told apart in [Transactions] below. *)
Definition pushHistory (st : storage) (key : str) (e : historyEntry)
  : storage :=
  let hist := match get st key with
              | Some (StoredHistory h) => h
              | _ => []
              end in
  set st key (StoredHistory (hist ++ [e])).

Definition historyKey (url : str) : str := lit "qa_history_" ++ url.

End Storage.

Import Storage.

(* ================================================================== *)
(** * content_script.js                                                *)
(* ================================================================== *)

Module ContentScript.

(** [text.slice(0, 200000)] *)
Definition LIMIT : nat := 200 * 1000.

(** Lines 73-105. *)
Definition summarizeText (raw : str) (maxBullets maxHighlights : nat)
  : summary :=
  if negb (truthy raw) then emptySummary
  else
    let sents := segment raw in
    if length sents =? 0 then emptySummary
    else summarizeSentences sents maxBullets maxHighlights.

Record qaResult := mkQA { answer : str; fallbackUsed : bool }.

Definition NO_CONTENT : str := lit "No content to answer from.".

(** Lines 108-131.  Nothing in the [try] block throws on strings, the
    [catch] branch is not reachable. *)
Definition answerQuestion (pageText question : str) : qaResult :=
  let qWords := questionWords question in
  let sents := segment pageText in
  if length sents =? 0 then mkQA NO_CONTENT true
  else mkQA (pickSentence qWords sents []) true.

(** [l.replace(/^-\s*/, '')] *)
Definition stripDash (l : str) : str :=
  match l with
  | [] => []
  | c :: r => if Ascii.eqb c DASH then trimStart r else l
  end.

(** Lines 213-216: recovery of bullets and highlights from raw text. *)
Definition parseSummary (raw : str) : list str * list str :=
  let parts := splitStr DELIMITER raw in
  let bulletsPart := nth 0 parts [] in
  let highlightsPart := nth 1 parts [] in
  let bullets :=
    filter truthy
      (map (fun l => trim (stripDash l)) (splitOn isLineBreak bulletsPart)) in
  let highlights :=
    firstn 5
      (filter truthy (map (fun l => trim l)
                        (splitOn isLineBreak highlightsPart))) in
  (bullets, highlights).

(** The deterministic summary of mock mode (lines 183-196). *)
Definition fake : summary :=
  mkSummary
    (map lit ["This page explains the main idea in 3-5 short points.";
              "Important architecture or workflow details are discussed.";
              "Major benefits and trade-offs are highlighted.";
              "Next steps and contact information are provided."]%string)
    (map lit ["This is a highlight sentence one.";
              "This is a highlight sentence two.";
              "This is a highlight sentence three."]%string)
    (lit "FAKE_SUMMARY").

Record page := mkPage {
  pg_document : document;
  pg_storage : storage
}.

Inductive response : Type :=
| OkData (data : pageData) (fallbackUsed : bool)
| OkAnswer (answer : str) (fallbackUsed : bool)
| Error (message : str).

(** Handler of [extract_and_summarize] (lines 177-231); [text] is the
    visible text of the page, [url] its address, [now] the clock.
    [summarizeText] does not throw on strings, so the path through
    [call_gemini] is not taken. *)
Definition extract_and_summarize (mock : bool) (text url : str) (now : nat)
  (p : page) : page * response :=
  let result := if mock then fake
                else summarizeText (firstn LIMIT text) 4 4 in
  let d := highlightSentences (firstn 5 (Shared.highlights result))
             (pg_document p) in
  let data := mkPageData (bullets result) (Shared.highlights result)
                (raw result) now in
  (mkPage d (set (pg_storage p) url (StoredPage data)), OkData data false).

Definition mockAnswer (question : str) : str :=
  lit "MOCK ANSWER: I can't access Gemini here, but this is a simulated response to: "
  ++ [DQUOTE] ++ question ++ [DQUOTE].

(** Handler of [ask_question] (lines 232-263). *)
Definition ask_question (mock : bool) (question text url : str) (now : nat)
  (p : page) : page * response :=
  if mock then
    let answer := mockAnswer question in
    let e := mkEntry question answer now None in
    (mkPage (pg_document p) (pushHistory (pg_storage p) (historyKey url) e),
     OkAnswer answer false)
  else
    let ansObj := answerQuestion (firstn LIMIT text) question in
    let e := mkEntry question (answer ansObj) now None in
    (mkPage (pg_document p) (pushHistory (pg_storage p) (historyKey url) e),
     OkAnswer (answer ansObj) (fallbackUsed ansObj)).

End ContentScript.

(* ================================================================== *)
(** * popup.js                                                         *)
(* ================================================================== *)

Module Popup.

(** [l.replace(/^[-\s]*\-?\s*/,'')]: the first star takes every leading
    dash and white space, nothing is left for the rest of the pattern. *)
Fixpoint stripLead (l : str) : str :=
  match l with
  | [] => []
  | c :: r => if Ascii.eqb c DASH || isWhiteSpace c then stripLead r else l
  end.

(** Lines 147-150 of the summarize click handler. *)
Definition parseSummary (raw : str) : list str * list str :=
  let parts := splitStr DELIMITER raw in
  let bulletsPart := nth 0 parts [] in
  let highlightsPart := nth 1 parts [] in
  let bullets :=
    firstn 6
      (filter truthy
         (map (fun l => trim (stripLead l))
            (splitOn isLineBreak bulletsPart))) in
  let highlights :=
    firstn 5
      (filter truthy (map (fun l => trim l)
                        (splitOn isLineBreak highlightsPart))) in
  (bullets, highlights).

End Popup.

(* ================================================================== *)
(** * background.js                                                    *)
(* ================================================================== *)

Module Background.

Definition LIMIT : nat := 200 * 1000.

(** Lines 117-157. *)
Definition extractiveSummarize (rawText : str) (maxBullets maxHighlights : nat)
  : str :=
  if negb (truthy rawText) || negb (truthy (trim rawText)) then []
  else
    let sents := segment rawText in
    if length sents =? 0 then []
    else raw (summarizeSentences sents maxBullets maxHighlights).

(** What a call to a model tier does: it returns text or throws an
    [Error] with a message. *)
Inductive outcome : Type :=
| Returns (text : str)
| Throws (message : str).

(** [err && err.message ? err.message : String(err)] for an [Error]. *)
Definition describe (message : str) : str :=
  if truthy message then message else lit "Error".

(** The two model tiers, as functions of the prompt and of
    [maxOutputTokens].  Their behaviour belongs to the browser. *)
Record services := mkServices {
  callChromeAI : str -> nat -> outcome;
  callWindowAIInPage : str -> nat -> outcome
}.

Inductive tier : Type := OnDevice | PageContext | ExtractiveFallback.

Record world := mkWorld {
  calls : list tier;          (* tiers invoked so far, oldest first *)
  store : storage
}.

Definition invoke (t : tier) (w : world) : world :=
  mkWorld (calls w ++ [t]) (store w).

Inductive response : Type :=
| OkText (text : str) (source : str)
| OkAnswer (answer : str) (source : str)
| Error (message : str).

Definition summarizePrompt (text : str) : str :=
  lit "Summarize the following webpage content into 4 concise bullet points and provide 4 highlight-worthy sentences (exact sentence text). Separate bullets with "
  ++ [DQUOTE] ++ lit "\n- " ++ [DQUOTE]
  ++ lit " and highlight sentences after a delimiter "
  ++ [DQUOTE] ++ lit "===HIGHLIGHTS===\n" ++ [DQUOTE]
  ++ lit " followed by each sentence on its own line. Content:"
  ++ [LF; LF] ++ text.

Definition askPrompt (question text : str) : str :=
  lit "Answer the user's question based on the following webpage content. Provide a concise answer. If you cannot find a direct answer, give a short summary relevant to the question."
  ++ [LF; LF] ++ lit "Question: " ++ question
  ++ [LF; LF] ++ lit "Content:" ++ [LF] ++ text.

(** The [summarize] branch of the main handler (lines 175-201), after the
    page text has been extracted.  The field [mock] of the message is not
    read in this branch. *)
Definition summarize (S : services) (mock : bool) (extracted : str)
  (w : world) : world * response :=
  let text := firstn LIMIT extracted in
  let prompt := summarizePrompt text in
  let w := invoke OnDevice w in
  match callChromeAI S prompt 400 with
  | Returns aiText => (w, OkText aiText (lit "chrome.ai"))
  | Throws _ =>
      let w := invoke PageContext w in
      match callWindowAIInPage S prompt 400 with
      | Returns aiText => (w, OkText aiText (lit "window.ai"))
      | Throws err2 =>
          let w := invoke ExtractiveFallback w in
          let fallback := extractiveSummarize text 4 4 in
          if truthy fallback && truthy (trim fallback)
          then (w, OkText fallback (lit "extractive-fallback"))
          else (w, Error
                  (lit "Gemini Nano not supported on this device or context: "
                   ++ describe err2))
      end
  end.

Definition mockAnswer (question : str) : str :=
  lit "MOCK ANSWER: simulated response to "
  ++ [DQUOTE] ++ question ++ [DQUOTE].

Definition NO_ANSWER : str := lit "No answer found".

(** Lines 240-250: the question matcher written out in the handler. *)
Definition extractiveAnswer (text question : str) : str :=
  let qWords := questionWords question in
  let sents := segment text in
  pickSentence qWords sents NO_ANSWER.

(** Lines 259-270: the entry is appended to the history of the page.  The
    write is started before the response is sent and completes after it;
    the store is taken once it has completed. *)
Definition persist (url question answer source : str) (now : nat) (w : world)
  : world :=
  mkWorld (calls w)
    (pushHistory (store w) (historyKey url)
       (mkEntry question answer now (Some source))).

(** The [ask] branch of the main handler (lines 203-273); [url] is the
    address of the tab, [now] the clock. *)
Definition ask (S : services) (mock : bool) (question extracted url : str)
  (now : nat) (w : world) : world * response :=
  let text := firstn LIMIT extracted in
  let prompt := askPrompt question text in
  if mock then
    (persist url question (mockAnswer question) (lit "mock") now w,
     OkAnswer (mockAnswer question) (lit "mock"))
  else
    let w := invoke OnDevice w in
    let (w, final) :=
      match callChromeAI S prompt 300 with
      | Returns aiText => (w, (aiText, lit "chrome.ai"))
      | Throws _ =>
          let w := invoke PageContext w in
          match callWindowAIInPage S prompt 300 with
          | Returns aiText => (w, (aiText, lit "window.ai"))
          | Throws _ =>
              let w := invoke ExtractiveFallback w in
              (w, (extractiveAnswer text question, lit "extractive-fallback"))
          end
      end in
    (persist url question (fst final) (snd final) now w,
     OkAnswer (fst final) (snd final)).

End Background.

(* ================================================================== *)
(** * Sample inputs                                                    *)
(* ================================================================== *)

Module Samples.

(** The four sentences of the scorer example. *)
Definition menagerie : str :=
  lit "Cats are mammals. Dogs are mammals too. Birds can fly. Fish live in water.".

(** A browser without any built-in model: both model tiers throw. *)
Definition offline : Background.services :=
  Background.mkServices
    (fun _ _ => Background.Throws (lit "chrome.ai not available in background"))
    (fun _ _ => Background.Throws (lit "window.ai not available")).

(** A browser whose on-device model answers with the prompt it was given. *)
Definition echo : Background.services :=
  Background.mkServices
    (fun prompt _ => Background.Returns prompt)
    (fun _ _ => Background.Throws (lit "window.ai not available")).

Definition freshWorld : Background.world := Background.mkWorld [] [].

(** A page with a marker that holds another marker. *)
Definition nested : document :=
  [Text (lit "Hello world. ");
   Elem 1 []
     [Text (lit "Cats are here. Dogs too.");
      Elem 2 [MARKER] [Text (lit "old "); Elem 3 [MARKER] [Text (lit "inner")]];
      Text (lit " tail")];
   Text (lit "end")].

End Samples.

Import Samples.

(* ================================================================== *)
(** * background.js: extraction of the page text (lines 28-68)         *)
(* ================================================================== *)

Module Extraction.

(** What [chrome.tabs.sendMessage(tabId, {action: 'extract_page'}, cb)]
    does: the callback receives a reply [r] (whose field [text] may be
    missing), or finds [chrome.runtime.lastError] set, or the call
    throws, or the callback is not called before the timer fires. *)
Inductive delivery : Type :=
| Replied (text : option str)
| LastError (message : str)
| SendThrows (message : option str)
| NoReply.

(** What [chrome.scripting.executeScript] gives: no result, the value
    returned by the page function with its fields [text] and [error], or
    an exception. *)
Inductive injection : Type :=
| NoResult
| PageValue (text error : option str)
| InjectThrows (message : str).

(** [{ok: true, text}] or [{ok: false, error}]. *)
Inductive extracted : Type :=
| Ok (text : str)
| Failed (error : option str).

(** The two ways to the page text, in the order they are tried. *)
Inductive probe : Type := ByMessage | ByScript.

(** Lines 31-44: the promise around [sendMessage]. *)
Definition viaMessage (m : delivery) : extracted :=
  match m with
  | Replied text => Ok (orElse text [])
  | LastError message => Failed (Some message)
  | SendThrows message => Failed message
  | NoReply => Failed (Some (lit "timeout extracting page text (message)"))
  end.

(** Lines 52-67: the script run in the page. *)
Definition viaScript (i : injection) : extracted :=
  match i with
  | NoResult => Failed (Some (lit "no result from page script"))
  | PageValue text error =>
      if truthy (orElse error [])
      then Failed (Some (lit "page script error: " ++ orElse error []))
      else Ok (orElse text [])
  | InjectThrows message => Failed (Some (Background.describe message))
  end.

(** Lines 28-68, with the ways tried. *)
Definition extractPageText (m : delivery) (i : injection)
  : list probe * extracted :=
  match viaMessage m with
  | Ok text => ([ByMessage], Ok text)
  | Failed _ => ([ByMessage; ByScript], viaScript i)
  end.

End Extraction.

(* ================================================================== *)
(** * background.js: the message listener (lines 160-279)             *)
(* ================================================================== *)

Module Worker.

Import Extraction Background.

(** The fields of a message that the listener reads. *)
Record message := mkMessage {
  msg_action : str;
  msg_tabId : option nat;
  msg_question : option str;
  msg_mock : bool
}.

(** What the browser answers to the calls of the listener: the id of the
    active tab of [chrome.tabs.query], the two ways to the page text, the
    two model tiers, the [url] field of [chrome.tabs.get] ([None] when the
    call throws) and [Date.now()]. *)
Record browser := mkBrowser {
  br_activeTab : option nat;
  br_sendMessage : nat -> delivery;
  br_pageScript : nat -> injection;
  br_chromeAI : str -> nat -> outcome;
  br_windowAI : nat -> str -> nat -> outcome;
  br_tabsGet : nat -> option (option str);
  br_now : nat
}.

(** What a call of the listener leaves: the ways to the page text that
    were tried, the tiers invoked and the store, and the response sent,
    if any. *)
Record run := mkRun {
  probes : list probe;
  after : world;
  sent : option response
}.

(** Line 161. *)
Definition handled (action : str) : bool :=
  str_eqb action (lit "summarize") || str_eqb action (lit "ask").

(** Lines 165-170; [!tabId] holds of a missing id and of 0. *)
Definition targetTab (b : browser) (m : message) : option nat :=
  match msg_tabId m with
  | Some (S n) => Some (S n)
  | _ => br_activeTab b
  end.

(** Lines 204-256: the answer and its source, before they are stored. *)
Definition answer (S : services) (mock : bool) (question extracted : str)
  (w : world) : world * (str * str) :=
  let text := firstn LIMIT extracted in
  let prompt := askPrompt question text in
  if mock then (w, (mockAnswer question, lit "mock"))
  else
    let w := invoke OnDevice w in
    match callChromeAI S prompt 300 with
    | Returns aiText => (w, (aiText, lit "chrome.ai"))
    | Throws _ =>
        let w := invoke PageContext w in
        match callWindowAIInPage S prompt 300 with
        | Returns aiText => (w, (aiText, lit "window.ai"))
        | Throws _ =>
            let w := invoke ExtractiveFallback w in
            (w, (extractiveAnswer text question, lit "extractive-fallback"))
        end
    end.

(** Lines 160-279, when [chrome.tabs.query] resolves and every awaited
    call settles.  [Listening.listen] below is the listener without these
    two assumptions. *)
Definition onMessage (b : browser) (m : message) (w : world) : run :=
  if negb (handled (msg_action m)) then mkRun [] w None
  else
    match targetTab b m with
    | None => mkRun [] w (Some (Error (lit "No active tab")))
    | Some tab =>
        let (ps, ex) :=
          extractPageText (br_sendMessage b tab) (br_pageScript b tab) in
        match ex with
        | Failed error =>
            mkRun ps w
              (Some (Error (lit "Failed to extract page text: "
                            ++ orElse error (lit "unknown"))))
        | Ok text =>
            let S := mkServices (br_chromeAI b) (br_windowAI b tab) in
            if str_eqb (msg_action m) (lit "summarize") then
              let (w1, r) := summarize S (msg_mock m) text w in
              mkRun ps w1 (Some r)
            else
              let question := orElse (msg_question m) [] in
              let (w1, final) := answer S (msg_mock m) question text w in
              let w2 :=
                match br_tabsGet b tab with
                | Some url =>
                    persist (orElse url (lit "unknown")) question
                      (fst final) (snd final) (br_now b) w1
                | None => w1
                end in
              mkRun ps w2 (Some (OkAnswer (fst final) (snd final)))
        end
    end.

End Worker.

(* ================================================================== *)
(** * content_script.js: the first listener (lines 134-171)           *)
(* ================================================================== *)

Module Listener.

(** The messages that read or change the document; [sentences] is [None]
    when the field is not an array.  The fourth message, [store_summary],
    only writes to [chrome.storage] and is left out. *)
Inductive request : Type :=
| ExtractPage
| HighlightSentences (sentences : option (list str))
| RemoveHighlights.

Inductive reply : Type :=
| OkText (text : str)
| OkDone.

(** Lines 136-153; [innerText] is [document.body.innerText]. *)
Definition onMessage (m : request) (innerText : str) (d : document)
  : document * reply :=
  match m with
  | ExtractPage => (d, OkText innerText)
  | HighlightSentences sentences =>
      let sentences := match sentences with Some l => l | None => [] end in
      (highlightSentences (firstn 5 sentences) d, OkDone)
  | RemoveHighlights => (removeHighlights d, OkDone)
  end.

(** The document after a sequence of messages. *)
Definition serve (ms : list request) (innerText : str) (d : document)
  : document :=
  fold_left (fun d m => fst (onMessage m innerText d)) ms d.

End Listener.

(* ================================================================== *)
(** * popup.js: what the popup shows                                   *)
(* ================================================================== *)

Module PopupView.

(** An area of the popup is written through [textContent] or through
    [innerHTML]. *)
Inductive view : Type :=
| TextContent (s : str)
| InnerHTML (s : str).

(** Lines 100-106. *)
Definition setSummaryText (textArr : list str) : view :=
  if length textArr =? 0 then TextContent (lit "No summary available.")
  else InnerHTML
         (lit "<ul>"
          ++ List.concat (map (fun b => lit "<li>" ++ b ++ lit "</li>") textArr)
          ++ lit "</ul>").

(** [resp.source ? `Source: ${resp.source}` : ''] *)
Definition sourceLine (source : str) : str :=
  if truthy source then lit "Source: " ++ source else [].

(** What the click on Summarize leaves: the two areas, the sentences sent
    to the page with [highlight_sentences], and the record stored under
    the address of the tab (without its time stamp). *)
Record summarized := mkSummarized {
  summaryArea : view;
  statusArea : str;
  toHighlight : option (list str);
  toStore : option (list str * list str * str)
}.

(** Lines 139-178 of the click handler; [resp] is [None] when the
    background sends no response object. *)
Definition onSummary (resp : option Background.response) : summarized :=
  match resp with
  | None =>
      mkSummarized
        (TextContent (lit "AI error: No response from background"))
        [] None None
  | Some (Background.Error message) =>
      mkSummarized
        (TextContent
           (lit "Error: "
            ++ (if truthy message then message
                else lit "Unknown error from background")))
        [] None None
  | Some ok =>
      let raw := match ok with Background.OkText text _ => text | _ => [] end in
      let source := match ok with
                    | Background.OkText _ source => source
                    | Background.OkAnswer _ source => source
                    | Background.Error _ => []
                    end in
      let (bullets, highlights) := Popup.parseSummary raw in
      mkSummarized
        (setSummaryText (if length bullets =? 0 then [firstn 500 raw]
                         else bullets))
        (sourceLine source)
        (Some highlights)
        (Some (bullets, highlights, raw))
  end.

(** Lines 171-172: the record is stored under [tab.url] with the time. *)
Definition storeSummary (st : storage) (url : str) (now : nat)
  (v : summarized) : storage :=
  match toStore v with
  | Some (bullets, highlights, raw) =>
      set st url (StoredPage (mkPageData bullets highlights raw now))
  | None => st
  end.

(** Lines 254-257: the summary area when the popup opens, [None] when it
    is left as it is. *)
Definition onOpen (st : storage) (url : str) : option view :=
  match get st url with
  | Some (StoredPage data) => Some (setSummaryText (pd_summary data))
  | _ => None
  end.


(** [res[key] || []] *)
Definition history (st : storage) (key : str) : list historyEntry :=
  match get st key with
  | Some (StoredHistory h) => h
  | _ => []
  end.

(** ['qa_history_' + url], where [url] may be undefined. *)
Definition keyOf (url : option str) : str :=
  lit "qa_history_" ++ match url with Some u => u | None => lit "undefined" end.

(** [hist.slice(-5).reverse()] *)
Definition lastFirst (hist : list historyEntry) : list historyEntry :=
  rev (skipn (length hist - 5) hist).

Definition historyItem (h : historyEntry) : str :=
  lit "<div class=" ++ [DQUOTE] ++ lit "history-item" ++ [DQUOTE]
  ++ lit "><strong>Q:</strong> " ++ he_question h
  ++ lit "<br/><strong>A:</strong> " ++ he_answer h ++ lit "</div>".

(** Lines 238-248. *)
Definition loadHistory (st : storage) (url : option str) : view :=
  let hist := history st (keyOf url) in
  if length hist =? 0 then TextContent (lit "No history yet.")
  else InnerHTML (join (lit "<hr/>") (map historyItem (lastFirst hist))).

End PopupView.

(** A browser without any built-in model showing one tab, whose content
    script answers with the text given. *)
Module Scenes.

Definition offlineTab (text url : str) : Worker.browser :=
  Worker.mkBrowser (Some 7)
    (fun _ => Extraction.Replied (Some text))
    (fun _ => Extraction.NoResult)
    (fun _ _ => Background.Throws (lit "chrome.ai not available in background"))
    (fun _ _ _ => Background.Throws (lit "window.ai not available"))
    (fun _ => Some (Some url))
    1000.

End Scenes.

(* ================================================================== *)
(** * The appends to a history, read and write apart                   *)
(* ================================================================== *)

Module Transactions.

(** One append as the source writes it (background.js 214-218 and
    263-267, content_script.js 237-242 and 252-257):
    [chrome.storage.local.get([key], cb)], whose callback pushes the
    entry onto what was read and calls [chrome.storage.local.set]. *)
Record append := mkAppend {
  ap_key : str;
  ap_entry : historyEntry
}.

(** The two moments of the append number [i]: its read is served and its
    callback runs; its write lands.  Reads and writes of other appends
    may come in between. *)
Inductive event : Type :=
| Served (i : nat)
| Landed (i : nat).

(** [const hist = res[key] || []; hist.push(entry)]: the array handed to
    [set]; [None] when what is stored under the key is not an array,
    [push] then throws and nothing is written. *)
Definition callback (st : storage) (a : append)
  : option (list historyEntry) :=
  match get st (ap_key a) with
  | Some (StoredHistory h) => Some (h ++ [ap_entry a])
  | Some (StoredPage _) => None
  | None => Some [ap_entry a]
  end.

(** The store, and the arrays handed to [set] whose write has not landed
    yet, with the number of their append. *)
Record state := mkState {
  current : storage;
  inFlight : list (nat * list historyEntry)
}.

Fixpoint take (i : nat) (l : list (nat * list historyEntry))
  : option (list historyEntry * list (nat * list historyEntry)) :=
  match l with
  | [] => None
  | (j, v) :: r =>
      if j =? i then Some (v, r)
      else match take i r with
           | Some (v', r') => Some (v', (j, v) :: r')
           | None => None
           end
  end.

Definition step (aps : list append) (s : state) (ev : event) : state :=
  match ev with
  | Served i =>
      match nth_error aps i with
      | Some a =>
          match callback (current s) a with
          | Some v => mkState (current s) (inFlight s ++ [(i, v)])
          | None => s
          end
      | None => s
      end
  | Landed i =>
      match nth_error aps i, take i (inFlight s) with
      | Some a, Some (v, rest) =>
          mkState (set (current s) (ap_key a) (StoredHistory v)) rest
      | _, _ => s
      end
  end.

(** The append served and landed with nothing in between. *)
Definition atOnce (st : storage) (a : append) : storage :=
  match callback st a with
  | Some v => set st (ap_key a) (StoredHistory v)
  | None => st
  end.

(** The store after the events [evs] of the appends [aps]. *)
Definition run (aps : list append) (evs : list event) (st : storage)
  : storage :=
  current (fold_left (step aps) evs (mkState st [])).

(** Every append served and landed before the next one is served. *)
Definition oneByOne (n : nat) : list event :=
  flat_map (fun i => [Served i; Landed i]) (seq 0 n).

End Transactions.

(* ================================================================== *)
(** * background.js: the listener and the calls that do not settle     *)
(* ================================================================== *)

Module Listening.

Import Extraction Background Worker Transactions.

(** An awaited call settles (it resolves or rejects, as the browser
    record tells) or never does; no call of the listener has a timeout
    but the message of [extractPageText]. *)
Inductive fate : Type := Settles | Hangs.

(** [chrome.tabs.query] is awaited outside every inner [try]: its
    rejection reaches the [catch] of lines 274-276. *)
Inductive queryFate : Type :=
| QueryResolves
| QueryRejects (message : str)
| QueryHangs.

Record hazards := mkHazards {
  hz_query : queryFate;
  hz_pageScript : nat -> fate;
  hz_chromeAI : str -> nat -> fate;
  hz_windowAI : nat -> str -> nat -> fate;
  hz_tabsGet : nat -> fate
}.

(** Nothing rejects outside a [try] and nothing hangs. *)
Definition calm : hazards :=
  mkHazards QueryResolves (fun _ => Settles) (fun _ _ => Settles)
    (fun _ _ _ => Settles) (fun _ => Settles).

(** What a call of the listener does: the ways to the page text tried,
    the tiers invoked, the appends to the store started, and the
    response sent, if any. *)
Record trace := mkTrace {
  tr_probes : list probe;
  tr_calls : list tier;
  tr_issued : list append;
  tr_sent : option response
}.

(** The two model tiers awaited in turn (lines 180-188 and 228-237). *)
Inductive chained : Type :=
| Answered (text source : str)
| BothThrew (err2 : str)
| Stuck.

Definition chain (hz : hazards) (b : browser) (tab : nat) (prompt : str)
  (maxOutputTokens : nat) : list tier * chained :=
  match hz_chromeAI hz prompt maxOutputTokens with
  | Hangs => ([OnDevice], Stuck)
  | Settles =>
      match br_chromeAI b prompt maxOutputTokens with
      | Returns aiText => ([OnDevice], Answered aiText (lit "chrome.ai"))
      | Throws _ =>
          match hz_windowAI hz tab prompt maxOutputTokens with
          | Hangs => ([OnDevice; PageContext], Stuck)
          | Settles =>
              match br_windowAI b tab prompt maxOutputTokens with
              | Returns aiText =>
                  ([OnDevice; PageContext], Answered aiText (lit "window.ai"))
              | Throws err2 => ([OnDevice; PageContext], BothThrew err2)
              end
          end
      end
  end.

(** Lines 175-273, once the text is extracted. *)
Definition withText (hz : hazards) (b : browser) (m : message) (tab : nat)
  (ps : list probe) (extracted : str) : trace :=
  let text := firstn LIMIT extracted in
  if str_eqb (msg_action m) (lit "summarize") then
    match chain hz b tab (summarizePrompt text) 400 with
    | (cs, Stuck) => mkTrace ps cs [] None
    | (cs, Answered aiText source) =>
        mkTrace ps cs [] (Some (OkText aiText source))
    | (cs, BothThrew err2) =>
        let fallback := extractiveSummarize text 4 4 in
        mkTrace ps (cs ++ [ExtractiveFallback]) []
          (Some (if truthy fallback && truthy (trim fallback)
                 then OkText fallback (lit "extractive-fallback")
                 else Error
                        (lit "Gemini Nano not supported on this device or context: "
                         ++ describe err2)))
    end
  else
    let question := orElse (msg_question m) [] in
    let answered :=
      if msg_mock m then ([], Some (mockAnswer question, lit "mock"))
      else
        match chain hz b tab (askPrompt question text) 300 with
        | (cs, Stuck) => (cs, None)
        | (cs, Answered aiText source) => (cs, Some (aiText, source))
        | (cs, BothThrew _) =>
            (cs ++ [ExtractiveFallback],
             Some (extractiveAnswer text question, lit "extractive-fallback"))
        end in
    match answered with
    | (cs, None) => mkTrace ps cs [] None
    | (cs, Some (answer, source)) =>
        match hz_tabsGet hz tab with
        | Hangs => mkTrace ps cs [] None
        | Settles =>
            mkTrace ps cs
              (match br_tabsGet b tab with
               | Some url =>
                   [mkAppend (historyKey (orElse url (lit "unknown")))
                      (mkEntry question answer (br_now b) (Some source))]
               | None => []
               end)
              (Some (OkAnswer answer source))
        end
    end.

(** Lines 173-174 with [extractPageText], once the tab is known. *)
Definition withTab (hz : hazards) (b : browser) (m : message) (tab : nat)
  : trace :=
  match viaMessage (br_sendMessage b tab) with
  | Ok text => withText hz b m tab [ByMessage] text
  | Failed _ =>
      match hz_pageScript hz tab with
      | Hangs => mkTrace [ByMessage; ByScript] [] [] None
      | Settles =>
          match viaScript (br_pageScript b tab) with
          | Ok text => withText hz b m tab [ByMessage; ByScript] text
          | Failed error =>
              mkTrace [ByMessage; ByScript] [] []
                (Some (Error (lit "Failed to extract page text: "
                              ++ orElse error (lit "unknown"))))
          end
      end
  end.

(** Lines 160-279. *)
Definition listen (hz : hazards) (b : browser) (m : message) : trace :=
  if negb (handled (msg_action m)) then mkTrace [] [] [] None
  else
    match msg_tabId m with
    | Some (S n) => withTab hz b m (S n)
    | _ =>
        match hz_query hz with
        | QueryHangs => mkTrace [] [] [] None
        | QueryRejects message =>
            mkTrace [] [] [] (Some (Error (describe message)))
        | QueryResolves =>
            match br_activeTab b with
            | None => mkTrace [] [] [] (Some (Error (lit "No active tab")))
            | Some tab => withTab hz b m tab
            end
        end
    end.


End Listening.

(* ================================================================== *)
(** * Notions used to state further properties                         *)
(* ================================================================== *)

Module Excerpt.

(** [s] occurs in [t]. *)
Definition occursIn (s t : str) : Prop :=
  exists pre post, t = pre ++ s ++ post.

(** The text nodes of a subtree, in document order. *)
Fixpoint textNodesOf (n : node) : list str :=
  match n with
  | Text s => [s]
  | Elem _ _ ks => flat_map textNodesOf ks
  end.

Definition textNodes (d : document) : list str := flat_map textNodesOf d.

(** Some sentence of [cands] occurs in the text [t]. *)
Definition findable (cands : list str) (t : str) : bool :=
  existsb (fun s => includes t s) cands.

(** Some sentence of [cands] occurs in a text node of [d]. *)
Definition findableIn (cands : list str) (d : document) : bool :=
  existsb (findable cands) (textNodes d).

(** What the traversal of [highlightSentences] guarantees when it goes
    from the state [st] to the result [r] over nodes whose element ids
    are [ids], whose text nodes are [texts] and whose markers hold
    [marks]; [same] is the result that changes nothing.  Identities are
    taken in increasing order, the counter does not decrease, the
    elements of the result are the former ones and the created ones,
    nothing changes when no sentence is findable, the counter increases
    when one is and the limit is not reached, and every marker of the
    result was there or holds a sentence found in one of the texts. *)
Definition stepFacts (total : nat) (st : hstate) (ids : list nat)
  (texts marks : list str) (same r : hstate * list node) : Prop :=
  nextId st <= nextId (fst r)
  /\ Dom.highlights st <= Dom.highlights (fst r)
  /\ Permutation (docIds (snd r))
       (ids ++ seq (nextId st) (nextId (fst r) - nextId st))
  /\ (existsb (findable (sentenceSet st)) texts = false -> r = same)
  /\ (Dom.highlights st < total ->
      existsb (findable (sentenceSet st)) texts = true ->
      Dom.highlights st < Dom.highlights (fst r))
  /\ (forall s, In s (markerTexts (snd r)) ->
        In s marks \/ exists t, In t texts /\ includes t s = true).

(** The document with every marker replaced by a text node holding its
    text, nothing else changed and nothing merged. *)
Fixpoint unwrap (n : node) : node :=
  match n with
  | Text s => Text s
  | Elem i c ks =>
      if hasMarkerClass c then Text (List.concat (map textContent ks))
      else Elem i c (map unwrap ks)
  end.

(** Ids of the elements that are not markers. *)
Definition otherIds (d : document) : list nat :=
  flat_map (selectIds (fun c => negb (hasMarkerClass c))) d.

(** [splits cands l l']: [l'] is [l] where some text nodes have been split
    in three, the text before the first occurrence of a sentence of
    [cands], a marker holding that sentence, and the text after it;
    elements keep their identity and their classes. *)
Inductive splits (cands : list str) : list node -> list node -> Prop :=
| splits_nil : splits cands [] []
| splits_keep t r r' :
    splits cands r r' -> splits cands (Text t :: r) (Text t :: r')
| splits_wrap t s i id r r' :
    In s cands -> indexOf s t = Some i -> splits cands r r' ->
    splits cands (Text t :: r)
      (Text (firstn i t) :: Elem id [MARKER] (setTextContent s)
       :: Text (skipn (i + length s) t) :: r')
| splits_elem i c ks ks' r r' :
    splits cands ks ks' -> splits cands r r' ->
    splits cands (Elem i c ks :: r) (Elem i c ks' :: r').

End Excerpt.

Import Excerpt.

Unset Implicit Arguments.

(* ================================================================== *)
(** * Properties of the string primitives                              *)
(* ================================================================== *)

Section Strings.

Lemma str_eqb_eq a b : str_eqb a b = true <-> a = b.
Proof.
  unfold str_eqb.
  destruct (list_eq_dec ascii_dec a b); split; auto; discriminate.
Qed.

Lemma str_eqb_refl a : str_eqb a a = true.
Proof. apply str_eqb_eq. reflexivity. Qed.

Lemma truthy_nonempty s : truthy s = true <-> s <> [].
Proof. destruct s; cbn; split; congruence. Qed.

Lemma terminator_not_ws c : isTerminator c = true -> isWhiteSpace c = false.
Proof.
  unfold isTerminator, isWhiteSpace. intros H.
  repeat (apply orb_prop in H as [H|H]); apply Nat.eqb_eq in H; rewrite H;
    reflexivity.
Qed.

Lemma SP_ws : isWhiteSpace SP = true.
Proof. reflexivity. Qed.

(** ** [trimStart], [trimEnd], [trim] *)

Lemma trimStart_app a b :
  trimStart (a ++ b) =
  if truthy (trimStart a) then trimStart a ++ b else trimStart b.
Proof.
  induction a as [|c a IH]; cbn [app trimStart truthy]; [reflexivity|].
  destruct (isWhiteSpace c); [exact IH|reflexivity].
Qed.

Lemma trimEnd_cons c r :
  trimEnd (c :: r) =
  if truthy (trimEnd r) then c :: trimEnd r
  else if isWhiteSpace c then [] else [c].
Proof. cbn [trimEnd]. destruct (trimEnd r); reflexivity. Qed.

Lemma trimEnd_app a b :
  trimEnd (a ++ b) =
  if truthy (trimEnd b) then a ++ trimEnd b else trimEnd a.
Proof.
  induction a as [|c a IH]; cbn [app].
  - destruct (trimEnd b); reflexivity.
  - rewrite !trimEnd_cons, IH. destruct (truthy (trimEnd b)) eqn:E.
    + destruct a; cbn [app truthy]; [rewrite E|]; reflexivity.
    + reflexivity.
Qed.

Lemma isBlank_trimStart s : isBlank s = true -> trimStart s = [].
Proof.
  induction s as [|c r IH]; cbn; [reflexivity|].
  destruct (isWhiteSpace c); cbn; [exact IH|discriminate].
Qed.

Lemma trimEnd_blank s : trimEnd s = [] <-> isBlank s = true.
Proof.
  induction s as [|c r IH]; [cbn; tauto|].
  rewrite trimEnd_cons. cbn [isBlank forallb].
  destruct (trimEnd r) as [|x y] eqn:E; cbn [truthy].
  - destruct (isWhiteSpace c); cbn [andb].
    + split; intros; [apply IH|]; reflexivity.
    + split; discriminate.
  - split; [discriminate|]. intros H. apply andb_prop in H as [_ H].
    apply IH in H. discriminate.
Qed.

Lemma trim_blank s : isBlank s = true -> trim s = [].
Proof. intros H. unfold trim. rewrite isBlank_trimStart; auto. Qed.

Lemma isBlank_app a b : isBlank (a ++ b) = isBlank a && isBlank b.
Proof. apply forallb_app. Qed.

Lemma trimStart_suffix s : exists w, isBlank w = true /\ s = w ++ trimStart s.
Proof.
  induction s as [|c r [w [Hw E]]]; [exists []; auto|].
  cbn [trimStart]. destruct (isWhiteSpace c) eqn:Ec.
  - exists (c :: w). unfold isBlank in *. cbn [forallb app].
    rewrite Ec, Hw. split; [reflexivity|congruence].
  - exists []. auto.
Qed.

Lemma trim_nonblank s : isBlank s = false -> trim s <> [].
Proof.
  intros H E. unfold trim in E. apply trimEnd_blank in E.
  destruct (trimStart_suffix s) as [w [Hw Es]].
  rewrite Es, isBlank_app, Hw, E in H. discriminate.
Qed.

Lemma trimEnd_prefix s : exists w, isBlank w = true /\ s = trimEnd s ++ w.
Proof.
  induction s as [|c r [w [Hw E]]]; [exists []; auto|].
  rewrite trimEnd_cons. destruct (trimEnd r) as [|x y] eqn:Er; cbn [truthy].
  - destruct (isWhiteSpace c) eqn:Ec.
    + exists (c :: r). split; [|reflexivity].
      apply trimEnd_blank. rewrite trimEnd_cons, Er, Ec. reflexivity.
    + exists w. split; [exact Hw|]. cbn [app] in *. congruence.
  - exists w. split; [exact Hw|]. cbn [app] in *. congruence.
Qed.

(** ** [lastIs] *)

Lemma lastIs_trimEnd : forall s prev,
  lastIs prev s = true -> (s = [] /\ prev = true) \/ (s <> [] /\ trimEnd s = s).
Proof.
  induction s as [|c r IH]; intros prev H; [left; auto|].
  right. split; [discriminate|]. cbn [lastIs] in H.
  rewrite trimEnd_cons. destruct (IH _ H) as [[-> Hc]|[Hr ->]].
  - cbn. rewrite (terminator_not_ws _ Hc). reflexivity.
  - destruct r; [congruence|reflexivity].
Qed.

Lemma ends_trimEnd s : endsWithTerminator s = true -> trimEnd s = s /\ s <> [].
Proof.
  intros H. destruct (lastIs_trimEnd _ _ H) as [[_ ?]|[? ?]]; [discriminate|auto].
Qed.

Lemma ends_trimStart : forall s,
  endsWithTerminator s = true -> endsWithTerminator (trimStart s) = true.
Proof.
  unfold endsWithTerminator.
  induction s as [|c r IH]; intros H; [exact H|].
  cbn [trimStart]. destruct (isWhiteSpace c) eqn:Ec; [|exact H].
  apply IH. cbn [lastIs] in H.
  destruct (isTerminator c) eqn:Et.
  - apply terminator_not_ws in Et. congruence.
  - exact H.
Qed.

(** ** [join] *)

Lemma join_cons sep x r :
  r <> [] -> join sep (x :: r) = x ++ sep ++ join sep r.
Proof. destruct r; [congruence|reflexivity]. Qed.

Lemma join_consHead sep c ps :
  ps <> [] -> join sep (consHead c ps) = c :: join sep ps.
Proof.
  destruct ps as [|p [|q r]]; [congruence| |]; reflexivity.
Qed.

Lemma join_truthy sep l :
  forallb truthy l = true -> join sep l = [] -> l = [].
Proof.
  destruct l as [|x r]; [reflexivity|]. cbn [forallb].
  intros H E. apply andb_prop in H as [Hx _]. destruct x; [discriminate|].
  destruct r; discriminate.
Qed.

Lemma consHead_nonempty c ps : consHead c ps <> [].
Proof. destruct ps; discriminate. Qed.

Lemma splitRuns_nonempty K : forall s armed inSep,
  splitRuns K armed inSep s <> [].
Proof.
  induction s as [|c r IH]; intros armed inSep; cbn [splitRuns]; [discriminate|].
  destruct (isWhiteSpace c && (armed || inSep)).
  - destruct inSep; [apply IH|discriminate].
  - apply consHead_nonempty.
Qed.

(** ** [startsWith] and [indexOf] *)

Lemma startsWith_app p : forall s,
  startsWith p s = true -> s = p ++ skipn (length p) s.
Proof.
  induction p as [|a p IH]; intros s H; [reflexivity|].
  destruct s as [|b s]; [discriminate|].
  cbn in H. apply andb_prop in H as [Hab Hp].
  apply Ascii.eqb_eq in Hab. subst b.
  cbn. f_equal. apply IH, Hp.
Qed.

Lemma indexOf_split p : forall s i,
  indexOf p s = Some i ->
  s = firstn i s ++ p ++ skipn (i + length p) s.
Proof.
  induction s as [|c s IH]; intros i H.
  - cbn in H. destruct (startsWith p []) eqn:E; [|discriminate].
    inversion H; subst. cbn. destruct p; [reflexivity|discriminate].
  - cbn [indexOf] in H. destruct (startsWith p (c :: s)) eqn:E.
    + inversion H; subst. cbn [firstn app Nat.add]. apply startsWith_app, E.
    + destruct (indexOf p s) as [j|] eqn:Ej; [|discriminate].
      cbn in H. inversion H; subst. cbn [firstn app Nat.add skipn].
      f_equal. apply IH. reflexivity.
Qed.

End Strings.

(* ================================================================== *)
(** * The text segmenter                                               *)
(* ================================================================== *)

Section Segmenter.

(** ** Shape of the pieces of the split *)

Lemma closedFrom_consHead c ps prev :
  closedFrom (isTerminator c) ps = true -> closedFrom prev (consHead c ps) = true.
Proof. destruct ps as [|p [|q r]]; intros H; [reflexivity|reflexivity|exact H]. Qed.

Lemma splitRuns_closed : forall s armed inSep,
  (inSep = true -> armed = false) ->
  closedFrom armed (splitRuns isTerminator armed inSep s) = true.
Proof.
  induction s as [|c r IH]; intros armed inSep Hx; [reflexivity|].
  cbn [splitRuns].
  destruct (isWhiteSpace c && (armed || inSep)) eqn:E.
  - destruct inSep.
    + rewrite (Hx eq_refl). apply IH. auto.
    + apply andb_prop in E as [_ E]. rewrite orb_false_r in E. subst armed.
      pose proof (splitRuns_nonempty isTerminator r false true) as Hne.
      pose proof (IH false true (fun _ => eq_refl)) as H.
      destruct (splitRuns isTerminator false true r); [congruence|].
      cbn [closedFrom lastIs andb]. exact H.
  - apply closedFrom_consHead, IH. discriminate.
Qed.

Lemma tl_consHead c ps : ps <> [] -> tl (consHead c ps) = tl ps.
Proof. destruct ps; [congruence|reflexivity]. Qed.

Lemma hd_consHead c ps : hd [] (consHead c ps) = c :: hd [] ps.
Proof. destruct ps; reflexivity. Qed.

Lemma splitRuns_noLead K : forall s armed inSep,
  Forall noLead (tl (splitRuns K armed inSep s)) /\
  (inSep = true -> noLead (hd [] (splitRuns K armed inSep s))).
Proof.
  induction s as [|c r IH]; intros armed inSep.
  - cbn. split; [constructor|reflexivity].
  - cbn [splitRuns]. destruct (isWhiteSpace c && (armed || inSep)) eqn:E.
    + destruct inSep.
      * apply IH.
      * split; [|discriminate]. cbn [tl].
        destruct (IH false true) as [Ht Hh].
        pose proof (splitRuns_nonempty K r false true) as Hne.
        destruct (splitRuns K false true r) as [|p ps]; [congruence|].
        constructor; [apply Hh; reflexivity|exact Ht].
    + destruct (IH (K c) false) as [Ht _].
      rewrite tl_consHead by apply splitRuns_nonempty.
      split; [exact Ht|]. intros ->. rewrite hd_consHead.
      rewrite orb_true_r, andb_true_r in E. unfold noLead. cbn. rewrite E.
      reflexivity.
Qed.

(** ** On collapsed text the separators are single SPACEs *)

Lemma collapseFrom_collapsed : forall s b,
  collapsedFrom b (collapseFrom b s) = true.
Proof.
  induction s as [|c r IH]; intros b; [reflexivity|].
  cbn [collapseFrom]. destruct (isWhiteSpace c) eqn:E.
  - destruct b; [apply IH|]. cbn [collapsedFrom]. rewrite SP_ws, IH. reflexivity.
  - cbn [collapsedFrom]. rewrite E. apply IH.
Qed.

Lemma collapsed_ws c r b :
  collapsedFrom b (c :: r) = true -> isWhiteSpace c = true ->
  c = SP /\ b = false /\ collapsedFrom true r = true.
Proof.
  cbn [collapsedFrom]. intros H E. rewrite E in H.
  apply andb_prop in H as [H H3]. apply andb_prop in H as [H1 H2].
  apply Ascii.eqb_eq in H1. destruct b; [discriminate|]. auto.
Qed.

Lemma collapsed_nonws c r b :
  collapsedFrom b (c :: r) = true -> isWhiteSpace c = false ->
  collapsedFrom false r = true.
Proof. cbn [collapsedFrom]. intros H E. rewrite E in H. exact H. Qed.

Lemma join_splitRuns_collapsed K : forall s armed inSep prevWs,
  collapsedFrom prevWs s = true ->
  (inSep = true -> prevWs = true) ->
  join [SP] (splitRuns K armed inSep s) = s.
Proof.
  induction s as [|c r IH]; intros armed inSep prevWs Hc Hx; [reflexivity|].
  cbn [splitRuns].
  destruct (isWhiteSpace c) eqn:Ec.
  - destruct (collapsed_ws _ _ _ Hc Ec) as [-> [-> Hr]]. cbn [andb].
    destruct inSep; [specialize (Hx eq_refl); discriminate|].
    rewrite orb_false_r. destruct armed.
    + rewrite join_cons by apply splitRuns_nonempty.
      cbn [app]. f_equal. apply (IH _ _ true); auto.
    + rewrite join_consHead by apply splitRuns_nonempty.
      f_equal. apply (IH _ _ true); [exact Hr|discriminate].
  - cbn [andb]. rewrite join_consHead by apply splitRuns_nonempty.
    f_equal. apply (IH _ _ false); [|discriminate].
    apply (collapsed_nonws _ _ _ Hc Ec).
Qed.

Lemma join_splitSentences text :
  join [SP] (splitSentences (collapseSpaces text)) = collapseSpaces text.
Proof.
  apply (join_splitRuns_collapsed _ _ _ _ false).
  - apply collapseFrom_collapsed.
  - discriminate.
Qed.

(** ** Trimming the pieces and dropping the empty ones loses only the
       surrounding white space *)

Lemma trim_noLead p : noLead p -> trim p = trimEnd p.
Proof. unfold trim, noLead. intros ->. reflexivity. Qed.

Lemma trim_closed_piece p :
  noLead p -> endsWithTerminator p = true -> trim p = p /\ truthy p = true.
Proof.
  intros Hn He. rewrite (trim_noLead _ Hn).
  destruct (ends_trimEnd _ He) as [-> Hne]. split; [reflexivity|].
  apply truthy_nonempty, Hne.
Qed.

Lemma filter_truthy_all l : forallb truthy (filter truthy l) = true.
Proof.
  induction l as [|x r IH]; [reflexivity|].
  cbn [filter]. destruct (truthy x) eqn:E; [|exact IH].
  cbn [forallb]. rewrite E, IH. reflexivity.
Qed.

(** A closed piece in front of trimmed pieces. *)
Lemma join_step p F J :
  endsWithTerminator p = true ->
  forallb truthy F = true ->
  join [SP] F = trimEnd J ->
  join [SP] (p :: F) = trimEnd (p ++ [SP] ++ J).
Proof.
  intros Hp HF HJ. destruct (ends_trimEnd _ Hp) as [Ep Hne].
  rewrite trimEnd_app. cbn [app]. rewrite trimEnd_cons, <- HJ.
  destruct F as [|f F'].
  - cbn [join truthy]. rewrite SP_ws. cbn [truthy]. symmetry. exact Ep.
  - assert (Hj : truthy (join [SP] (f :: F')) = true).
    { apply truthy_nonempty. intros E. apply join_truthy in E; [discriminate|exact HF]. }
    rewrite Hj. cbn [truthy]. rewrite join_cons by discriminate. reflexivity.
Qed.

Lemma closedFrom_cons prev p q r :
  closedFrom prev (p :: q :: r) = true ->
  lastIs prev p = true /\ closedFrom false (q :: r) = true.
Proof. cbn [closedFrom]. intros H. apply andb_prop in H. exact H. Qed.

Lemma join_trimmed_tail : forall R,
  R <> [] -> closedFrom false R = true -> Forall noLead R ->
  join [SP] (filter truthy (map trim R)) = trimEnd (join [SP] R).
Proof.
  induction R as [|q R' IH]; intros Hne Hc Hn; [congruence|].
  inversion Hn as [|? ? Hq Hn']; subst.
  destruct R' as [|q' R''].
  - cbn [map filter join]. rewrite (trim_noLead _ Hq).
    destruct (trimEnd q) eqn:E; reflexivity.
  - apply closedFrom_cons in Hc as [Hl Hc].
    destruct (trim_closed_piece _ Hq Hl) as [Et Ht].
    rewrite map_cons. cbn [filter]. rewrite Et, Ht.
    rewrite (join_cons [SP] q (q' :: R'')) by discriminate.
    apply join_step; [exact Hl|apply filter_truthy_all|].
    apply IH; [discriminate|exact Hc|exact Hn'].
Qed.

Lemma join_trimmed : forall P,
  P <> [] -> closedFrom false P = true -> Forall noLead (tl P) ->
  join [SP] (filter truthy (map trim P)) = trim (join [SP] P).
Proof.
  intros [|p R] Hne Hc Hn; [congruence|]. cbn [tl] in Hn.
  destruct R as [|q R'].
  - cbn [map filter join]. destruct (trim p) eqn:E; reflexivity.
  - apply closedFrom_cons in Hc as [Hl Hc].
    pose proof (ends_trimStart _ Hl) as Hl'.
    destruct (ends_trimEnd _ Hl') as [Ee Hne'].
    rewrite map_cons. cbn [filter]. unfold trim at 1 2. rewrite Ee.
    apply truthy_nonempty in Hne'. rewrite Hne'.
    rewrite (join_cons [SP] p (q :: R')) by discriminate.
    unfold trim. rewrite trimStart_app, Hne'.
    apply join_step; [exact Hl'|apply filter_truthy_all|].
    apply join_trimmed_tail; [discriminate|exact Hc|exact Hn].
Qed.

Lemma join_segment text :
  join [SP] (segment text) = trim (collapseSpaces text).
Proof.
  unfold segment. rewrite join_trimmed.
  - rewrite join_splitSentences. reflexivity.
  - apply splitRuns_nonempty.
  - apply splitRuns_closed. discriminate.
  - apply splitRuns_noLead.
Qed.

(** ** Text without a boundary *)

Lemma hasBoundary_cons c r :
  hasBoundary (c :: r) = (isTerminator c && startsWs r) || hasBoundary r.
Proof. destruct r; [rewrite andb_false_r|]; reflexivity. Qed.

Lemma startsWs_collapse s b :
  startsWs (collapseFrom b s) = true -> startsWs s = true.
Proof.
  revert b. induction s as [|c r IH]; intros b; [auto|].
  cbn [collapseFrom startsWs]. destruct (isWhiteSpace c) eqn:E; [auto|].
  cbn [startsWs]. congruence.
Qed.

Lemma hasBoundary_collapseFrom : forall s b,
  hasBoundary s = false -> hasBoundary (collapseFrom b s) = false.
Proof.
  induction s as [|c r IH]; intros b H; [reflexivity|].
  rewrite hasBoundary_cons in H. apply orb_false_elim in H as [H1 H2].
  cbn [collapseFrom]. destruct (isWhiteSpace c) eqn:E.
  - destruct b; [apply IH, H2|].
    rewrite hasBoundary_cons. rewrite (IH _ H2). reflexivity.
  - rewrite hasBoundary_cons, (IH _ H2), orb_false_r.
    destruct (isTerminator c); [|reflexivity]. cbn [andb] in *.
    destruct (startsWs (collapseFrom false r)) eqn:Es; [|reflexivity].
    apply startsWs_collapse in Es. congruence.
Qed.

Lemma splitRuns_no_boundary : forall s armed,
  hasBoundary s = false -> (armed = true -> startsWs s = false) ->
  splitRuns isTerminator armed false s = [s].
Proof.
  induction s as [|c r IH]; intros armed H Ha; [reflexivity|].
  rewrite hasBoundary_cons in H. apply orb_false_elim in H as [H1 H2].
  cbn [splitRuns]. rewrite orb_false_r.
  assert (E : isWhiteSpace c && armed = false).
  { destruct armed; [|apply andb_false_r]. rewrite andb_true_r.
    apply Ha. reflexivity. }
  rewrite E, IH; [reflexivity|exact H2|].
  intros Et. rewrite Et in H1. exact H1.
Qed.

Lemma isBlank_collapseFrom : forall s b,
  isBlank (collapseFrom b s) = isBlank s.
Proof.
  unfold isBlank.
  induction s as [|c r IH]; intros b; [reflexivity|].
  cbn [collapseFrom forallb]. destruct (isWhiteSpace c) eqn:E.
  - destruct b; cbn [forallb andb]; [|rewrite SP_ws]; apply IH.
  - cbn [forallb]. rewrite E. reflexivity.
Qed.

Lemma segment_no_boundary text :
  isBlank text = false -> hasBoundary text = false ->
  segment text = [trim (collapseSpaces text)].
Proof.
  intros Hb Hn. unfold segment, splitSentences.
  rewrite splitRuns_no_boundary.
  - cbn [map filter].
    assert (H : truthy (trim (collapseSpaces text)) = true).
    { apply truthy_nonempty, trim_nonblank.
      unfold collapseSpaces. rewrite isBlank_collapseFrom. exact Hb. }
    rewrite H. reflexivity.
  - apply hasBoundary_collapseFrom, Hn.
  - discriminate.
Qed.

Lemma segment_blank text : isBlank text = true -> segment text = [].
Proof.
  intros Hb. apply (join_truthy [SP]).
  - apply filter_truthy_all.
  - rewrite join_segment. apply trim_blank.
    unfold collapseSpaces. rewrite isBlank_collapseFrom. exact Hb.
Qed.

Lemma segment_nonblank text : isBlank text = false -> segment text <> [].
Proof.
  intros Hb E. pose proof (join_segment text) as H. rewrite E in H.
  symmetry in H. revert H. apply trim_nonblank.
  unfold collapseSpaces. rewrite isBlank_collapseFrom. exact Hb.
Qed.

(** ** Every sentence is tidy and holds no boundary *)

Lemma splitRuns_pieces_no_boundary : forall s armed inSep,
  (inSep = true -> armed = false) ->
  Forall (fun p => hasBoundary p = false) (splitRuns isTerminator armed inSep s)
  /\ (armed = true ->
      startsWs (hd [] (splitRuns isTerminator armed inSep s)) = false).
Proof.
  induction s as [|c r IH]; intros armed inSep Hx.
  - cbn. split; [repeat constructor|reflexivity].
  - cbn [splitRuns]. destruct (isWhiteSpace c && (armed || inSep)) eqn:E.
    + destruct inSep.
      * rewrite (Hx eq_refl). split; [|discriminate]. apply IH. auto.
      * split; [|reflexivity]. constructor; [reflexivity|].
        apply IH. auto.
    + destruct (IH (isTerminator c) false) as [Hf Hh]; [discriminate|].
      pose proof (splitRuns_nonempty isTerminator r (isTerminator c) false) as Hne.
      destruct (splitRuns isTerminator (isTerminator c) false r) as [|p ps];
        [congruence|].
      cbn [consHead hd] in *. inversion Hf; subst. split.
      * constructor; [|assumption]. rewrite hasBoundary_cons.
        destruct (isTerminator c); cbn [andb orb]; [rewrite Hh|]; auto.
      * intros ->. cbn [startsWs]. cbn [orb] in E. rewrite andb_true_r in E.
        exact E.
Qed.

Lemma collapsedFrom_weaken s : collapsedFrom true s = true -> collapsedFrom false s = true.
Proof.
  destruct s as [|c r]; [auto|]. cbn [collapsedFrom].
  destruct (isWhiteSpace c); [|auto]. rewrite andb_false_r. discriminate.
Qed.

Lemma splitRuns_pieces_collapsed K : forall s armed inSep b,
  collapsedFrom b s = true -> (inSep = true -> b = true) ->
  Forall (fun p => collapsedFrom false p = true) (tl (splitRuns K armed inSep s))
  /\ collapsedFrom b (hd [] (splitRuns K armed inSep s)) = true.
Proof.
  induction s as [|c r IH]; intros armed inSep b Hc Hx.
  - cbn. split; [constructor|reflexivity].
  - cbn [splitRuns]. destruct (isWhiteSpace c) eqn:Ec.
    + destruct (collapsed_ws _ _ _ Hc Ec) as [-> [-> Hr]]. cbn [andb].
      destruct inSep; [specialize (Hx eq_refl); discriminate|].
      rewrite orb_false_r. destruct armed.
      * cbn [tl hd]. split; [|reflexivity].
        destruct (IH false true true Hr) as [Ht Hh]; [auto|].
        pose proof (splitRuns_nonempty K r false true) as Hne.
        destruct (splitRuns K false true r) as [|p ps]; [congruence|].
        cbn [tl hd] in *. constructor; [apply collapsedFrom_weaken, Hh|exact Ht].
      * destruct (IH (K SP) false true Hr) as [Ht Hh]; [discriminate|].
        rewrite tl_consHead by apply splitRuns_nonempty.
        rewrite hd_consHead. split; [exact Ht|].
        cbn [collapsedFrom]. rewrite SP_ws, Hh. reflexivity.
    + cbn [andb].
      destruct (IH (K c) false false (collapsed_nonws _ _ _ Hc Ec)) as [Ht Hh];
        [discriminate|].
      rewrite tl_consHead by apply splitRuns_nonempty.
      rewrite hd_consHead. split; [exact Ht|].
      cbn [collapsedFrom]. rewrite Ec. exact Hh.
Qed.

Lemma collapsed_trimStart : forall p b,
  collapsedFrom b p = true -> collapsedFrom true (trimStart p) = true.
Proof.
  induction p as [|c r IH]; intros b H; [reflexivity|].
  cbn [trimStart]. destruct (isWhiteSpace c) eqn:E.
  - destruct (collapsed_ws _ _ _ H E) as [_ [_ Hr]]. apply (IH _ Hr).
  - cbn [collapsedFrom]. rewrite E. apply (collapsed_nonws _ _ _ H E).
Qed.

Lemma tidyFrom_cons b c r :
  tidyFrom b (c :: r) =
  if isWhiteSpace c then Ascii.eqb c SP && negb b && tidyFrom true r
  else tidyFrom false r.
Proof. reflexivity. Qed.

Lemma tidy_trimEnd : forall q b,
  collapsedFrom b q = true -> trimEnd q <> [] -> tidyFrom b (trimEnd q) = true.
Proof.
  induction q as [|c r IH]; intros b H Hne; [cbn in Hne; congruence|].
  rewrite trimEnd_cons in *. destruct (trimEnd r) as [|x y] eqn:Er; cbn [truthy] in *.
  - destruct (isWhiteSpace c) eqn:E; [congruence|].
    cbn [tidyFrom]. rewrite E. reflexivity.
  - rewrite tidyFrom_cons. destruct (isWhiteSpace c) eqn:E.
    + destruct (collapsed_ws _ _ _ H E) as [-> [-> Hr]].
      rewrite (IH true Hr); [reflexivity|discriminate].
    + apply IH; [apply (collapsed_nonws _ _ _ H E)|discriminate].
Qed.

Lemma tidy_trim p b :
  collapsedFrom b p = true -> trim p <> [] -> tidy (trim p) = true.
Proof.
  intros H Hne. unfold tidy, trim in *.
  apply tidy_trimEnd; [|exact Hne]. apply (collapsed_trimStart _ _ H).
Qed.

Lemma startsWs_app a b : startsWs a = true -> startsWs (a ++ b) = true.
Proof. destruct a; [discriminate|auto]. Qed.

Lemma hasBoundary_app a : forall b,
  hasBoundary (a ++ b) = false -> hasBoundary a = false /\ hasBoundary b = false.
Proof.
  induction a as [|c a IH]; intros b H; [auto|].
  cbn [app] in H. rewrite hasBoundary_cons in *.
  apply orb_false_elim in H as [H1 H2]. destruct (IH _ H2) as [Ha Hb].
  split; [|exact Hb]. rewrite Ha, orb_false_r.
  destruct (isTerminator c); [|reflexivity]. cbn [andb] in *.
  destruct (startsWs a) eqn:E; [|reflexivity].
  rewrite (startsWs_app _ b E) in H1. discriminate.
Qed.

Lemma hasBoundary_trim p : hasBoundary p = false -> hasBoundary (trim p) = false.
Proof.
  intros H. unfold trim.
  destruct (trimStart_suffix p) as [w [_ E]]. rewrite E in H.
  apply hasBoundary_app in H as [_ H].
  destruct (trimEnd_prefix (trimStart p)) as [w' [_ E']]. rewrite E' in H.
  apply hasBoundary_app in H as [H _]. exact H.
Qed.

Lemma segment_sentences text :
  Forall (fun s => tidy s = true /\ hasBoundary s = false) (segment text).
Proof.
  apply Forall_forall. intros s Hs. unfold segment in Hs.
  apply filter_In in Hs as [Hs Ht]. apply in_map_iff in Hs as [p [<- Hp]].
  apply truthy_nonempty in Ht. unfold splitSentences in Hp.
  destruct (splitRuns_pieces_no_boundary (collapseSpaces text) false false)
    as [Hb _]; [discriminate|].
  destruct (splitRuns_pieces_collapsed isTerminator (collapseSpaces text)
              false false false) as [Hc Hh];
    [apply collapseFrom_collapsed|discriminate|].
  rewrite Forall_forall in Hb, Hc. split.
  - pose proof (splitRuns_nonempty isTerminator (collapseSpaces text) false false).
    destruct (splitRuns isTerminator false false (collapseSpaces text))
      as [|p0 ps]; [contradiction|].
    cbn [hd tl] in *. destruct Hp as [->|Hp].
    + apply (tidy_trim _ false); assumption.
    + apply (tidy_trim _ false); [apply Hc|]; assumption.
  - apply hasBoundary_trim, Hb, Hp.
Qed.

(** ** Every sentence but the last ends with a terminator *)

Lemma allButLast_cons Q x r :
  r <> [] -> allButLast Q (x :: r) = Q x && allButLast Q r.
Proof. destruct r; [congruence|reflexivity]. Qed.

Lemma closed_trimmed : forall L,
  closedFrom false L = true ->
  allButLast endsWithTerminator (filter truthy (map trim L)) = true.
Proof.
  induction L as [|p R IH]; intros H; [reflexivity|].
  destruct R as [|q R'].
  - cbn [map filter]. destruct (truthy (trim p)); reflexivity.
  - apply closedFrom_cons in H as [Hl Hc].
    pose proof (ends_trimStart _ Hl) as Hl'.
    destruct (ends_trimEnd _ Hl') as [Ee Hne].
    rewrite map_cons. cbn [filter]. unfold trim at 1 2. rewrite Ee.
    apply truthy_nonempty in Hne. rewrite Hne.
    specialize (IH Hc).
    destruct (filter truthy (map trim (q :: R'))) as [|f F]; [reflexivity|].
    rewrite allButLast_cons by discriminate.
    rewrite IH, andb_true_r. exact Hl'.
Qed.

Lemma segment_closed text :
  allButLast endsWithTerminator (segment text) = true.
Proof. apply closed_trimmed, splitRuns_closed. discriminate. Qed.

(** ** In a tidy string the SPACE-separated pieces are the words *)

Lemma isSpaceChar_ws c : isSpaceChar c = true -> isWhiteSpace c = true.
Proof. unfold isSpaceChar. intros H. apply Ascii.eqb_eq in H. subst. reflexivity. Qed.

Lemma tidy_ws c r b :
  tidyFrom b (c :: r) = true -> isWhiteSpace c = true ->
  c = SP /\ b = false /\ tidyFrom true r = true.
Proof.
  cbn [tidyFrom]. intros H E. rewrite E in H.
  apply andb_prop in H as [H H3]. apply andb_prop in H as [H1 H2].
  apply Ascii.eqb_eq in H1. destruct b; [discriminate|]. auto.
Qed.

Lemma tidy_nonws c r b :
  tidyFrom b (c :: r) = true -> isWhiteSpace c = false ->
  tidyFrom false r = true.
Proof. cbn [tidyFrom]. intros H E. rewrite E in H. exact H. Qed.

Lemma splitWs_tidy : forall s b inSep,
  tidyFrom b s = true -> (inSep = true -> b = true) ->
  splitWs inSep s = splitOn isSpaceChar s.
Proof.
  induction s as [|c r IH]; intros b inSep H Hx; [reflexivity|].
  cbn [splitWs splitOn]. destruct (isWhiteSpace c) eqn:E.
  - destruct (tidy_ws _ _ _ H E) as [-> [-> Hr]].
    destruct inSep; [specialize (Hx eq_refl); discriminate|].
    cbn. f_equal. apply (IH true); auto.
  - destruct (isSpaceChar c) eqn:Es;
      [apply isSpaceChar_ws in Es; congruence|].
    f_equal. apply (IH false); [apply (tidy_nonws _ _ _ H E)|discriminate].
Qed.

Lemma splitOn_nonempty sep s : splitOn sep s <> [].
Proof.
  destruct s as [|c r]; cbn; [discriminate|].
  destruct (sep c); [discriminate|apply consHead_nonempty].
Qed.

Lemma splitOn_tidy_truthy : forall s b,
  tidyFrom b s = true ->
  forallb truthy (tl (splitOn isSpaceChar s)) = true /\
  (b = true -> truthy (hd [] (splitOn isSpaceChar s)) = true).
Proof.
  induction s as [|c r IH]; intros b H.
  - cbn in *. split; [reflexivity|]. intros ->. discriminate.
  - cbn [splitOn]. destruct (isWhiteSpace c) eqn:E.
    + destruct (tidy_ws _ _ _ H E) as [-> [-> Hr]].
      cbn. split; [|discriminate]. destruct (IH true Hr) as [Ht Hh].
      pose proof (splitOn_nonempty isSpaceChar r) as Hne.
      destruct (splitOn isSpaceChar r); [congruence|].
      cbn [forallb tl hd] in *. rewrite Ht, Hh; reflexivity.
    + destruct (isSpaceChar c) eqn:Es;
        [apply isSpaceChar_ws in Es; congruence|].
      destruct (IH false (tidy_nonws _ _ _ H E)) as [Ht _].
      rewrite tl_consHead by apply splitOn_nonempty.
      rewrite hd_consHead. split; [exact Ht|reflexivity].
Qed.

Lemma filter_all {A} (f : A -> bool) l : forallb f l = true -> filter f l = l.
Proof.
  induction l as [|x r IH]; cbn; [reflexivity|]. intros H.
  apply andb_prop in H as [Hx Hr]. rewrite Hx, IH; auto.
Qed.

Lemma tidy_tokens s :
  tidy s = true -> tokens s = splitOn isSpaceChar s.
Proof.
  intros H. unfold tokens, splitWhitespace.
  rewrite (splitWs_tidy s true false H) by discriminate.
  apply filter_all. destruct (splitOn_tidy_truthy s true H) as [Ht Hh].
  pose proof (splitOn_nonempty isSpaceChar s) as Hne.
  destruct (splitOn isSpaceChar s); [congruence|].
  cbn [forallb tl hd] in *. rewrite Ht, Hh; reflexivity.
Qed.

Lemma tidy_collapsed : forall s b, tidyFrom b s = true -> collapseFrom b s = s.
Proof.
  induction s as [|c r IH]; intros b H; [reflexivity|].
  cbn [collapseFrom]. destruct (isWhiteSpace c) eqn:E.
  - destruct (tidy_ws _ _ _ H E) as [-> [-> Hr]]. f_equal. apply IH, Hr.
  - f_equal. apply IH, (tidy_nonws _ _ _ H E).
Qed.

Lemma tidy_trimStart s : tidy s = true -> trimStart s = s.
Proof.
  destruct s as [|c r]; [reflexivity|]. unfold tidy. cbn [tidyFrom trimStart].
  destruct (isWhiteSpace c); [|reflexivity]. rewrite andb_false_r. discriminate.
Qed.

Lemma tidy_trimEnd_id : forall s b, tidyFrom b s = true -> trimEnd s = s.
Proof.
  induction s as [|c r IH]; intros b H; [reflexivity|].
  rewrite trimEnd_cons. destruct (isWhiteSpace c) eqn:E.
  - destruct (tidy_ws _ _ _ H E) as [-> [-> Hr]].
    rewrite (IH _ Hr). destruct r; [discriminate|reflexivity].
  - pose proof (tidy_nonws _ _ _ H E) as Hr. rewrite (IH _ Hr).
    destruct r; reflexivity.
Qed.

Lemma tidy_fixed s :
  tidy s = true -> s <> [] /\ trim s = s /\ collapseSpaces s = s.
Proof.
  intros H. split; [intros ->; discriminate|]. split.
  - unfold trim. rewrite (tidy_trimStart _ H). apply (tidy_trimEnd_id _ _ H).
  - unfold collapseSpaces.
    destruct s as [|c r]; [reflexivity|]. unfold tidy in H.
    cbn [collapseFrom]. destruct (isWhiteSpace c) eqn:E.
    + destruct (tidy_ws _ _ _ H E) as [_ [? _]]. discriminate.
    + f_equal. apply tidy_collapsed, (tidy_nonws _ _ _ H E).
Qed.

Lemma raw_is_compose_shared sents maxBullets maxHighlights :
  raw (summarizeSentences sents maxBullets maxHighlights) =
  compose (bullets (summarizeSentences sents maxBullets maxHighlights))
          (Shared.highlights (summarizeSentences sents maxBullets maxHighlights)).
Proof. reflexivity. Qed.

End Segmenter.

(* ================================================================== *)
(** * Statement about the text segmenter                               *)
(* ================================================================== *)

(** [C3], as the spec states it, fails: the text of two SPACEs holds no
    boundary, yet it yields no sentence, where one sentence, the trimmed
    text, is announced. *)
Lemma blank_text_has_no_sentence :
  hasBoundary (lit "  ") = false
  /\ segment (lit "  ") = []
  /\ segment (lit "  ") <> [trim (lit "  ")].
Proof. repeat split. discriminate. Qed.

(** [C3] (amended).  The segmenter collapses every run of white space
    into one SPACE, splits after [.], [!] or [?] followed by white space,
    trims the pieces and drops the empty ones.  Hence: the sentences
    joined by single SPACEs are the collapsed, trimmed text; every
    sentence is non-empty, without white space around it, with single
    SPACEs inside, and holds no boundary; every sentence but the last ends
    with [.], [!] or [?].  Text that is not blank and holds no boundary
    yields exactly one sentence, the collapsed and trimmed text; blank
    text, the empty text included, yields no sentence. *)
Theorem segment_characterised (text : list ascii) :
  segment text
    = filter truthy (map trim (splitSentences (collapseSpaces text)))
  /\ join [SP] (segment text) = trim (collapseSpaces text)
  /\ Forall (fun s => tidy s = true /\ hasBoundary s = false) (segment text)
  /\ (forall s, In s (segment text) ->
        s <> [] /\ trim s = s /\ collapseSpaces s = s)
  /\ allButLast endsWithTerminator (segment text) = true
  /\ (isBlank text = false -> hasBoundary text = false ->
        segment text = [trim (collapseSpaces text)])
  /\ (isBlank text = true -> segment text = [])
  /\ segment [] = [].
Proof.
  split; [reflexivity|].
  split; [apply join_segment|].
  split; [apply segment_sentences|].
  split.
  { intros s Hs. apply tidy_fixed.
    pose proof (segment_sentences text) as F. rewrite Forall_forall in F.
    apply (F s Hs). }
  split; [apply segment_closed|].
  split; [apply segment_no_boundary|].
  split; [apply segment_blank|reflexivity].
Qed.

Lemma segment_characterised_witness :
  segment (lit "  Plain   text without a stop ")
    = [lit "Plain text without a stop"]
  /\ segment (lit "   ") = [].
Proof.
  split.
  - rewrite (proj1 (proj2 (proj2 (proj2 (proj2 (proj2
               (segment_characterised (lit "  Plain   text without a stop ")))))))).
    + reflexivity.
    + reflexivity.
    + reflexivity.
  - apply (proj1 (proj2 (proj2 (proj2 (proj2 (proj2 (proj2
               (segment_characterised (lit "   "))))))))).
    reflexivity.
Defined.

(* ================================================================== *)
(** * Frequency scorer and summary composer                            *)
(* ================================================================== *)

Section Scorer.

Lemma collectHighlights_bound bullets maxHighlights : forall scored hl,
  length hl <= maxHighlights ->
  length (collectHighlights bullets maxHighlights scored hl) <= maxHighlights.
Proof.
  induction scored as [|item rest IH]; intros hl H; [exact H|].
  cbn [collectHighlights].
  destruct (maxHighlights <=? length hl) eqn:E; [exact H|].
  apply Nat.leb_gt in E.
  destruct (arrayIncludes bullets (fst item)); [apply IH, H|].
  destruct (length (splitOn isSpaceChar (fst item)) <? 6); [apply IH, H|].
  apply IH. rewrite length_app. cbn. lia.
Qed.

Lemma padHighlights_length : forall n bullets hl,
  length (padHighlights n bullets hl) = length hl + n.
Proof.
  induction n as [|k IH]; intros bullets hl; cbn [padHighlights]; [lia|].
  rewrite IH, length_app. cbn. lia.
Qed.

Lemma summarizeSentences_bounds sents maxBullets maxHighlights :
  length (bullets (summarizeSentences sents maxBullets maxHighlights))
    <= maxBullets /\
  length (Shared.highlights (summarizeSentences sents maxBullets maxHighlights))
    <= maxHighlights.
Proof.
  unfold summarizeSentences. cbn [bullets Shared.highlights]. split.
  - rewrite length_map. apply firstn_le_length.
  - rewrite padHighlights_length.
    match goal with
    | |- length (collectHighlights ?b ?m ?s []) + _ <= _ =>
        pose proof (collectHighlights_bound b m s [] (Nat.le_0_l _))
    end.
    lia.
Qed.

Lemma summarizeText_bounds raw maxBullets maxHighlights :
  length (bullets (ContentScript.summarizeText raw maxBullets maxHighlights))
    <= maxBullets /\
  length (Shared.highlights (ContentScript.summarizeText raw maxBullets maxHighlights))
    <= maxHighlights.
Proof.
  unfold ContentScript.summarizeText.
  destruct (negb (truthy raw)); [cbn; lia|].
  destruct (length (segment raw) =? 0); [cbn; lia|].
  apply summarizeSentences_bounds.
Qed.

(** [C2], as the spec states it, fails on the parsers of model output:
    five bullet lines come back as five bullets, from the parser of the
    content script and from the parser of the popup. *)
Lemma parsed_bullets_exceed_four :
  let rawText := compose (map lit ["a"; "b"; "c"; "d"; "e"]%string) [] in
  4 < length (fst (ContentScript.parseSummary rawText)) /\
  4 < length (fst (Popup.parseSummary rawText)).
Proof. vm_compute. split; repeat constructor. Qed.

(** [C2] (amended).  The extractive summarizer returns at most
    [maxBullets] bullets and at most [maxHighlights] highlights, hence at
    most 4 and 4 with the defaults; the summary of mock mode has 4
    bullets and 3 highlights.  From raw model text both parsers keep at
    most 5 highlights, and the popup keeps at most 6 bullets. *)
Theorem summary_bounds (text rawText : list ascii) (maxBullets maxHighlights : nat) :
  length (bullets (ContentScript.summarizeText text maxBullets maxHighlights))
    <= maxBullets
  /\ length (Shared.highlights (ContentScript.summarizeText text maxBullets maxHighlights))
    <= maxHighlights
  /\ length (bullets (ContentScript.summarizeText text 4 4)) <= 4
  /\ length (Shared.highlights (ContentScript.summarizeText text 4 4)) <= 5
  /\ length (bullets ContentScript.fake) <= 4
  /\ length (Shared.highlights ContentScript.fake) <= 5
  /\ length (snd (ContentScript.parseSummary rawText)) <= 5
  /\ length (snd (Popup.parseSummary rawText)) <= 5
  /\ length (fst (Popup.parseSummary rawText)) <= 6.
Proof.
  destruct (summarizeText_bounds text maxBullets maxHighlights) as [Hb Hh].
  destruct (summarizeText_bounds text 4 4) as [Hb4 Hh4].
  repeat split; try assumption; try lia; try (cbn; lia);
    unfold ContentScript.parseSummary, Popup.parseSummary; cbn [fst snd];
    apply firstn_le_length.
Qed.

(** [C9], as the spec states it, fails in its reason: the score of
    "Cats are mammals." is 3, the score of "Birds can fly." and of
    "Fish live in water." is 3 as well, so it is not above them. *)
Lemma cats_not_above_birds :
  let f := buildFreqs (segment menagerie) in
  ~ (sentenceScore f (lit "Birds can fly.")
       < sentenceScore f (lit "Cats are mammals."))
  /\ ~ (sentenceScore f (lit "Fish live in water.")
       < sentenceScore f (lit "Cats are mammals.")).
Proof. vm_compute. split; intros H; repeat (apply le_S_n in H); inversion H. Qed.

(** [C9] (amended).  On the four sentences with [maxBullets = 2] the scores
    are 3, 4, 3, 3; the bullets are "Dogs are mammals too." then
    "Cats are mammals.", the latter chosen among the three sentences of
    score 3 because the sort is stable. *)
Theorem menagerie_bullets :
  segment menagerie =
    map lit ["Cats are mammals."; "Dogs are mammals too."; "Birds can fly.";
             "Fish live in water."]%string
  /\ map snd (scoreAll (segment menagerie)) = [3; 4; 3; 3]
  /\ bullets (ContentScript.summarizeText menagerie 2 4) =
       map lit ["Dogs are mammals too."; "Cats are mammals."]%string
  /\ fst (ContentScript.parseSummary
            (Background.extractiveSummarize menagerie 2 4)) =
       map lit ["Dogs are mammals too."; "Cats are mammals."]%string.
Proof. vm_compute. repeat split. Qed.

End Scorer.

(* ================================================================== *)
(** * Question matcher                                                 *)
(* ================================================================== *)

Section Sorting.

Context {A : Type} (score : A -> nat).

Lemma insertDesc_In x : forall l y,
  In y (insertDesc score x l) <-> y = x \/ In y l.
Proof.
  induction l as [|z r IH]; intros y; cbn [insertDesc].
  - cbn. intuition.
  - destruct (score x <? score z); cbn; [rewrite IH|]; intuition.
Qed.

Lemma sortDesc_In : forall l y, In y (sortDesc score l) <-> In y l.
Proof.
  induction l as [|x r IH]; intros y; cbn [sortDesc]; [tauto|].
  rewrite insertDesc_In, IH. cbn. intuition.
Qed.

Lemma sortDesc_nil l : sortDesc score l = [] -> l = [].
Proof.
  destruct l as [|x r]; [reflexivity|]. cbn [sortDesc]. intros H.
  destruct (sortDesc score r) as [|z t]; cbn [insertDesc] in H.
  - discriminate H.
  - destruct (score x <? score z); discriminate H.
Qed.

(** The head of the sorted list is the first element of greatest score. *)
Lemma sortDesc_head : forall l best,
  nth_error (sortDesc score l) 0 = Some best ->
  exists i,
    nth_error l i = Some best /\
    (forall y, In y l -> score y <= score best) /\
    (forall j y, j < i -> nth_error l j = Some y -> score y < score best).
Proof.
  induction l as [|x r IH]; intros best H; [discriminate|].
  cbn [sortDesc] in H.
  destruct (sortDesc score r) as [|b t] eqn:E.
  - apply sortDesc_nil in E. subst r. cbn in H. inversion H; subst.
    exists 0. split; [reflexivity|]. split.
    + intros y [->|[]]. lia.
    + intros j y Hj. lia.
  - destruct (IH b eq_refl) as [i [Hi [Hmax Hlt]]].
    cbn [insertDesc] in H. destruct (score x <? score b) eqn:Ex.
    + apply Nat.ltb_lt in Ex. cbn in H. inversion H; subst.
      exists (S i). split; [exact Hi|]. split.
      * intros y [->|Hy]; [lia|apply Hmax, Hy].
      * intros [|j] y Hj Hy; cbn in Hy.
        -- inversion Hy; subst. exact Ex.
        -- apply (Hlt j); [lia|exact Hy].
    + apply Nat.ltb_ge in Ex. cbn in H. inversion H; subst.
      exists 0. split; [reflexivity|]. split.
      * intros y [->|Hy]; [lia|]. specialize (Hmax y Hy). lia.
      * intros j y Hj. lia.
Qed.

End Sorting.

Section Matcher.

Lemma startsWith_prefix p s :
  startsWith p s = true <-> exists post, s = p ++ post.
Proof.
  split.
  - intros H. exists (skipn (length p) s). apply startsWith_app, H.
  - intros [post ->]. induction p as [|a p IH]; [reflexivity|].
    cbn. rewrite Ascii.eqb_refl. exact IH.
Qed.

Lemma indexOf_none p : forall s pre post,
  indexOf p s = None -> s <> pre ++ p ++ post.
Proof.
  induction s as [|c s IH]; intros pre post H E.
  - destruct pre; [|discriminate]. destruct p; [discriminate|discriminate].
  - cbn [indexOf] in H. destruct (startsWith p (c :: s)) eqn:Es; [discriminate|].
    destruct pre as [|a pre].
    + cbn [app] in E.
      assert (startsWith p (c :: s) = true)
        by (apply startsWith_prefix; exists post; exact E).
      congruence.
    + cbn [app] in E. inversion E; subst.
      destruct (indexOf p (pre ++ p ++ post)) eqn:Ei; [discriminate|].
      apply (IH pre post eq_refl). reflexivity.
Qed.

(** [s.includes(w)] tells that [w] occurs in [s] as a substring. *)
Lemma includes_substring s w :
  includes s w = true <-> exists pre post, s = pre ++ w ++ post.
Proof.
  unfold includes. destruct (indexOf w s) as [i|] eqn:E.
  - split; [|reflexivity]. intros _. apply indexOf_split in E.
    exists (firstn i s), (skipn (i + length w) s). exact E.
  - split; [discriminate|]. intros [pre [post H]].
    exfalso. apply (indexOf_none _ _ _ _ E H).
Qed.

Lemma matchScore_from qWords lw : forall n,
  fold_left (fun score w => if includes lw w then score + 1 else score) qWords n
  = n + length (filter (fun w => includes lw w) qWords).
Proof.
  induction qWords as [|w r IH]; intros n; cbn [fold_left filter]; [cbn; lia|].
  rewrite IH. destruct (includes lw w); cbn [length]; lia.
Qed.

Lemma matchScore_count qWords s :
  matchScore qWords s =
  length (filter (fun w => includes (toLowerCase s) w) qWords).
Proof. unfold matchScore. rewrite matchScore_from. reflexivity. Qed.

Lemma filter_filter_implied {T} (p q : T -> bool) l :
  (forall x, p x = true -> q x = true) ->
  filter p (filter q l) = filter p l.
Proof.
  intros H. induction l as [|x r IH]; [reflexivity|]. cbn [filter].
  destruct (q x) eqn:Eq; cbn [filter].
  - rewrite IH. reflexivity.
  - destruct (p x) eqn:Ep; [|exact IH]. rewrite (H _ Ep) in Eq. discriminate.
Qed.

Lemma questionWords_tokens question :
  questionWords question =
  filter (fun w => 2 <? length w) (tokens (stripNonWord (toLowerCase question))).
Proof.
  unfold questionWords, tokens.
  rewrite filter_filter_implied; [reflexivity|].
  intros [|c r]; [discriminate|reflexivity].
Qed.

Lemma segment_truthy text s : In s (segment text) -> truthy s = true.
Proof. unfold segment. intros H. apply filter_In in H. apply H. Qed.

Lemma segment_tidy text s : In s (segment text) -> tidy s = true.
Proof.
  intros H. pose proof (segment_sentences text) as F.
  rewrite Forall_forall in F. apply (F s H).
Qed.

Lemma find_ext_In {T} (p q : T -> bool) l :
  (forall x, In x l -> p x = q x) -> find p l = find q l.
Proof.
  induction l as [|x r IH]; intros H; [reflexivity|]. cbn [find].
  rewrite <- (H x (or_introl eq_refl)). destruct (p x); [reflexivity|].
  apply IH. intros y Hy. apply H. right. exact Hy.
Qed.

(** The sentence taken when no sentence matches the question. *)
Lemma first_meaningful text dflt :
  segment text <> [] ->
  orElse
    (find (fun s => 6 <? length (splitOn isSpaceChar s)) (segment text))
    (orElse (nth_error (segment text) 0) dflt)
  = match find (fun s => 6 <? length (tokens s)) (segment text) with
    | Some s => s
    | None => hd [] (segment text)
    end.
Proof.
  intros Hne.
  rewrite (find_ext_In (fun s => 6 <? length (tokens s))
             (fun s => 6 <? length (splitOn isSpaceChar s)) (segment text)).
  2:{ intros s Hs. rewrite (tidy_tokens s); [reflexivity|].
      apply (segment_tidy text), Hs. }
  destruct (find _ (segment text)) as [s|] eqn:E.
  - apply find_some in E as [Hs _]. cbn [orElse].
    rewrite (segment_truthy text s Hs). reflexivity.
  - cbn [orElse].
    destruct (segment text) as [|s0 r] eqn:Es; [congruence|].
    cbn [nth_error hd orElse].
    rewrite (segment_truthy text s0); [reflexivity|].
    rewrite Es. left. reflexivity.
Qed.

Lemma nth_error_scored {T} (sc : T -> nat) sents i b :
  nth_error (map (fun s => (s, sc s)) sents) i = Some b ->
  nth_error sents i = Some (fst b) /\ snd b = sc (fst b).
Proof.
  rewrite nth_error_map. destruct (nth_error sents i); [|discriminate].
  cbn. intros H. inversion H; subst. auto.
Qed.

Lemma pickSentence_spec text question dflt :
  let sents := segment text in
  let sc := matchScore (questionWords question) in
  let a := pickSentence (questionWords question) sents dflt in
  sents <> [] ->
  ((exists s, In s sents /\ 0 < sc s) ->
     exists i, nth_error sents i = Some a /\ 0 < sc a /\
       (forall s, In s sents -> sc s <= sc a) /\
       (forall j s, j < i -> nth_error sents j = Some s -> sc s < sc a))
  /\ ((forall s, In s sents -> sc s = 0) ->
     a = match find (fun s => 6 <? length (tokens s)) sents with
         | Some s => s
         | None => hd [] sents
         end).
Proof.
  intros sents sc a Hne. subst a sents. unfold pickSentence. cbv zeta.
  rewrite (first_meaningful text dflt Hne).
  set (sents := segment text) in *. fold sc.
  destruct (nth_error (sortDesc snd (map (fun s => (s, sc s)) sents)) 0)
    as [best|] eqn:Eb.
  2:{ exfalso. destruct (sortDesc snd (map (fun s => (s, sc s)) sents)) eqn:E;
        [|discriminate].
      apply sortDesc_nil in E. apply map_eq_nil in E. contradiction. }
  destruct (sortDesc_head snd _ _ Eb) as [i [Hi [Hmax Hlt]]].
  apply nth_error_scored in Hi as [Hi Hs].
  assert (Hmax' : forall s, In s sents -> sc s <= sc (fst best)).
  { intros s Hin. rewrite <- Hs.
    apply (Hmax (s, sc s)), in_map_iff. exists s. auto. }
  assert (Hlt' : forall j s, j < i -> nth_error sents j = Some s ->
                             sc s < sc (fst best)).
  { intros j s Hj Hn. rewrite <- Hs. apply (Hlt j (s, sc s) Hj).
    rewrite nth_error_map, Hn. reflexivity. }
  destruct (0 <? snd best) eqn:E0.
  - apply Nat.ltb_lt in E0. rewrite Hs in E0. split.
    + intros _. exists i. auto.
    + intros Hz. apply nth_error_In in Hi. rewrite (Hz _ Hi) in E0. lia.
  - apply Nat.ltb_ge in E0. rewrite Hs in E0. split.
    + intros [s [Hin Hpos]]. specialize (Hmax' s Hin). lia.
    + intros _. reflexivity.
Qed.

End Matcher.

(* ================================================================== *)
(** * Statement about the question matcher                             *)
(* ================================================================== *)

(** [C4], as the spec states it, fails on the copy of the matcher in the
    background handler: without sentences it answers "No answer found",
    not "No content to answer from.". *)
Lemma background_sentinel_differs :
  segment [] = []
  /\ Background.extractiveAnswer [] (lit "why") = lit "No answer found"
  /\ Background.extractiveAnswer [] (lit "why")
     <> lit "No content to answer from.".
Proof. repeat split. discriminate. Qed.

(** [C4] (amended).  The question words are the words of the lower-cased
    question stripped of everything but [a-z0-9] and white space, those of
    length 2 or less left out.  The score of a sentence is the number of
    question words that occur in the lower-cased sentence as a substring.
    When some sentence has a positive score, [answerQuestion] returns the
    first sentence of greatest score; when none has, the first sentence of
    more than 6 words, else the first sentence.  The copy in the
    background handler returns the same sentence.  Without sentences
    [answerQuestion] returns "No content to answer from." and the copy in
    the background handler returns "No answer found". *)
Theorem matcher_answer (pageText question : list ascii) :
  let sents := segment pageText in
  let qWords := questionWords question in
  let sc := matchScore qWords in
  let a := ContentScript.answer (ContentScript.answerQuestion pageText question) in
  qWords = filter (fun w => 2 <? length w)
             (tokens (stripNonWord (toLowerCase question)))
  /\ (forall s,
        sc s = length (filter (fun w => includes (toLowerCase s) w) qWords))
  /\ (forall s w,
        includes s w = true <-> exists pre post, s = pre ++ w ++ post)
  /\ ContentScript.fallbackUsed
       (ContentScript.answerQuestion pageText question) = true
  /\ (sents = [] ->
        a = lit "No content to answer from."
        /\ Background.extractiveAnswer pageText question
           = lit "No answer found")
  /\ (sents <> [] ->
        Background.extractiveAnswer pageText question = a
        /\ ((exists s, In s sents /\ 0 < sc s) ->
            exists i, nth_error sents i = Some a /\ 0 < sc a /\
              (forall s, In s sents -> sc s <= sc a) /\
              (forall j s, j < i -> nth_error sents j = Some s ->
                           sc s < sc a))
        /\ ((forall s, In s sents -> sc s = 0) ->
            a = match find (fun s => 6 <? length (tokens s)) sents with
                | Some s => s
                | None => hd [] sents
                end)).
Proof.
  intros sents qWords sc a.
  split; [apply questionWords_tokens|].
  split; [intros s; apply matchScore_count|].
  split; [apply includes_substring|].
  split.
  { unfold ContentScript.answerQuestion.
    destruct (length (segment pageText) =? 0); reflexivity. }
  split.
  - intros E. subst a. unfold ContentScript.answerQuestion,
      Background.extractiveAnswer. fold sents. rewrite E. split; reflexivity.
  - intros Hne.
    assert (Ea : a = pickSentence qWords sents []).
    { subst a. unfold ContentScript.answerQuestion. fold sents. fold qWords.
      destruct sents; [congruence|reflexivity]. }
    pose proof (pickSentence_spec pageText question [] Hne) as [Hp Hz].
    pose proof (pickSentence_spec pageText question Background.NO_ANSWER Hne)
      as [Hp' Hz'].
    fold sents qWords sc in Hp, Hz, Hp', Hz'. rewrite <- Ea in Hp, Hz.
    split; [|split; assumption].
    unfold Background.extractiveAnswer. fold sents qWords.
    rewrite Ea. unfold pickSentence. fold sents.
    unfold sents at 2 3 5 6.
    rewrite !(first_meaningful pageText _ Hne). reflexivity.
Qed.

Lemma matcher_answer_witness :
  let text := lit "Cats are mammals. Birds can fly. Fish swim." in
  exists i,
    nth_error (segment text) i
    = Some (ContentScript.answer
              (ContentScript.answerQuestion text (lit "Can BIRDS fly?")))
    /\ ContentScript.answer
         (ContentScript.answerQuestion text (lit "Can BIRDS fly?"))
       = lit "Birds can fly.".
Proof.
  cbv zeta.
  pose proof (matcher_answer (lit "Cats are mammals. Birds can fly. Fish swim.")
                (lit "Can BIRDS fly?")) as H.
  cbv zeta in H. destruct H as [_ [_ [_ [_ [_ H]]]]].
  destruct H as [_ [H _]]; [vm_compute; discriminate|].
  destruct H as [i [Hi _]].
  - exists (lit "Birds can fly."). split; [vm_compute; auto|].
    vm_compute. repeat constructor.
  - exists i. split; [exact Hi|]. vm_compute. reflexivity.
Defined.

(* ================================================================== *)
(** * The summary wire format                                          *)
(* ================================================================== *)

Section Wire.

(** ** Splitting on single code units *)

Lemma splitOn_clean sep : forall x,
  forallb (fun c => negb (sep c)) x = true -> splitOn sep x = [x].
Proof.
  induction x as [|c x IH]; intros H; [reflexivity|].
  cbn [forallb] in H. apply andb_prop in H as [Hc Hx].
  cbn [splitOn]. apply negb_true_iff in Hc. rewrite Hc, (IH Hx). reflexivity.
Qed.

Lemma splitOn_app_sep sep c rest : forall x,
  forallb (fun c => negb (sep c)) x = true -> sep c = true ->
  splitOn sep (x ++ c :: rest) = x :: splitOn sep rest.
Proof.
  induction x as [|y x IH]; intros H Hs.
  - cbn [app splitOn]. rewrite Hs. reflexivity.
  - cbn [forallb] in H. apply andb_prop in H as [Hy Hx].
    cbn [app splitOn]. apply negb_true_iff in Hy.
    rewrite Hy, (IH Hx Hs). reflexivity.
Qed.

Lemma splitOn_join_then sep rest : forall lines,
  sep LF = true ->
  forallb (fun l => forallb (fun c => negb (sep c)) l) lines = true ->
  splitOn sep (join [LF] lines ++ LF :: rest)
  = linesOrBlank lines ++ splitOn sep rest.
Proof.
  intros lines Hs. induction lines as [|x r IH]; intros H.
  - cbn [join app splitOn linesOrBlank]. rewrite Hs. reflexivity.
  - cbn [forallb] in H. apply andb_prop in H as [Hx Hr].
    destruct r as [|y r'].
    + cbn [join linesOrBlank app]. apply splitOn_app_sep; assumption.
    + rewrite join_cons by discriminate. rewrite <- !app_assoc. cbn [app].
      rewrite splitOn_app_sep by assumption.
      rewrite (IH Hr). reflexivity.
Qed.

Lemma splitOn_join sep : forall lines,
  sep LF = true ->
  forallb (fun l => forallb (fun c => negb (sep c)) l) lines = true ->
  splitOn sep (join [LF] lines) = linesOrBlank lines.
Proof.
  intros lines Hs. induction lines as [|x r IH]; intros H; [reflexivity|].
  cbn [forallb] in H. apply andb_prop in H as [Hx Hr].
  destruct r as [|y r'].
  - cbn [join linesOrBlank]. apply splitOn_clean, Hx.
  - rewrite join_cons by discriminate. cbn [app].
    rewrite splitOn_app_sep by assumption. rewrite (IH Hr). reflexivity.
Qed.

(** ** Splitting on the delimiter *)

Lemma prepend_consHead c x ps : consHead c (prepend x ps) = prepend (c :: x) ps.
Proof. destruct ps; reflexivity. Qed.

Lemma splitStrFrom_nonempty sep : forall s skip, splitStrFrom sep skip s <> [].
Proof.
  induction s as [|c r IH]; intros skip; cbn [splitStrFrom]; [discriminate|].
  destruct skip; [|apply IH].
  destruct (startsWith sep (c :: r)); [discriminate|apply consHead_nonempty].
Qed.

Lemma splitStrFrom_prefix sep y : forall x,
  cleanPrefix sep x y = true ->
  splitStrFrom sep 0 (x ++ y) = prepend x (splitStrFrom sep 0 y).
Proof.
  induction x as [|c x IH]; intros H.
  - cbn [app]. pose proof (splitStrFrom_nonempty sep y 0).
    destruct (splitStrFrom sep 0 y); [congruence|reflexivity].
  - cbn [cleanPrefix] in H. apply andb_prop in H as [Hc Hx].
    apply negb_true_iff in Hc. cbn [app] in *. cbn [splitStrFrom].
    rewrite Hc, (IH Hx). apply prepend_consHead.
Qed.

Lemma splitStrFrom_skip sep h : forall z,
  splitStrFrom sep (length z) (z ++ h) = splitStrFrom sep 0 h.
Proof. induction z as [|c z IH]; [reflexivity|exact IH]. Qed.

Lemma startsWith_self p s : startsWith p (p ++ s) = true.
Proof.
  induction p as [|a p IH]; [reflexivity|]. cbn. rewrite Ascii.eqb_refl. exact IH.
Qed.

Lemma splitStrFrom_at sep h :
  sep <> [] ->
  splitStrFrom sep 0 (sep ++ h) = [] :: splitStrFrom sep 0 h.
Proof.
  destruct sep as [|a sep']; [congruence|]. intros _.
  change ((a :: sep') ++ h) with (a :: (sep' ++ h)).
  cbn [splitStrFrom].
  change (a :: sep' ++ h) with ((a :: sep') ++ h).
  rewrite startsWith_self. cbn [length Nat.sub]. rewrite Nat.sub_0_r.
  rewrite splitStrFrom_skip. reflexivity.
Qed.

Lemma splitStr_once sep x h :
  sep <> [] ->
  cleanPrefix sep x (sep ++ h) = true -> cleanPrefix sep h [] = true ->
  splitStr sep (x ++ sep ++ h) = [x; h].
Proof.
  intros Hne Hx Hh. unfold splitStr.
  rewrite (splitStrFrom_prefix _ _ _ Hx), (splitStrFrom_at _ _ Hne).
  cbn [prepend]. rewrite app_nil_r. f_equal.
  rewrite <- (app_nil_r h) at 1.
  rewrite (splitStrFrom_prefix _ _ _ Hh). cbn. rewrite app_nil_r. reflexivity.
Qed.

Lemma cleanPrefix_app sep y : forall x1 x2,
  cleanPrefix sep (x1 ++ x2) y
  = cleanPrefix sep x1 (x2 ++ y) && cleanPrefix sep x2 y.
Proof.
  induction x1 as [|c x1 IH]; intros x2; [reflexivity|].
  cbn [app cleanPrefix]. rewrite IH, <- app_assoc, andb_assoc. reflexivity.
Qed.

(** An occurrence of a pattern without LF cannot run over an LF. *)
Lemma startsWith_cut : forall p a b,
  forallb (fun c => negb (Ascii.eqb c LF)) p = true ->
  startsWith p (a ++ LF :: b) = true -> startsWith p a = true.
Proof.
  induction p as [|x p IH]; intros a b Hp H; [reflexivity|].
  cbn [forallb] in Hp. apply andb_prop in Hp as [Hx Hp].
  destruct a as [|y a]; cbn [app startsWith] in *.
  - apply andb_prop in H as [H _]. rewrite H in Hx. discriminate.
  - apply andb_prop in H as [H1 H2]. rewrite H1. cbn [andb].
    apply (IH _ _ Hp H2).
Qed.

Lemma cleanPrefix_barrier sep y : forall a,
  sep <> [] ->
  forallb (fun c => negb (Ascii.eqb c LF)) sep = true ->
  cleanPrefix sep a [] = true ->
  cleanPrefix sep (a ++ [LF]) y = true.
Proof.
  intros a Hne Hp. induction a as [|c a IH]; intros H.
  - destruct sep as [|x sep']; [congruence|].
    cbn [forallb] in Hp. apply andb_prop in Hp as [Hx _].
    cbn [app cleanPrefix startsWith]. apply negb_true_iff in Hx. rewrite Hx.
    reflexivity.
  - cbn [cleanPrefix] in H. apply andb_prop in H as [Hc Ha].
    cbn [app cleanPrefix]. rewrite (IH Ha), andb_true_r.
    apply negb_true_iff. apply negb_true_iff in Hc.
    destruct (startsWith sep (c :: (a ++ [LF]) ++ y)) eqn:E; [|reflexivity].
    rewrite <- app_assoc in E. cbn [app] in E.
    change (c :: a ++ LF :: y) with ((c :: a) ++ LF :: y) in E.
    apply (startsWith_cut _ _ _ Hp) in E.
    rewrite app_nil_r in Hc. cbn [app] in Hc. congruence.
Qed.

Lemma cleanPrefix_lines sep y : forall lines,
  sep <> [] ->
  forallb (fun c => negb (Ascii.eqb c LF)) sep = true ->
  forallb (fun l => cleanPrefix sep l []) lines = true ->
  cleanPrefix sep (join [LF] lines ++ [LF]) y = true.
Proof.
  intros lines Hne Hp. revert y.
  induction lines as [|x r IH]; intros y H.
  - apply (cleanPrefix_barrier sep y [] Hne Hp). reflexivity.
  - cbn [forallb] in H. apply andb_prop in H as [Hx Hr].
    destruct r as [|z r'].
    + cbn [join]. apply cleanPrefix_barrier; assumption.
    + rewrite join_cons by discriminate.
      replace ((x ++ [LF] ++ join [LF] (z :: r')) ++ [LF])
        with ((x ++ [LF]) ++ (join [LF] (z :: r') ++ [LF]))
        by (rewrite <- !app_assoc; reflexivity).
      rewrite cleanPrefix_app, (IH _ Hr), andb_true_r.
      apply cleanPrefix_barrier; assumption.
Qed.

Lemma cleanPrefix_join sep : forall lines,
  sep <> [] ->
  forallb (fun c => negb (Ascii.eqb c LF)) sep = true ->
  forallb (fun l => cleanPrefix sep l []) lines = true ->
  cleanPrefix sep (join [LF] lines) [] = true.
Proof.
  intros lines Hne Hp. induction lines as [|x r IH]; intros H; [reflexivity|].
  cbn [forallb] in H. apply andb_prop in H as [Hx Hr].
  destruct r as [|z r'].
  - exact Hx.
  - rewrite join_cons by discriminate.
    replace (x ++ [LF] ++ join [LF] (z :: r'))
      with ((x ++ [LF]) ++ join [LF] (z :: r'))
      by (rewrite <- app_assoc; reflexivity).
    rewrite cleanPrefix_app, (IH Hr), andb_true_r.
    apply cleanPrefix_barrier; assumption.
Qed.

Lemma includes_cleanPrefix sep : forall s,
  includes s sep = false -> cleanPrefix sep s [] = true.
Proof.
  unfold includes. induction s as [|c s IH]; intros H; [reflexivity|].
  cbn [indexOf] in H. cbn [cleanPrefix]. rewrite app_nil_r.
  destruct (startsWith sep (c :: s)); [discriminate|]. cbn [negb andb].
  apply IH. destruct (indexOf sep s); [discriminate|reflexivity].
Qed.

(** ** The delimiter *)

Lemma DELIMITER_nonempty : DELIMITER <> [].
Proof. discriminate. Qed.

Lemma DELIMITER_one_line :
  forallb (fun c => negb (Ascii.eqb c LF)) DELIMITER = true.
Proof. reflexivity. Qed.

Lemma DELIMITER_first c s : c <> "="%char -> startsWith DELIMITER (c :: s) = false.
Proof.
  intros Hc. unfold DELIMITER, lit. cbn [list_ascii_of_string startsWith].
  destruct (Ascii.eqb "=" c) eqn:E; [|reflexivity].
  apply Ascii.eqb_eq in E. congruence.
Qed.

Lemma wireSafe_parts s :
  wireSafe s = true ->
  truthy s = true /\ trim s = s /\ noLineBreak s = true
  /\ includes s DELIMITER = false.
Proof.
  unfold wireSafe. intros H.
  apply andb_prop in H as [H H4]. apply andb_prop in H as [H H3].
  apply andb_prop in H as [H1 H2]. apply str_eqb_eq in H2.
  apply negb_true_iff in H4. auto.
Qed.

Lemma trim_fixed_noLead b : trim b = b -> trimStart b = b.
Proof.
  intros H. destruct (trimStart_suffix b) as [w [_ Ew]].
  destruct (trimEnd_prefix (trimStart b)) as [w' [_ Ew']].
  fold (trim b) in Ew'. rewrite H in Ew'.
  assert (L : length b = length w + (length b + length w')).
  { rewrite Ew at 1. rewrite length_app. rewrite Ew' at 1.
    rewrite length_app. reflexivity. }
  destruct w; [symmetry; exact Ew|cbn in L; lia].
Qed.

Lemma bullet_line b : lit "- " ++ b = DASH :: SP :: b.
Proof. reflexivity. Qed.

Lemma stripDash_line b :
  trim b = b -> trim (ContentScript.stripDash (lit "- " ++ b)) = b.
Proof.
  intros H. rewrite bullet_line. cbn [ContentScript.stripDash].
  rewrite Ascii.eqb_refl. cbn [trimStart]. rewrite SP_ws.
  rewrite (trim_fixed_noLead _ H). exact H.
Qed.

Lemma stripLead_line b :
  truthy b = true -> trim b = b -> startsWith [DASH] b = false ->
  trim (Popup.stripLead (lit "- " ++ b)) = b.
Proof.
  intros Ht H Hd. rewrite bullet_line. cbn [Popup.stripLead].
  rewrite Ascii.eqb_refl. cbn [orb]. rewrite SP_ws, orb_true_r.
  pose proof (trim_fixed_noLead _ H) as Hs.
  destruct b as [|c r]; [discriminate|].
  cbn [Popup.stripLead]. cbn [startsWith] in Hd. rewrite andb_true_r in Hd.
  rewrite Ascii.eqb_sym, Hd. cbn [orb].
  cbn [trimStart] in Hs. destruct (isWhiteSpace c) eqn:Ew; [|exact H].
  exfalso. destruct (trimStart_suffix r) as [w [_ Ew']].
  assert (L : length (trimStart r) = S (length r)) by (rewrite Hs; reflexivity).
  rewrite Ew' in L at 2. rewrite length_app in L. lia.
Qed.

Lemma line_one_line b :
  noLineBreak b = true -> noLineBreak (lit "- " ++ b) = true.
Proof. intros H. rewrite bullet_line. unfold noLineBreak in *. cbn [forallb]. rewrite H. reflexivity. Qed.

Lemma line_free b :
  includes b DELIMITER = false -> cleanPrefix DELIMITER (lit "- " ++ b) [] = true.
Proof.
  intros H. rewrite bullet_line. cbn [cleanPrefix app].
  rewrite !DELIMITER_first by discriminate.
  cbn [negb andb]. apply includes_cleanPrefix, H.
Qed.

Lemma forallb_map {A B} (f : A -> B) (p : B -> bool) l :
  forallb p (map f l) = forallb (fun x => p (f x)) l.
Proof. induction l as [|x r IH]; cbn; [reflexivity|]. rewrite IH. reflexivity. Qed.

Lemma forallb_impl {A} (p q : A -> bool) l :
  (forall x, p x = true -> q x = true) ->
  forallb p l = true -> forallb q l = true.
Proof.
  intros H. induction l as [|x r IH]; cbn; [auto|]. intros Hp.
  apply andb_prop in Hp as [Hx Hr]. rewrite (H _ Hx), (IH Hr). reflexivity.
Qed.

(** The composed text splits at the delimiter into its two parts. *)
Lemma compose_parts bullets highlights :
  forallb wireSafe bullets = true -> forallb wireSafe highlights = true ->
  splitStr DELIMITER (compose bullets highlights)
  = [join [LF] (map (fun b => lit "- " ++ b) bullets) ++ [LF; LF];
     LF :: join [LF] highlights].
Proof.
  intros Hb Hh. unfold compose. rewrite map_id.
  set (bt := join [LF] (map (fun b => lit "- " ++ b) bullets)).
  replace (bt ++ [LF; LF] ++ DELIMITER ++ [LF] ++ join [LF] highlights)
    with ((bt ++ [LF; LF]) ++ DELIMITER ++ (LF :: join [LF] highlights))
    by (rewrite <- app_assoc; reflexivity).
  apply splitStr_once; [apply DELIMITER_nonempty| |].
  - replace (bt ++ [LF; LF]) with ((bt ++ [LF]) ++ [] ++ [LF])
      by (rewrite <- app_assoc; reflexivity).
    rewrite cleanPrefix_app. apply andb_true_intro. split.
    + apply cleanPrefix_lines;
        [apply DELIMITER_nonempty|apply DELIMITER_one_line|].
      rewrite forallb_map. revert Hb. apply forallb_impl.
      intros b H. apply line_free, (wireSafe_parts _ H).
    + apply cleanPrefix_barrier;
        [apply DELIMITER_nonempty|apply DELIMITER_one_line|reflexivity].
  - change (LF :: join [LF] highlights)
      with (([] ++ [LF]) ++ join [LF] highlights).
    rewrite cleanPrefix_app. apply andb_true_intro. split.
    + apply cleanPrefix_barrier;
        [apply DELIMITER_nonempty|apply DELIMITER_one_line|reflexivity].
    + apply cleanPrefix_join;
        [apply DELIMITER_nonempty|apply DELIMITER_one_line|].
      revert Hh. apply forallb_impl.
      intros h H. apply includes_cleanPrefix, (wireSafe_parts _ H).
Qed.

Lemma filter_truthy_id l : forallb truthy l = true -> filter truthy l = l.
Proof. apply filter_all. Qed.

(** Lines mapped back to items, blank lines dropped. *)
Lemma recover_lines (f : list ascii -> list ascii) lines blanks :
  f [] = [] ->
  forallb (fun l => truthy (f l)) lines = true ->
  forallb (fun l => negb (truthy (f l))) blanks = true ->
  filter truthy (map f (linesOrBlank lines ++ blanks)) = map f lines.
Proof.
  intros H0 Hl Hb.
  assert (Eb : filter truthy (map f blanks) = []).
  { induction blanks as [|x r IH]; [reflexivity|]. cbn [forallb] in Hb.
    apply andb_prop in Hb as [Hx Hr]. apply negb_true_iff in Hx.
    cbn [map filter]. rewrite Hx. apply IH, Hr. }
  rewrite map_app, filter_app, Eb, app_nil_r.
  destruct lines as [|x r].
  - cbn. rewrite H0. reflexivity.
  - cbn [linesOrBlank]. apply filter_truthy_id. rewrite forallb_map. exact Hl.
Qed.

Lemma map_fixed {A} (f : A -> A) l :
  (forall x, In x l -> f x = x) -> map f l = l.
Proof.
  intros H. induction l as [|x r IH]; [reflexivity|]. cbn [map].
  rewrite (H x (or_introl eq_refl)), IH; [reflexivity|].
  intros y Hy. apply H. right. exact Hy.
Qed.

Lemma recover_bullets (strip : list ascii -> list ascii) bullets :
  strip [] = [] ->
  forallb wireSafe bullets = true ->
  (forall b, In b bullets -> trim (strip (lit "- " ++ b)) = b) ->
  filter truthy
    (map (fun l => trim (strip l))
       (splitOn isLineBreak
          (join [LF] (map (fun b => lit "- " ++ b) bullets) ++ [LF; LF])))
  = bullets.
Proof.
  intros H0 Hb Hs.
  change ([LF; LF]) with (LF :: [LF]).
  rewrite splitOn_join_then; [|reflexivity|].
  2:{ rewrite forallb_map. revert Hb. apply forallb_impl.
      intros b H. apply line_one_line, (wireSafe_parts _ H). }
  change (splitOn isLineBreak [LF]) with ([[]; []] : list (list ascii)).
  rewrite recover_lines.
  - rewrite map_map. apply map_fixed, Hs.
  - rewrite H0. reflexivity.
  - rewrite forallb_map. apply forallb_forall. intros b Hin.
    rewrite (Hs b Hin). rewrite forallb_forall in Hb.
    apply (wireSafe_parts _ (Hb b Hin)).
  - cbn [forallb]. rewrite H0. reflexivity.
Qed.

Lemma recover_highlights highlights :
  forallb wireSafe highlights = true ->
  filter truthy
    (map (fun l => trim l) (splitOn isLineBreak (LF :: join [LF] highlights)))
  = highlights.
Proof.
  intros Hh.
  change (LF :: join [LF] highlights) with ([] ++ LF :: join [LF] highlights).
  rewrite splitOn_app_sep by reflexivity.
  rewrite splitOn_join; [|reflexivity|].
  2:{ revert Hh. apply forallb_impl. intros h H.
      apply (wireSafe_parts _ H). }
  cbn [map filter]. change (truthy (trim [])) with false. cbv iota.
  rewrite <- (app_nil_r (linesOrBlank highlights)), recover_lines.
  - apply map_fixed. intros h Hin. rewrite forallb_forall in Hh.
    apply (wireSafe_parts _ (Hh h Hin)).
  - reflexivity.
  - apply forallb_forall. intros h Hin. rewrite forallb_forall in Hh.
    destruct (wireSafe_parts _ (Hh h Hin)) as [Ht [-> _]]. exact Ht.
  - reflexivity.
Qed.

(** [C6], as the spec states it, fails: a bullet with white space in
    front comes back without it, and a sixth highlight does not come back.
    Both inputs are non-empty, on one line and without the delimiter. *)
Lemma wire_round_trip_fails :
  let stated s :=
    truthy s && noLineBreak s && negb (includes s DELIMITER) in
  let bullets := [lit " a"] in
  let six := map lit ["a"; "b"; "c"; "d"; "e"; "f"]%string in
  forallb stated bullets = true /\ forallb stated six = true
  /\ ContentScript.parseSummary (compose bullets []) <> (bullets, [])
  /\ ContentScript.parseSummary (compose [] six) <> ([], six).
Proof.
  cbv zeta. split; [reflexivity|]. split; [reflexivity|].
  split; vm_compute; discriminate.
Qed.

(** [C6] (amended).  The composer emits the bullets prefixed with "- "
    and joined by LF, two LF, the delimiter, one LF, the highlights joined
    by LF.  When every bullet and highlight is non-empty, without white
    space around it, without LF or CR and without the delimiter, and there
    are at most 5 highlights, the parser of the content script gives back
    the bullets and the highlights in order; so does the parser of the
    popup when, in addition, no bullet starts with a dash and there are at
    most 6 bullets. *)
Theorem wire_round_trip (bullets highlights : list (list ascii)) :
  forallb wireSafe bullets = true ->
  forallb wireSafe highlights = true ->
  length highlights <= 5 ->
  compose bullets highlights
    = join [LF] (map (fun b => lit "- " ++ b) bullets)
      ++ [LF; LF] ++ lit "===HIGHLIGHTS===" ++ [LF] ++ join [LF] highlights
  /\ ContentScript.parseSummary (compose bullets highlights)
     = (bullets, highlights)
  /\ (length bullets <= 6 ->
      forallb (fun b => negb (startsWith [DASH] b)) bullets = true ->
      Popup.parseSummary (compose bullets highlights) = (bullets, highlights)).
Proof.
  intros Hb Hh Hn. split; [|split].
  - unfold compose. rewrite map_id. reflexivity.
  - unfold ContentScript.parseSummary.
    rewrite (compose_parts _ _ Hb Hh). cbn [nth].
    rewrite (recover_highlights _ Hh), firstn_all2 by exact Hn.
    rewrite (recover_bullets ContentScript.stripDash); [reflexivity| |exact Hb|].
    + reflexivity.
    + intros b Hin. rewrite forallb_forall in Hb.
      apply stripDash_line, (wireSafe_parts _ (Hb b Hin)).
  - intros Hn6 Hd. unfold Popup.parseSummary.
    rewrite (compose_parts _ _ Hb Hh). cbn [nth].
    rewrite (recover_highlights _ Hh).
    rewrite (recover_bullets Popup.stripLead);
      [rewrite !firstn_all2 by assumption; reflexivity| |exact Hb|].
    + reflexivity.
    + intros b Hin. rewrite forallb_forall in Hb, Hd.
      destruct (wireSafe_parts _ (Hb b Hin)) as [Ht [He _]].
      apply stripLead_line; [exact Ht|exact He|].
      apply negb_true_iff, (Hd b Hin).
Qed.

Lemma wire_round_trip_witness :
  let bullets := map lit ["Dogs are mammals too."; "- Cats: 3 = 3"]%string in
  let highlights := [lit "Birds can fly."] in
  ContentScript.parseSummary (compose bullets highlights) = (bullets, highlights).
Proof.
  cbv zeta.
  apply (wire_round_trip
           (map lit ["Dogs are mammals too."; "- Cats: 3 = 3"]%string)
           [lit "Birds can fly."]).
  - reflexivity.
  - reflexivity.
  - cbn. lia.
Defined.

End Wire.

(* ================================================================== *)
(** * The document: text content, identities and markers              *)
(* ================================================================== *)

Section Document.

(** ** Unfolding of the functions defined by nested recursion *)

Lemma normalize_Elem i c ks :
  normalize (Elem i c ks) = Elem i c (normalizeKids ks).
Proof.
  reflexivity.
Qed.

Lemma visit_Elem total st i c ks :
  visit total st (Elem i c ks) =
  let (st', ks') := visitAll total st ks in (st', [Elem i c ks']).
Proof.
  simpl.
  assert (E : forall st,
    (fix go (st0 : hstate) (l : list node) {struct l} : hstate * list node :=
       match l with
       | [] => (st0, [])
       | k :: r =>
           let (st1, k') := visit total st0 k in
           let (st2, r') := go st1 r in (st2, k' ++ r')
       end) st ks = visitAll total st ks).
  { induction ks as [|k r IH]; intros st0; [reflexivity|].
    simpl. destruct (visit total st0 k) as [st1 k']. rewrite IH. reflexivity. }
  rewrite E. reflexivity.
Qed.

Lemma concat_mergeText s l :
  textOf (mergeText s l) = s ++ textOf l.
Proof.
  unfold mergeText, textOf. destruct s as [|a s]; simpl; [reflexivity|].
  destruct l as [|[s'|i c ks] r]; simpl; try reflexivity.
  rewrite <- app_assoc. reflexivity.
Qed.


(** ** Text content is preserved *)

Lemma textOf_cons k r : textOf (k :: r) = textContent k ++ textOf r.
Proof. reflexivity. Qed.

Lemma textOf_app a b : textOf (a ++ b) = textOf a ++ textOf b.
Proof. unfold textOf. rewrite map_app, concat_app. reflexivity. Qed.

Lemma normalizeKids_cons_elem i c ks r :
  normalizeKids (Elem i c ks :: r) = normalize (Elem i c ks) :: normalizeKids r.
Proof. reflexivity. Qed.

Lemma normalizeKids_cons_text s r :
  normalizeKids (Text s :: r) = mergeText s (normalizeKids r).
Proof. reflexivity. Qed.

Lemma textOf_normalizeKids_from l :
  Forall (fun n => textContent (normalize n) = textContent n) l ->
  textOf (normalizeKids l) = textOf l.
Proof.
  induction 1 as [|k r Hk Hr IHr]; [reflexivity|].
  destruct k as [s|j cj kj].
  - rewrite normalizeKids_cons_text, concat_mergeText, IHr. reflexivity.
  - rewrite normalizeKids_cons_elem, !textOf_cons, Hk, IHr. reflexivity.
Qed.

Lemma textContent_normalize : forall n, textContent (normalize n) = textContent n.
Proof.
  induction n as [s|i c ks IH] using node_ind; [reflexivity|].
  rewrite normalize_Elem.
  change (textOf (normalizeKids ks) = textOf ks).
  apply textOf_normalizeKids_from, IH.
Qed.

Lemma textOf_normalizeKids l : textOf (normalizeKids l) = textOf l.
Proof.
  apply textOf_normalizeKids_from, Forall_forall.
  intros n _. apply textContent_normalize.
Qed.

Lemma textContent_swapForText x k :
  textContent (swapForText x k) = textContent k.
Proof. unfold swapForText. destruct (isElemId x k); reflexivity. Qed.

Lemma textOf_map_ext f l :
  Forall (fun n => textContent (f n) = textContent n) l ->
  textOf (map f l) = textOf l.
Proof.
  induction 1 as [|k r Hk Hr IHr]; [reflexivity|].
  cbn [map]. rewrite !textOf_cons, Hk, IHr. reflexivity.
Qed.

Lemma replaceEl_Elem x i c ks :
  replaceEl x (Elem i c ks) = Elem i c (replaceInDoc x ks).
Proof. reflexivity. Qed.

Lemma textOf_replaceInDoc_from x d :
  Forall (fun n => textContent (replaceEl x n) = textContent n) d ->
  textOf (replaceInDoc x d) = textOf d.
Proof.
  intros H. unfold replaceInDoc. destruct (existsb (isElemId x) d).
  - rewrite textOf_normalizeKids. apply textOf_map_ext, Forall_forall.
    intros n _. apply textContent_swapForText.
  - apply textOf_map_ext, H.
Qed.

Lemma textContent_replaceEl x : forall n,
  textContent (replaceEl x n) = textContent n.
Proof.
  induction n as [s|i c ks IH] using node_ind; [reflexivity|].
  rewrite replaceEl_Elem.
  change (textOf (replaceInDoc x ks) = textOf ks).
  apply textOf_replaceInDoc_from, IH.
Qed.

Lemma textOf_replaceInDoc x d : textOf (replaceInDoc x d) = textOf d.
Proof.
  apply textOf_replaceInDoc_from, Forall_forall.
  intros n _. apply textContent_replaceEl.
Qed.

Lemma textOf_fold_replace els : forall d,
  textOf (fold_left (fun d el => replaceInDoc el d) els d) = textOf d.
Proof.
  induction els as [|x els IH]; intros d; [reflexivity|].
  cbn [fold_left]. rewrite IH. apply textOf_replaceInDoc.
Qed.

Lemma textOf_removeHighlights d : textOf (removeHighlights d) = textOf d.
Proof. apply textOf_fold_replace. Qed.

Lemma firstMatch_spec text : forall cands s i,
  firstMatch text cands = Some (s, i) ->
  In s cands /\ indexOf s text = Some i.
Proof.
  induction cands as [|x r IH]; intros s i H; [discriminate|].
  cbn in H. destruct (indexOf x text) as [j|] eqn:E.
  - inversion H; subst. split; [left; reflexivity|exact E].
  - destruct (IH _ _ H) as [Hin Hi]. split; [right; exact Hin|exact Hi].
Qed.

Lemma textOf_setTextContent s : textOf (setTextContent s) = s.
Proof. destruct s; [reflexivity|]. cbn. rewrite app_nil_r. reflexivity. Qed.

Lemma textOf_visitText total st t :
  textOf (snd (visitText total st t)) = t.
Proof.
  unfold visitText. destruct (total <=? highlights st).
  - cbn. apply app_nil_r.
  - destruct (firstMatch t (sentenceSet st)) as [[s i]|] eqn:E.
    + apply firstMatch_spec in E as [_ E]. apply indexOf_split in E.
      cbn [snd]. rewrite !textOf_cons. cbn [textContent].
      fold (textOf (setTextContent s)). rewrite textOf_setTextContent.
      unfold textOf at 1. cbn. rewrite app_nil_r. symmetry. exact E.
    + cbn. apply app_nil_r.
Qed.

Lemma textOf_visitAll_from total : forall l st,
  Forall (fun n => forall st, textOf (snd (visit total st n)) = textContent n) l ->
  textOf (snd (visitAll total st l)) = textOf l.
Proof.
  induction l as [|k r IH]; intros st H; [reflexivity|].
  inversion H as [|? ? Hk Hr]; subst.
  cbn [visitAll]. specialize (Hk st).
  destruct (visit total st k) as [st1 k'].
  specialize (IH st1 Hr).
  destruct (visitAll total st1 r) as [st2 r'].
  cbn [snd] in *. rewrite textOf_app, textOf_cons, Hk, IH. reflexivity.
Qed.

Lemma textOf_visit total : forall n st,
  textOf (snd (visit total st n)) = textContent n.
Proof.
  induction n as [s|i c ks IH] using node_ind; intros st.
  - apply textOf_visitText.
  - rewrite visit_Elem.
    pose proof (textOf_visitAll_from total ks st IH) as H.
    destruct (visitAll total st ks) as [st' ks'].
    cbn [snd] in *. unfold textOf at 1. cbn. rewrite app_nil_r. exact H.
Qed.

Lemma textOf_visitAll total l st :
  textOf (snd (visitAll total st l)) = textOf l.
Proof.
  apply textOf_visitAll_from, Forall_forall.
  intros n _. apply textOf_visit.
Qed.

Lemma textOf_highlightSentences ss d :
  textOf (highlightSentences ss d) = textOf d.
Proof.
  unfold highlightSentences, highlightRun.
  rewrite textOf_visitAll. apply textOf_removeHighlights.
Qed.

(** ** Sub-lists *)

Lemma sublist_refl {A} (l : list A) : sublist l l.
Proof. induction l; constructor; assumption. Qed.

Lemma sublist_nil_l {A} (l : list A) : sublist [] l.
Proof. induction l; constructor; assumption. Qed.

Lemma sublist_app {A} (a a' b b' : list A) :
  sublist a a' -> sublist b b' -> sublist (a ++ b) (a' ++ b').
Proof.
  intros Ha Hb. induction Ha; cbn; try constructor; assumption.
Qed.

Lemma sublist_In {A} (l l' : list A) x : sublist l l' -> In x l -> In x l'.
Proof.
  induction 1 as [|y l l' _ IH|y l l' _ IH]; cbn; intros H; auto.
  destruct H; auto.
Qed.

Lemma sublist_NoDup {A} (l l' : list A) : sublist l l' -> NoDup l' -> NoDup l.
Proof.
  induction 1 as [|y l l' Hs IH|y l l' Hs IH]; intros H; auto.
  - inversion H; auto.
  - inversion H; subst. constructor; auto.
    intros Hin. eapply sublist_In in Hin; eauto.
Qed.

Lemma sublist_flat_map {A B} (f : A -> list B) (g : A -> A) l :
  Forall (fun k => sublist (f (g k)) (f k)) l ->
  sublist (flat_map f (map g l)) (flat_map f l).
Proof.
  induction 1 as [|k r Hk Hr IH]; cbn; [constructor|].
  apply sublist_app; assumption.
Qed.

(** ** Element identities *)

Lemma selectIds_mergeText sel s l :
  flat_map (selectIds sel) (mergeText s l) = flat_map (selectIds sel) l.
Proof.
  unfold mergeText. destruct (truthy s); [|reflexivity].
  destruct l as [|[s'|i c ks] r]; reflexivity.
Qed.

Lemma selectIds_normalize sel : forall n,
  selectIds sel (normalize n) = selectIds sel n.
Proof.
  induction n as [s|i c ks IH] using node_ind; [reflexivity|].
  rewrite normalize_Elem. cbn [selectIds]. f_equal.
  induction IH as [|k r Hk Hr IHr]; [reflexivity|].
  destruct k as [s|j cj kj].
  - rewrite normalizeKids_cons_text, selectIds_mergeText. exact IHr.
  - rewrite normalizeKids_cons_elem. cbn [flat_map]. rewrite Hk, IHr.
    reflexivity.
Qed.

Lemma selectIds_normalizeKids sel l :
  flat_map (selectIds sel) (normalizeKids l) = flat_map (selectIds sel) l.
Proof.
  induction l as [|k r IH]; [reflexivity|].
  destruct k as [s|j cj kj].
  - rewrite normalizeKids_cons_text, selectIds_mergeText. exact IH.
  - rewrite normalizeKids_cons_elem. cbn [flat_map].
    rewrite selectIds_normalize, IH. reflexivity.
Qed.

Lemma sublist_swapForText sel x k :
  sublist (selectIds sel (swapForText x k)) (selectIds sel k).
Proof.
  unfold swapForText. destruct (isElemId x k).
  - apply sublist_nil_l.
  - apply sublist_refl.
Qed.

Lemma sublist_replaceInDoc_from sel x d :
  Forall (fun n => sublist (selectIds sel (replaceEl x n)) (selectIds sel n)) d ->
  sublist (flat_map (selectIds sel) (replaceInDoc x d))
          (flat_map (selectIds sel) d).
Proof.
  intros H. unfold replaceInDoc. destruct (existsb (isElemId x) d).
  - rewrite selectIds_normalizeKids. apply sublist_flat_map, Forall_forall.
    intros n _. apply sublist_swapForText.
  - apply sublist_flat_map, H.
Qed.

Lemma sublist_replaceEl sel x : forall n,
  sublist (selectIds sel (replaceEl x n)) (selectIds sel n).
Proof.
  induction n as [s|i c ks IH] using node_ind; [constructor|].
  rewrite replaceEl_Elem. cbn [selectIds].
  apply sublist_app; [apply sublist_refl|].
  apply sublist_replaceInDoc_from, IH.
Qed.

Lemma sublist_replaceInDoc sel x d :
  sublist (flat_map (selectIds sel) (replaceInDoc x d))
          (flat_map (selectIds sel) d).
Proof.
  apply sublist_replaceInDoc_from, Forall_forall.
  intros n _. apply sublist_replaceEl.
Qed.

Lemma markers_are_elements : forall n x,
  In x (selectIds hasMarkerClass n) -> In x (selectIds (fun _ => true) n).
Proof.
  induction n as [s|i c ks IH] using node_ind; intros x H; [exact H|].
  cbn [selectIds] in *. apply in_app_or in H as [H|H].
  - destruct (hasMarkerClass c); [|contradiction]. left.
    destruct H as [H|[]]. exact H.
  - right. apply in_flat_map in H as [k [Hk Hx]]. apply in_flat_map.
    exists k. split; [exact Hk|].
    rewrite Forall_forall in IH. apply IH; assumption.
Qed.

Lemma querySelectorAll_docIds d x : In x (querySelectorAll d) -> In x (docIds d).
Proof.
  unfold querySelectorAll, docIds. intros H.
  apply in_flat_map in H as [k [Hk Hx]]. apply in_flat_map.
  exists k. split; [exact Hk|]. apply markers_are_elements, Hx.
Qed.

Lemma isElemId_In x d :
  existsb (isElemId x) d = true -> In x (docIds d).
Proof.
  intros H. apply existsb_exists in H as [k [Hk Hx]].
  apply in_flat_map. exists k. split; [exact Hk|].
  destruct k as [s|i c ks]; [discriminate|].
  cbn in Hx. apply Nat.eqb_eq in Hx. subst. left. reflexivity.
Qed.

Lemma docIds_cons k r : docIds (k :: r) = selectIds (fun _ => true) k ++ docIds r.
Proof. reflexivity. Qed.

Lemma NoDup_app_disjoint {A} (a b : list A) x :
  NoDup (a ++ b) -> In x a -> In x b -> False.
Proof.
  induction a as [|y a IH]; cbn; intros Hn Ha Hb; [contradiction|].
  inversion Hn; subst. destruct Ha as [->|Ha].
  - apply H1, in_or_app. right. exact Hb.
  - apply IH; assumption.
Qed.

Lemma swap_removes x : forall ks,
  NoDup (docIds ks) -> existsb (isElemId x) ks = true ->
  ~ In x (docIds (map (swapForText x) ks)).
Proof.
  induction ks as [|k r IH]; intros Hn He; [discriminate|].
  cbn [map]. rewrite docIds_cons in *. cbn [existsb] in He.
  unfold swapForText at 1. destruct (isElemId x k) eqn:Ek.
  - cbn [selectIds app]. destruct k as [s|i c kk]; [discriminate|].
    cbn in Ek. apply Nat.eqb_eq in Ek. subst i.
    cbn [selectIds app] in Hn. inversion Hn; subst.
    intros Hin. apply H1, in_or_app. right.
    eapply sublist_In; [|exact Hin].
    apply sublist_flat_map, Forall_forall. intros n _.
    apply sublist_swapForText.
  - cbn [orb] in He. intros Hin. apply in_app_or in Hin as [Hin|Hin].
    + eapply NoDup_app_disjoint; [exact Hn|exact Hin|].
      apply isElemId_In, He.
    + revert Hin. apply IH; [|exact He].
      eapply NoDup_app_remove_l, Hn.
Qed.

Lemma NoDup_flat_map_In {A B} (f : A -> list B) l k :
  NoDup (flat_map f l) -> In k l -> NoDup (f k).
Proof.
  induction l as [|a l IH]; cbn; intros Hn Hk; [contradiction|].
  destruct Hk as [->|Hk].
  - eapply NoDup_app_remove_r, Hn.
  - apply IH; [|exact Hk]. eapply NoDup_app_remove_l, Hn.
Qed.

Lemma replaceInDoc_removes_from x d :
  Forall (fun n => isElemId x n = false ->
                   NoDup (selectIds (fun _ => true) n) ->
                   ~ In x (selectIds (fun _ => true) (replaceEl x n))) d ->
  NoDup (docIds d) -> ~ In x (docIds (replaceInDoc x d)).
Proof.
  intros H Hn. unfold replaceInDoc.
  destruct (existsb (isElemId x) d) eqn:E.
  - unfold docIds. rewrite selectIds_normalizeKids.
    apply swap_removes; assumption.
  - intros Hin. apply in_flat_map in Hin as [k' [Hk' Hx]].
    apply in_map_iff in Hk' as [k [<- Hk]].
    rewrite Forall_forall in H. apply (H k Hk); [| |exact Hx].
    + destruct (isElemId x k) eqn:Ek; [|reflexivity].
      assert (existsb (isElemId x) d = true)
        by (apply existsb_exists; exists k; auto).
      congruence.
    + eapply NoDup_flat_map_In; [exact Hn|exact Hk].
Qed.

Lemma replaceEl_removes x : forall n,
  isElemId x n = false ->
  NoDup (selectIds (fun _ => true) n) ->
  ~ In x (selectIds (fun _ => true) (replaceEl x n)).
Proof.
  induction n as [s|i c ks IH] using node_ind; intros Hne Hn; [intros []|].
  rewrite replaceEl_Elem. cbn [selectIds app] in *.
  intros [Hx|Hx].
  - subst. cbn in Hne. rewrite Nat.eqb_refl in Hne. discriminate.
  - revert Hx. apply replaceInDoc_removes_from; [exact IH|].
    inversion Hn; assumption.
Qed.

Lemma replaceInDoc_removes x d :
  NoDup (docIds d) -> ~ In x (docIds (replaceInDoc x d)).
Proof.
  apply replaceInDoc_removes_from, Forall_forall.
  intros n _. apply replaceEl_removes.
Qed.

Lemma NoDup_replaceInDoc x d :
  NoDup (docIds d) -> NoDup (docIds (replaceInDoc x d)).
Proof. apply sublist_NoDup, sublist_replaceInDoc. Qed.

Lemma fold_replace_clears : forall els d,
  NoDup (docIds d) ->
  (forall x, In x (querySelectorAll d) -> In x els) ->
  querySelectorAll (fold_left (fun d el => replaceInDoc el d) els d) = [].
Proof.
  induction els as [|x els IH]; intros d Hn Hincl.
  - cbn [fold_left]. destruct (querySelectorAll d) as [|y l]; [reflexivity|].
    destruct (Hincl y). left. reflexivity.
  - cbn [fold_left]. apply IH.
    + apply NoDup_replaceInDoc, Hn.
    + intros y Hy.
      assert (Hy' : In y (querySelectorAll d))
        by (eapply sublist_In; [apply sublist_replaceInDoc|exact Hy]).
      destruct (Hincl y Hy') as [<-|Hin]; [|exact Hin].
      exfalso. eapply replaceInDoc_removes; [exact Hn|].
      apply querySelectorAll_docIds, Hy.
Qed.

Lemma removeHighlights_clears d :
  NoDup (docIds d) -> querySelectorAll (removeHighlights d) = [].
Proof.
  intros Hn. apply fold_replace_clears; auto.
Qed.

Lemma removeHighlights_no_markers d :
  querySelectorAll d = [] -> removeHighlights d = d.
Proof. unfold removeHighlights. intros ->. reflexivity. Qed.

Lemma map_id_Forall {A} (f : A -> A) l :
  Forall (fun k => f k = k) l -> map f l = l.
Proof. induction 1; cbn; congruence. Qed.

Lemma replaceInDoc_absent_from x d :
  Forall (fun n => ~ In x (selectIds (fun _ => true) n) -> replaceEl x n = n) d ->
  ~ In x (docIds d) -> replaceInDoc x d = d.
Proof.
  intros H Hx. unfold replaceInDoc.
  destruct (existsb (isElemId x) d) eqn:E.
  - exfalso. apply Hx, isElemId_In, E.
  - apply map_id_Forall. rewrite Forall_forall in *. intros k Hk.
    apply H; [exact Hk|]. intros Hin. apply Hx, in_flat_map.
    exists k. auto.
Qed.

Lemma replaceEl_absent x : forall n,
  ~ In x (selectIds (fun _ => true) n) -> replaceEl x n = n.
Proof.
  induction n as [s|i c ks IH] using node_ind; intros Hx; [reflexivity|].
  rewrite replaceEl_Elem. f_equal.
  apply replaceInDoc_absent_from; [exact IH|].
  intros Hin. apply Hx. cbn. right. exact Hin.
Qed.

Lemma replaceInDoc_absent x d :
  ~ In x (docIds d) -> replaceInDoc x d = d.
Proof.
  apply replaceInDoc_absent_from, Forall_forall.
  intros n _. apply replaceEl_absent.
Qed.

(** ** Markers created by the injector *)

Lemma markerTexts_app a b : markerTexts (a ++ b) = markerTexts a ++ markerTexts b.
Proof. apply flat_map_app. Qed.

Lemma markerTexts_cons k r : markerTexts (k :: r) = markerTextsOf k ++ markerTexts r.
Proof. reflexivity. Qed.

Lemma markerTextsOf_length : forall n,
  length (markerTextsOf n) = length (selectIds hasMarkerClass n).
Proof.
  induction n as [s|i c ks IH] using node_ind; [reflexivity|].
  cbn [markerTextsOf selectIds]. rewrite !length_app. f_equal.
  - destruct (hasMarkerClass c); reflexivity.
  - induction IH as [|k r Hk Hr IHr]; [reflexivity|].
    cbn [flat_map]. rewrite !length_app, Hk, IHr. reflexivity.
Qed.

Lemma markerTexts_length d :
  length (markerTexts d) = length (querySelectorAll d).
Proof.
  induction d as [|k r IH]; [reflexivity|].
  rewrite markerTexts_cons.
  change (querySelectorAll (k :: r))
    with (selectIds hasMarkerClass k ++ querySelectorAll r).
  rewrite !length_app, markerTextsOf_length, IH. reflexivity.
Qed.

Lemma no_markers_no_texts d : querySelectorAll d = [] -> markerTexts d = [].
Proof.
  intros H. apply length_zero_iff_nil. rewrite markerTexts_length, H.
  reflexivity.
Qed.

Lemma setDelete_perm s : forall cands,
  In s cands -> Permutation (s :: setDelete s cands) cands.
Proof.
  induction cands as [|y r IH]; intros H; [contradiction|].
  cbn [setDelete]. destruct (str_eqb s y) eqn:E.
  - apply str_eqb_eq in E. subst. reflexivity.
  - destruct H as [->|H]; [rewrite str_eqb_refl in E; discriminate|].
    rewrite perm_swap. constructor. apply IH, H.
Qed.

Lemma marker_class : hasMarkerClass [MARKER] = true.
Proof. reflexivity. Qed.

(** What one visited text node becomes: itself, or the three pieces around
    one sentence taken out of the set. *)
Lemma visitText_cases total st t :
  visitText total st t = (st, [Text t])
  \/ exists s i,
       In s (sentenceSet st) /\ indexOf s t = Some i /\
       highlights st < total /\
       visitText total st t =
         (mkH (setDelete s (sentenceSet st)) (S (highlights st)) (S (nextId st)),
          [Text (firstn i t); Elem (nextId st) [MARKER] (setTextContent s);
           Text (skipn (i + length s) t)]).
Proof.
  unfold visitText. destruct (total <=? highlights st) eqn:El; [left; reflexivity|].
  destruct (firstMatch t (sentenceSet st)) as [[s i]|] eqn:E; [|left; reflexivity].
  right. exists s, i. apply firstMatch_spec in E as [Hin Hi].
  apply Nat.leb_gt in El. auto.
Qed.

Lemma markerTexts_span b i s a :
  markerTexts [Text b; Elem i [MARKER] (setTextContent s); Text a] = [s].
Proof.
  unfold markerTexts. cbn [flat_map markerTextsOf]. rewrite marker_class.
  fold (textOf (setTextContent s)). rewrite textOf_setTextContent.
  destruct s; reflexivity.
Qed.

Lemma visitText_perm total st t :
  Permutation
    (markerTexts (snd (visitText total st t)) ++ sentenceSet (fst (visitText total st t)))
    (sentenceSet st).
Proof.
  destruct (visitText_cases total st t) as [->|[s [i [Hin [_ [_ ->]]]]]].
  - reflexivity.
  - cbn [fst snd sentenceSet]. rewrite markerTexts_span.
    apply setDelete_perm, Hin.
Qed.

Lemma visitAll_perm_from total : forall l st,
  Forall (fun n => forall st,
    Permutation
      (markerTexts (snd (visit total st n)) ++ sentenceSet (fst (visit total st n)))
      (markerTextsOf n ++ sentenceSet st)) l ->
  Permutation
    (markerTexts (snd (visitAll total st l)) ++ sentenceSet (fst (visitAll total st l)))
    (markerTexts l ++ sentenceSet st).
Proof.
  induction l as [|k r IH]; intros st H; [reflexivity|].
  inversion H as [|? ? Hk Hr]; subst.
  cbn [visitAll]. specialize (Hk st).
  destruct (visit total st k) as [st1 k'].
  specialize (IH st1 Hr).
  destruct (visitAll total st1 r) as [st2 r'].
  cbn [fst snd] in *.
  rewrite markerTexts_app, markerTexts_cons, <- !app_assoc.
  rewrite IH, Permutation_app_swap_app, Hk, Permutation_app_swap_app.
  reflexivity.
Qed.

Lemma visit_perm total : forall n st,
  Permutation
    (markerTexts (snd (visit total st n)) ++ sentenceSet (fst (visit total st n)))
    (markerTextsOf n ++ sentenceSet st).
Proof.
  induction n as [s|i c ks IH] using node_ind; intros st.
  - apply visitText_perm.
  - rewrite visit_Elem.
    pose proof (visitAll_perm_from total ks st IH) as H.
    pose proof (textOf_visitAll total ks st) as Ht.
    destruct (visitAll total st ks) as [st' ks'].
    cbn [fst snd] in *. rewrite markerTexts_cons.
    cbn [markerTextsOf markerTexts flat_map]. rewrite !app_nil_r.
    fold (textOf ks') (textOf ks) (markerTexts ks') (markerTexts ks).
    rewrite Ht, <- !app_assoc. apply Permutation_app_head, H.
Qed.

Lemma visitAll_perm total l st :
  Permutation
    (markerTexts (snd (visitAll total st l)) ++ sentenceSet (fst (visitAll total st l)))
    (markerTexts l ++ sentenceSet st).
Proof.
  apply visitAll_perm_from, Forall_forall. intros n _. apply visit_perm.
Qed.

Lemma setDelete_length s : forall cands,
  In s cands -> S (length (setDelete s cands)) = length cands.
Proof.
  intros cands H. apply (Permutation_length (setDelete_perm s cands H)).
Qed.

Lemma visitText_count total st t :
  highlights (fst (visitText total st t)) + length (sentenceSet (fst (visitText total st t)))
  = highlights st + length (sentenceSet st).
Proof.
  destruct (visitText_cases total st t) as [->|[s [i [Hin [_ [_ ->]]]]]];
    [reflexivity|].
  cbn [fst highlights sentenceSet]. rewrite <- (setDelete_length s _ Hin). lia.
Qed.

Lemma visitAll_count_from total : forall l st,
  Forall (fun n => forall st,
    highlights (fst (visit total st n)) + length (sentenceSet (fst (visit total st n)))
    = highlights st + length (sentenceSet st)) l ->
  highlights (fst (visitAll total st l)) + length (sentenceSet (fst (visitAll total st l)))
  = highlights st + length (sentenceSet st).
Proof.
  induction l as [|k r IH]; intros st H; [reflexivity|].
  inversion H as [|? ? Hk Hr]; subst.
  cbn [visitAll]. specialize (Hk st).
  destruct (visit total st k) as [st1 k'].
  specialize (IH st1 Hr).
  destruct (visitAll total st1 r) as [st2 r'].
  cbn [fst] in *. lia.
Qed.

Lemma visit_count total : forall n st,
  highlights (fst (visit total st n)) + length (sentenceSet (fst (visit total st n)))
  = highlights st + length (sentenceSet st).
Proof.
  induction n as [s|i c ks IH] using node_ind; intros st.
  - apply visitText_count.
  - rewrite visit_Elem.
    pose proof (visitAll_count_from total ks st IH) as H.
    destruct (visitAll total st ks) as [st' ks']. exact H.
Qed.

Lemma visitAll_count total l st :
  highlights (fst (visitAll total st l)) + length (sentenceSet (fst (visitAll total st l)))
  = highlights st + length (sentenceSet st).
Proof.
  apply visitAll_count_from, Forall_forall. intros n _. apply visit_count.
Qed.

(** ** The set of sentences *)

Lemma setAdd_In x : forall s y, In y (setAdd x s) <-> y = x \/ In y s.
Proof.
  induction s as [|z r IH]; intros y; cbn [setAdd].
  - cbn. intuition.
  - destruct (str_eqb x z) eqn:E.
    + apply str_eqb_eq in E. subst. cbn. intuition.
    + cbn. rewrite IH. intuition.
Qed.

Lemma setAdd_NoDup x : forall s, NoDup s -> NoDup (setAdd x s).
Proof.
  induction s as [|z r IH]; intros H; cbn [setAdd].
  - constructor; [intros []|constructor].
  - destruct (str_eqb x z) eqn:E; [exact H|].
    inversion H; subst. constructor; [|apply IH; assumption].
    rewrite setAdd_In. intros [->|Hin]; [|contradiction].
    rewrite str_eqb_refl in E. discriminate.
Qed.

Lemma setOf_from_NoDup : forall l acc,
  NoDup acc -> NoDup (fold_left (fun s x => setAdd x s) l acc).
Proof.
  induction l as [|x l IH]; intros acc H; [exact H|].
  cbn [fold_left]. apply IH, setAdd_NoDup, H.
Qed.

Lemma setOf_from_In : forall l acc y,
  In y (fold_left (fun s x => setAdd x s) l acc) <-> In y acc \/ In y l.
Proof.
  induction l as [|x l IH]; intros acc y; cbn [fold_left].
  - cbn. intuition.
  - rewrite IH, setAdd_In. cbn. intuition.
Qed.

Lemma setOf_NoDup l : NoDup (setOf l).
Proof. apply setOf_from_NoDup. constructor. Qed.

Lemma setOf_In l y : In y (setOf l) <-> In y l.
Proof. unfold setOf. rewrite setOf_from_In. cbn. intuition. Qed.


End Document.

(* ================================================================== *)
(** * Statements about the highlight injector and remover              *)
(* ================================================================== *)


(** [C8].  In a document whose elements are distinct, the remover leaves
    no marker, so that a second call changes nothing; it changes nothing
    either when there is no marker at all; and the turn of its loop for a
    marker that is no longer in the document leaves the document as it
    is. *)
Theorem remover_idempotent (d : document) :
  NoDup (docIds d) ->
  removeHighlights (removeHighlights d) = removeHighlights d
  /\ querySelectorAll (removeHighlights d) = []
  /\ (querySelectorAll d = [] -> removeHighlights d = d)
  /\ (forall x, ~ In x (docIds d) -> replaceInDoc x d = d).
Proof.
  intros Hn.
  pose proof (removeHighlights_clears d Hn) as Hc.
  split; [apply removeHighlights_no_markers, Hc|].
  split; [exact Hc|].
  split; [apply removeHighlights_no_markers|].
  intros x. apply replaceInDoc_absent.
Qed.

Lemma nested_distinct : NoDup (docIds nested).
Proof.
  change (docIds nested) with [1; 2; 3].
  repeat (constructor; [cbn; intuition discriminate|]). constructor.
Qed.

Lemma remover_idempotent_witness :
  removeHighlights (removeHighlights nested) = removeHighlights nested
  /\ querySelectorAll nested = [2; 3]
  /\ removeHighlights nested
     = [Text (lit "Hello world. ");
        Elem 1 [] [Text (lit "Cats are here. Dogs too.old inner tail")];
        Text (lit "end")].
Proof.
  split; [apply (remover_idempotent nested), nested_distinct|].
  split; reflexivity.
Defined.



(* ================================================================== *)
(** * The fallback chain of the background worker                      *)
(* ================================================================== *)

Section Orchestrator.

Import Background.

Lemma isBlank_compose bullets highlights :
  isBlank (compose bullets highlights) = false.
Proof.
  unfold compose. rewrite !isBlank_app.
  change (isBlank DELIMITER) with false.
  rewrite andb_false_l, !andb_false_r. reflexivity.
Qed.

Lemma nonblank_truthy s : isBlank s = false -> truthy s = true.
Proof. destruct s; [discriminate|reflexivity]. Qed.

Lemma extractive_nonblank text maxBullets maxHighlights :
  isBlank text = false ->
  extractiveSummarize text maxBullets maxHighlights
    = raw (summarizeSentences (segment text) maxBullets maxHighlights)
  /\ truthy (extractiveSummarize text maxBullets maxHighlights) = true
  /\ truthy (trim (extractiveSummarize text maxBullets maxHighlights)) = true.
Proof.
  intros Hb. unfold extractiveSummarize.
  rewrite (nonblank_truthy _ Hb).
  assert (Ht : truthy (trim text) = true)
    by (apply truthy_nonempty, trim_nonblank, Hb).
  rewrite Ht. cbn [negb orb].
  pose proof (segment_nonblank _ Hb) as Hs.
  destruct (segment text) as [|s0 r] eqn:Es; [congruence|].
  cbn [length Nat.eqb]. split; [reflexivity|].
  rewrite raw_is_compose_shared. split.
  - apply nonblank_truthy, isBlank_compose.
  - apply truthy_nonempty, trim_nonblank, isBlank_compose.
Qed.

Lemma extractive_blank text maxBullets maxHighlights :
  isBlank text = true ->
  extractiveSummarize text maxBullets maxHighlights = [].
Proof.
  intros Hb. unfold extractiveSummarize. rewrite (trim_blank _ Hb).
  cbn [truthy negb]. rewrite orb_true_r. reflexivity.
Qed.

Lemma pickSentence_In qWords sents dflt :
  sents <> [] -> forallb truthy sents = true ->
  In (pickSentence qWords sents dflt) sents.
Proof.
  intros Hne Ht. rewrite forallb_forall in Ht. unfold pickSentence.
  assert (Hf : In (orElse
                     (find (fun s => 6 <? length (splitOn isSpaceChar s)) sents)
                     (orElse (nth_error sents 0) dflt)) sents).
  { destruct (find _ sents) as [s|] eqn:E.
    - apply find_some in E as [Hs _]. cbn [orElse]. rewrite (Ht _ Hs). exact Hs.
    - cbn [orElse]. destruct sents as [|s0 r]; [congruence|].
      cbn [nth_error orElse]. rewrite (Ht s0 (or_introl eq_refl)).
      left. reflexivity. }
  cbv zeta.
  destruct (nth_error (sortDesc snd (map (fun s => (s, matchScore qWords s))
                                        sents)) 0) as [best|] eqn:Eb;
    [|exact Hf].
  destruct (0 <? snd best); [|exact Hf].
  apply nth_error_In, sortDesc_In, in_map_iff in Eb as [s [<- Hs]]. exact Hs.
Qed.

Lemma segment_all_truthy text : forallb truthy (segment text) = true.
Proof. apply filter_truthy_all. Qed.

Lemma extractiveAnswer_nonempty text question :
  extractiveAnswer text question <> [].
Proof.
  unfold extractiveAnswer.
  destruct (segment text) as [|s0 r] eqn:Es; [discriminate|].
  pose proof (pickSentence_In (questionWords question) (s0 :: r) NO_ANSWER) as H.
  rewrite <- Es in *. specialize (H ltac:(rewrite Es; discriminate)
                                     (segment_all_truthy text)).
  apply (segment_truthy text), truthy_nonempty in H. exact H.
Qed.

(** [C1], as the spec states it, fails for the summarize task: the
    extracted text " " is not empty, both model tiers fail, and the
    response is an error. *)
Lemma blank_page_is_an_error :
  truthy (lit " ") = true /\
  snd (summarize offline false (lit " ") freshWorld)
  = Error (lit "Gemini Nano not supported on this device or context: window.ai not available").
Proof. split; reflexivity. Qed.

(** [C1] (amended).  The tiers are invoked in the order on-device model,
    page-context model, extractive fallback; a tier is invoked only when
    the tiers before it have thrown, and the first that succeeds gives the
    response.  When both model tiers throw, the summarize task answers
    with status ok, source extractive-fallback and a non-empty text if the
    page text holds a code unit that is not white space, and with an
    error if it holds none; the ask task always answers with status ok,
    source extractive-fallback and a non-empty answer.  No other case
    gives an error. *)
Theorem fallback_chain (S : services) (mock : bool)
  (question extracted url : list ascii) (now : nat) (w : world) :
  let text := firstn LIMIT extracted in
  let sp := summarizePrompt text in
  let ap := askPrompt question text in
  let rs := summarize S mock extracted w in
  let ra := ask S false question extracted url now w in
  let chain := [OnDevice; PageContext; ExtractiveFallback] in
  (exists n, 1 <= n /\ calls (fst rs) = calls w ++ firstn n chain)
  /\ (exists n, 1 <= n /\ calls (fst ra) = calls w ++ firstn n chain)
  /\ (forall t, callChromeAI S sp 400 = Returns t ->
     calls (fst rs) = calls w ++ [OnDevice]
     /\ snd rs = OkText t (lit "chrome.ai"))
  /\ (forall e t, callChromeAI S sp 400 = Throws e ->
        callWindowAIInPage S sp 400 = Returns t ->
     calls (fst rs) = calls w ++ [OnDevice; PageContext]
     /\ snd rs = OkText t (lit "window.ai"))
  /\ (forall e e2, callChromeAI S sp 400 = Throws e ->
        callWindowAIInPage S sp 400 = Throws e2 ->
     calls (fst rs) = calls w ++ [OnDevice; PageContext; ExtractiveFallback]
     /\ (isBlank text = false ->
         snd rs = OkText (extractiveSummarize text 4 4)
                    (lit "extractive-fallback")
         /\ extractiveSummarize text 4 4 <> [])
     /\ (isBlank text = true ->
         snd rs = Error
           (lit "Gemini Nano not supported on this device or context: "
            ++ describe e2)))
  /\ (forall m, snd rs = Error m ->
        exists e e2, callChromeAI S sp 400 = Throws e
          /\ callWindowAIInPage S sp 400 = Throws e2
          /\ extractiveSummarize text 4 4 = [])
  /\ (forall t, callChromeAI S ap 300 = Returns t ->
     calls (fst ra) = calls w ++ [OnDevice]
     /\ snd ra = OkAnswer t (lit "chrome.ai"))
  /\ (forall e t, callChromeAI S ap 300 = Throws e ->
        callWindowAIInPage S ap 300 = Returns t ->
     calls (fst ra) = calls w ++ [OnDevice; PageContext]
     /\ snd ra = OkAnswer t (lit "window.ai"))
  /\ (forall e e2, callChromeAI S ap 300 = Throws e ->
        callWindowAIInPage S ap 300 = Throws e2 ->
     calls (fst ra) = calls w ++ [OnDevice; PageContext; ExtractiveFallback]
     /\ snd ra = OkAnswer (extractiveAnswer text question)
                   (lit "extractive-fallback")
     /\ extractiveAnswer text question <> [])
  /\ (forall m, snd ra <> Error m).
Proof.
  intros text sp ap rs ra chain. subst rs ra chain. unfold summarize, ask.
  fold text. fold sp. fold ap. cbv zeta.
  split; [|split; [|split; [|split; [|split; [|split; [|split;
    [|split; [|split]]]]]]]].
  - destruct (callChromeAI S sp 400) as [t|e];
      [exists 1; split; [lia|reflexivity]|].
    destruct (callWindowAIInPage S sp 400) as [t|e2].
    + exists 2. split; [lia|]. cbn [fst calls invoke firstn].
      rewrite <- app_assoc. reflexivity.
    + exists 3. split; [lia|].
      destruct (truthy (extractiveSummarize text 4 4)
                && truthy (trim (extractiveSummarize text 4 4)));
        cbn [fst calls invoke firstn]; rewrite <- !app_assoc; reflexivity.
  - destruct (callChromeAI S ap 300) as [t|e];
      [exists 1; split; [lia|reflexivity]|].
    destruct (callWindowAIInPage S ap 300) as [t|e2].
    + exists 2. split; [lia|]. cbn [fst calls invoke persist firstn].
      rewrite <- app_assoc. reflexivity.
    + exists 3. split; [lia|]. cbn [fst calls invoke persist firstn].
      rewrite <- !app_assoc. reflexivity.
  - intros t H. rewrite H. split; reflexivity.
  - intros e t H H0. rewrite H, H0. cbn [fst snd calls invoke].
    rewrite <- app_assoc. split; reflexivity.
  - intros e e2 H H0. rewrite H, H0. split; [|split].
    + destruct (truthy (extractiveSummarize text 4 4)
                && truthy (trim (extractiveSummarize text 4 4)));
        cbn [fst calls invoke]; rewrite <- !app_assoc; reflexivity.
    + intros Hb. destruct (extractive_nonblank text 4 4 Hb) as [_ [Ht Htt]].
      rewrite Ht, Htt. split; [reflexivity|]. apply truthy_nonempty, Ht.
    + intros Hb. rewrite (extractive_blank text 4 4 Hb). reflexivity.
  - intros m H.
    destruct (callChromeAI S sp 400) as [t|e]; [discriminate H|].
    destruct (callWindowAIInPage S sp 400) as [t|e2]; [discriminate H|].
    exists e, e2. split; [reflexivity|]. split; [reflexivity|].
    destruct (isBlank text) eqn:Eb; [apply extractive_blank, Eb|].
    destruct (extractive_nonblank text 4 4 Eb) as [_ [Ht Htt]].
    rewrite Ht, Htt in H. discriminate H.
  - intros t H. rewrite H. split; reflexivity.
  - intros e t H H0. rewrite H, H0. cbn [fst snd calls invoke persist].
    rewrite <- app_assoc. split; reflexivity.
  - intros e e2 H H0. rewrite H, H0. cbn [fst snd calls invoke persist].
    rewrite <- !app_assoc. split; [reflexivity|]. split; [reflexivity|].
    apply extractiveAnswer_nonempty.
  - intros m.
    destruct (callChromeAI S ap 300); [discriminate|].
    destruct (callWindowAIInPage S ap 300); discriminate.
Qed.

Lemma fallback_chain_witness :
  snd (summarize offline false menagerie freshWorld)
    = OkText (extractiveSummarize (firstn LIMIT menagerie) 4 4)
        (lit "extractive-fallback")
  /\ snd (ask offline false (lit "Can birds fly?") menagerie
            (lit "https://example.org/") 7 freshWorld)
    = OkAnswer (lit "Birds can fly.") (lit "extractive-fallback").
Proof.
  pose proof (fallback_chain offline false (lit "Can birds fly?") menagerie
                (lit "https://example.org/") 7 freshWorld) as H.
  cbv zeta in H.
  destruct H as [_ [_ [_ [_ [Hs [_ [_ [_ [Ha _]]]]]]]]].
  split.
  - apply (Hs _ _ eq_refl eq_refl). vm_compute. reflexivity.
  - rewrite (proj1 (proj2 (Ha _ _ eq_refl eq_refl))). vm_compute. reflexivity.
Defined.

(** ** Mock mode *)

(** [C5]: the summarize branch of the background handler does not read the
    mock flag.  With the flag set, the on-device tier is invoked and its
    output, which depends on the page, is the response. *)
Theorem summarize_ignores_mock :
  (forall S extracted w,
     summarize S true extracted w = summarize S false extracted w)
  /\ summarize echo true (lit "page one") freshWorld
     = (mkWorld [OnDevice] [],
        OkText (summarizePrompt (lit "page one")) (lit "chrome.ai"))
  /\ snd (summarize echo true (lit "page one") freshWorld)
     <> snd (summarize echo true (lit "page two") freshWorld).
Proof.
  split; [reflexivity|]. split; [reflexivity|].
  vm_compute. discriminate.
Qed.

(** The ask branch honours the flag: no tier is invoked, the answer is the
    template around the question, and it is appended to the history. *)
Lemma ask_mock S question extracted url now w :
  ask S true question extracted url now w
  = (persist url question (mockAnswer question) (lit "mock") now w,
     OkAnswer (mockAnswer question) (lit "mock"))
  /\ calls (fst (ask S true question extracted url now w)) = calls w
  /\ (exists before,
        get (store (fst (ask S true question extracted url now w)))
          (historyKey url)
        = Some (StoredHistory
                  (before ++ [mkEntry question (mockAnswer question) now
                                (Some (lit "mock"))])))
  /\ mockAnswer question
     = lit "MOCK ANSWER: simulated response to " ++ [DQUOTE] ++ question
       ++ [DQUOTE].
Proof.
  unfold ask. cbn [fst snd persist calls store]. repeat split.
  unfold pushHistory, set. cbn [get]. rewrite str_eqb_refl.
  eexists. reflexivity.
Qed.

(** In the content script the mock summary is the fixed one whatever the
    page holds; its highlights go through [highlightSentences] and the
    result is stored under the address of the page. *)
Lemma extract_and_summarize_mock text url now p :
  let r := ContentScript.extract_and_summarize true text url now p in
  let data := mkPageData (bullets ContentScript.fake)
                (Shared.highlights ContentScript.fake)
                (raw ContentScript.fake) now in
  snd r = ContentScript.OkData data false
  /\ ContentScript.pg_document (fst r)
     = highlightSentences (Shared.highlights ContentScript.fake)
         (ContentScript.pg_document p)
  /\ get (ContentScript.pg_storage (fst r)) url = Some (StoredPage data).
Proof.
  cbv zeta. unfold ContentScript.extract_and_summarize.
  cbn [fst snd ContentScript.pg_document ContentScript.pg_storage].
  split; [reflexivity|]. split; [reflexivity|].
  unfold set. cbn [get]. rewrite str_eqb_refl. reflexivity.
Qed.

End Orchestrator.

(* ================================================================== *)
(** * More on the extractive summarizer                                *)
(* ================================================================== *)

Section SortFacts.

Context {A : Type} (score : A -> nat).

Lemma insertDesc_perm x : forall l, Permutation (insertDesc score x l) (x :: l).
Proof.
  induction l as [|y r IH]; cbn [insertDesc]; [reflexivity|].
  destruct (score x <? score y); [|reflexivity].
  rewrite IH. apply perm_swap.
Qed.

Lemma sortDesc_perm : forall l, Permutation (sortDesc score l) l.
Proof.
  induction l as [|x r IH]; cbn [sortDesc]; [reflexivity|].
  rewrite insertDesc_perm, IH. reflexivity.
Qed.

Lemma sortDesc_length l : length (sortDesc score l) = length l.
Proof. apply Permutation_length, sortDesc_perm. Qed.

Lemma insertDesc_sorted x : forall l,
  StronglySorted (fun a b => score b <= score a) l ->
  StronglySorted (fun a b => score b <= score a) (insertDesc score x l).
Proof.
  induction l as [|y r IH]; intros H; cbn [insertDesc].
  - repeat constructor.
  - inversion H as [|? ? Hr Hy]; subst.
    destruct (score x <? score y) eqn:E.
    + apply Nat.ltb_lt in E. constructor; [apply IH, Hr|].
      apply Forall_forall. intros z Hz. apply insertDesc_In in Hz as [->|Hz].
      * lia.
      * rewrite Forall_forall in Hy. apply Hy, Hz.
    + apply Nat.ltb_ge in E. constructor; [exact H|].
      constructor; [exact E|]. rewrite Forall_forall in *.
      intros z Hz. specialize (Hy z Hz). lia.
Qed.

Lemma sortDesc_sorted : forall l,
  StronglySorted (fun a b => score b <= score a) (sortDesc score l).
Proof.
  induction l as [|x r IH]; cbn [sortDesc]; [constructor|].
  apply insertDesc_sorted, IH.
Qed.

(** The sort is stable: elements of one score keep their order. *)
Lemma insertDesc_stable k x : forall l,
  filter (fun y => score y =? k) (insertDesc score x l)
  = filter (fun y => score y =? k) (x :: l).
Proof.
  induction l as [|y r IH]; cbn [insertDesc]; [reflexivity|].
  destruct (score x <? score y) eqn:E; [|reflexivity].
  apply Nat.ltb_lt in E. cbn [filter] in *. rewrite IH.
  destruct (score x =? k) eqn:Ex, (score y =? k) eqn:Ey; try reflexivity.
  apply Nat.eqb_eq in Ex, Ey. lia.
Qed.

Lemma sortDesc_stable k : forall l,
  filter (fun y => score y =? k) (sortDesc score l)
  = filter (fun y => score y =? k) l.
Proof.
  induction l as [|x r IH]; cbn [sortDesc]; [reflexivity|].
  rewrite insertDesc_stable. cbn [filter]. rewrite IH. reflexivity.
Qed.

End SortFacts.

Section Summarizer.

Lemma In_firstn {A} n : forall (l : list A) x, In x (firstn n l) -> In x l.
Proof.
  intros l x H. rewrite <- (firstn_skipn n l). apply in_or_app. left. exact H.
Qed.

Lemma In_skipn {A} n : forall (l : list A) x, In x (skipn n l) -> In x l.
Proof.
  intros l x H. rewrite <- (firstn_skipn n l). apply in_or_app. right. exact H.
Qed.

Lemma scoreAll_fst sents : map fst (scoreAll sents) = sents.
Proof.
  unfold scoreAll. rewrite map_map. cbn [fst]. apply map_id.
Qed.

Lemma sorted_sentence text x :
  In x (sortDesc snd (scoreAll (segment text))) -> In (fst x) (segment text).
Proof.
  intros H. apply sortDesc_In in H.
  rewrite <- (scoreAll_fst (segment text)). apply in_map, H.
Qed.

(** On sentences of the segmenter the second normalization of the bullets
    changes nothing. *)
Lemma bullets_of_sorted text maxBullets :
  map (fun x => trim (collapseSpaces (fst x)))
    (firstn maxBullets (sortDesc snd (scoreAll (segment text))))
  = map fst (firstn maxBullets (sortDesc snd (scoreAll (segment text)))).
Proof.
  apply map_ext_in. intros x Hx.
  assert (Ht : tidy (fst x) = true).
  { apply (segment_tidy text), sorted_sentence.
    apply (In_firstn maxBullets), Hx. }
  destruct (tidy_fixed _ Ht) as [_ [Et Ec]]. rewrite Ec. exact Et.
Qed.

Lemma summarizeText_cases text maxBullets maxHighlights :
  (segment text = [] /\
   ContentScript.summarizeText text maxBullets maxHighlights = emptySummary)
  \/ (segment text <> [] /\
      ContentScript.summarizeText text maxBullets maxHighlights
      = summarizeSentences (segment text) maxBullets maxHighlights).
Proof.
  unfold ContentScript.summarizeText. destruct text as [|c r].
  - left. split; reflexivity.
  - cbn [truthy negb]. destruct (segment (c :: r)) as [|s0 ss] eqn:E.
    + left. split; reflexivity.
    + right. split; [discriminate|reflexivity].
Qed.

Lemma arrayIncludes_In l x : arrayIncludes l x = true <-> In x l.
Proof.
  unfold arrayIncludes. rewrite existsb_exists. split.
  - intros [y [Hy E]]. apply str_eqb_eq in E. subst. exact Hy.
  - intros H. exists x. split; [exact H|apply str_eqb_refl].
Qed.

Lemma arrayIncludes_not_In l x : arrayIncludes l x = false <-> ~ In x l.
Proof.
  rewrite <- arrayIncludes_In. destruct (arrayIncludes l x); split;
    congruence.
Qed.

(** What the collecting loop adds: sentences in score order that are not
    bullets and have at least 6 pieces between SPACEs. *)
Lemma collectHighlights_spec bullets maxHighlights : forall scored hl,
  exists extra,
    collectHighlights bullets maxHighlights scored hl = hl ++ extra
    /\ Forall (fun e => In e (map fst scored) /\ ~ In e bullets
                        /\ 6 <= length (splitOn isSpaceChar e)) extra.
Proof.
  induction scored as [|item rest IH]; intros hl.
  - exists []. split; [symmetry; apply app_nil_r|constructor].
  - cbn [collectHighlights].
    destruct (maxHighlights <=? length hl);
      [exists []; split; [symmetry; apply app_nil_r|constructor]|].
    destruct (arrayIncludes bullets (fst item)) eqn:Eb.
    { destruct (IH hl) as [extra [E F]]. exists extra. split; [exact E|].
      eapply Forall_impl; [|exact F]. cbn. intuition. }
    destruct (length (splitOn isSpaceChar (fst item)) <? 6) eqn:El.
    { destruct (IH hl) as [extra [E F]]. exists extra. split; [exact E|].
      eapply Forall_impl; [|exact F]. cbn. intuition. }
    destruct (IH (hl ++ [fst item])) as [extra [E F]].
    exists (fst item :: extra). split.
    + rewrite E, <- app_assoc. reflexivity.
    + constructor.
      * split; [left; reflexivity|]. split.
        -- apply arrayIncludes_not_In, Eb.
        -- apply Nat.ltb_ge, El.
      * eapply Forall_impl; [|exact F]. cbn. intuition.
Qed.

Lemma skipn_nth {A} (d : A) : forall n l,
  n < length l -> skipn n l = nth n l d :: skipn (S n) l.
Proof.
  induction n as [|n IH]; intros [|x l] H; cbn in H; try lia.
  - reflexivity.
  - cbn [skipn nth]. rewrite IH by lia. reflexivity.
Qed.

(** The padding loop copies the bullets found from position
    [highlights.length] on. *)
Lemma padHighlights_spec : forall n bullets hl,
  n = 0 \/ length hl + n <= length bullets ->
  padHighlights n bullets hl = hl ++ firstn n (skipn (length hl) bullets).
Proof.
  induction n as [|n IH]; intros bullets hl H; cbn [padHighlights].
  - cbn. symmetry. apply app_nil_r.
  - rewrite IH by (rewrite length_app; cbn; lia).
    assert (length hl < length bullets) by lia.
    rewrite length_app. cbn [length]. rewrite Nat.add_1_r.
    rewrite (skipn_nth [] (length hl) bullets) by lia.
    cbn [firstn]. unfold at_or_empty. rewrite <- app_assoc. reflexivity.
Qed.

Lemma summarizeSentences_highlights text maxBullets maxHighlights :
  let r := summarizeSentences (segment text) maxBullets maxHighlights in
  exists collected,
    Shared.highlights r
    = collected
      ++ firstn (Nat.min maxHighlights (length (bullets r)) - length collected)
           (skipn (length collected) (bullets r))
    /\ Forall (fun h => In h (segment text) /\ ~ In h (bullets r)
                        /\ 6 <= length (tokens h)) collected.
Proof.
  cbv zeta. unfold summarizeSentences. cbn [Shared.highlights bullets].
  set (sorted := sortDesc snd (scoreAll (segment text))).
  set (bs := map (fun x => trim (collapseSpaces (fst x)))
               (firstn maxBullets sorted)).
  destruct (collectHighlights_spec bs maxHighlights sorted [])
    as [collected [E F]].
  cbn [app] in E. rewrite E. exists collected. split.
  - apply padHighlights_spec. lia.
  - eapply Forall_impl; [|exact F]. cbn. intros h [Hin [Hb Hl]].
    assert (Hs : In h (segment text)).
    { apply in_map_iff in Hin as [x [<- Hx]]. apply sorted_sentence, Hx. }
    split; [exact Hs|]. split; [exact Hb|].
    rewrite (tidy_tokens h (segment_tidy text h Hs)). exact Hl.
Qed.

Lemma summarizeSentences_sentences text maxBullets maxHighlights :
  let r := summarizeSentences (segment text) maxBullets maxHighlights in
  Forall (fun b => In b (segment text)) (bullets r)
  /\ Forall (fun h => In h (segment text)) (Shared.highlights r).
Proof.
  cbv zeta.
  assert (Hb : Forall (fun b => In b (segment text))
                 (bullets (summarizeSentences (segment text) maxBullets
                             maxHighlights))).
  { unfold summarizeSentences. cbn [bullets]. rewrite bullets_of_sorted.
    apply Forall_forall. intros b Hb. apply in_map_iff in Hb as [x [<- Hx]].
    apply sorted_sentence, (In_firstn maxBullets), Hx. }
  split; [exact Hb|].
  destruct (summarizeSentences_highlights text maxBullets maxHighlights)
    as [collected [-> F]].
  apply Forall_app. split.
  - eapply Forall_impl; [|exact F]. cbn. intuition.
  - rewrite Forall_forall in *. intros h Hh.
    apply Hb, (In_skipn (length collected)), (In_firstn _ _ _ Hh).
Qed.

Lemma summarizeText_bullets_length text maxBullets maxHighlights :
  length (bullets (ContentScript.summarizeText text maxBullets maxHighlights))
  = Nat.min maxBullets (length (segment text)).
Proof.
  destruct (summarizeText_cases text maxBullets maxHighlights)
    as [[Es ->]|[Hne ->]].
  - rewrite Es. cbn. rewrite Nat.min_0_r. reflexivity.
  - unfold summarizeSentences. cbn [bullets].
    rewrite length_map, length_firstn, sortDesc_length.
    unfold scoreAll. rewrite length_map. reflexivity.
Qed.

Lemma summarizeText_sentences text maxBullets maxHighlights :
  let r := ContentScript.summarizeText text maxBullets maxHighlights in
  Forall (fun b => In b (segment text)) (bullets r)
  /\ Forall (fun h => In h (segment text)) (Shared.highlights r).
Proof.
  cbv zeta.
  destruct (summarizeText_cases text maxBullets maxHighlights)
    as [[Es ->]|[Hne ->]].
  - cbn. repeat constructor.
  - apply summarizeSentences_sentences.
Qed.

(** The collecting loop in closed form: the first [maxHighlights] of the
    sentences that pass its two tests, in the order of [scored]. *)
Lemma collectHighlights_closed bullets maxHighlights : forall scored hl,
  collectHighlights bullets maxHighlights scored hl
  = hl ++ firstn (maxHighlights - length hl)
            (filter (fun s => negb (arrayIncludes bullets s)
                              && (6 <=? length (splitOn isSpaceChar s)))
               (map fst scored)).
Proof.
  induction scored as [|item rest IH]; intros hl.
  - cbn [collectHighlights map filter]. rewrite firstn_nil.
    symmetry. apply app_nil_r.
  - cbn [collectHighlights map filter].
    destruct (maxHighlights <=? length hl) eqn:El.
    { apply Nat.leb_le in El.
      replace (maxHighlights - length hl) with 0 by lia.
      cbn [firstn]. symmetry. apply app_nil_r. }
    apply Nat.leb_gt in El.
    destruct (arrayIncludes bullets (fst item)); cbn [negb andb]; [apply IH|].
    destruct (length (splitOn isSpaceChar (fst item)) <? 6) eqn:E6.
    + apply Nat.ltb_lt in E6.
      replace (6 <=? length (splitOn isSpaceChar (fst item))) with false
        by (symmetry; apply Nat.leb_gt; exact E6).
      apply IH.
    + apply Nat.ltb_ge in E6.
      replace (6 <=? length (splitOn isSpaceChar (fst item))) with true
        by (symmetry; apply Nat.leb_le; exact E6).
      rewrite IH, length_app. cbn [length].
      replace (maxHighlights - length hl)
        with (S (maxHighlights - (length hl + 1))) by lia.
      cbn [firstn]. rewrite <- app_assoc. reflexivity.
Qed.

Lemma filter_ext_In {A} (p q : A -> bool) : forall l,
  (forall x, In x l -> p x = q x) -> filter p l = filter q l.
Proof.
  induction l as [|x l IH]; intros H; [reflexivity|].
  cbn [filter]. rewrite (H x (or_introl eq_refl)).
  rewrite IH by (intros y Hy; apply H; right; exact Hy). reflexivity.
Qed.

Lemma summarizeSentences_collected text maxBullets maxHighlights :
  let r := summarizeSentences (segment text) maxBullets maxHighlights in
  let sorted := sortDesc snd (scoreAll (segment text)) in
  let collected :=
    firstn maxHighlights
      (filter (fun s => negb (arrayIncludes (bullets r) s)
                        && (6 <=? length (tokens s)))
         (map fst sorted)) in
  Shared.highlights r
  = collected
    ++ firstn (Nat.min maxHighlights (length (bullets r)) - length collected)
         (skipn (length collected) (bullets r)).
Proof.
  cbv zeta. unfold summarizeSentences. cbn [Shared.highlights bullets].
  set (sorted := sortDesc snd (scoreAll (segment text))).
  set (bs := map (fun x => trim (collapseSpaces (fst x)))
               (firstn maxBullets sorted)).
  rewrite collectHighlights_closed. cbn [app length].
  rewrite Nat.sub_0_r.
  rewrite (filter_ext_In
             (fun s => negb (arrayIncludes bs s) && (6 <=? length (tokens s)))
             (fun s => negb (arrayIncludes bs s)
                       && (6 <=? length (splitOn isSpaceChar s)))).
  - apply padHighlights_spec. lia.
  - intros s Hs. apply in_map_iff in Hs as [x [<- Hx]].
    rewrite (tidy_tokens (fst x)); [reflexivity|].
    apply (segment_tidy text), sorted_sentence, Hx.
Qed.

End Summarizer.

(* ================================================================== *)
(** * Further statements about the extractive summarizer               *)
(* ================================================================== *)

(** [X1].  Whatever the text and the bounds, the bullets and the
    highlights of [summarizeText] are sentences of the text, taken
    verbatim from the segmenter, and the number of bullets is the smaller
    of [maxBullets] and the number of sentences. *)
Theorem summary_is_extractive (text : list ascii) (maxBullets maxHighlights : nat) :
  let r := ContentScript.summarizeText text maxBullets maxHighlights in
  length (bullets r) = Nat.min maxBullets (length (segment text))
  /\ Forall (fun b => In b (segment text)) (bullets r)
  /\ Forall (fun h => In h (segment text)) (Shared.highlights r).
Proof.
  cbv zeta. split; [apply summarizeText_bullets_length|].
  apply summarizeText_sentences.
Qed.

(** [X2].  The bullets of [summarizeText] are the first [maxBullets]
    sentences of the text sorted by decreasing score, the sort being
    stable: the sorted list holds the scored sentences of the text, no
    sentence that is left out scores more than a bullet, and sentences of
    equal score stay in the order of the text. *)
Theorem bullets_are_top_scorers (text : list ascii) (maxBullets maxHighlights : nat) :
  let scored := scoreAll (segment text) in
  let r := ContentScript.summarizeText text maxBullets maxHighlights in
  exists sorted,
    bullets r = map fst (firstn maxBullets sorted)
    /\ Permutation sorted scored
    /\ StronglySorted (fun a b => snd b <= snd a) sorted
    /\ (forall x y, In x (firstn maxBullets sorted) ->
          In y (skipn maxBullets sorted) -> snd y <= snd x)
    /\ (forall k, filter (fun x => snd x =? k) sorted
                 = filter (fun x => snd x =? k) scored).
Proof.
  cbv zeta. exists (sortDesc snd (scoreAll (segment text))).
  pose proof (sortDesc_sorted snd (scoreAll (segment text))) as Hs.
  split; [|split; [apply sortDesc_perm|split; [exact Hs|split]]].
  - destruct (summarizeText_cases text maxBullets maxHighlights)
      as [[Es ->]|[Hne ->]].
    + rewrite Es. cbn. rewrite firstn_nil. reflexivity.
    + unfold summarizeSentences. cbn [bullets]. apply bullets_of_sorted.
  - intros x y Hx Hy.
    rewrite <- (firstn_skipn maxBullets (sortDesc snd (scoreAll (segment text))))
      in Hs.
    revert Hx Hy Hs. generalize (firstn maxBullets (sortDesc snd (scoreAll (segment text)))).
    generalize (skipn maxBullets (sortDesc snd (scoreAll (segment text)))).
    intros tl hd. induction hd as [|z hd IH]; intros Hx Hy Hs; [contradiction|].
    cbn [app] in Hs. inversion Hs as [|? ? Hs' Hz]; subst.
    destruct Hx as [->|Hx]; [|apply IH; assumption].
    rewrite Forall_forall in Hz. apply Hz, in_or_app. right. exact Hy.
  - intros k. apply sortDesc_stable.
Qed.

(** [X3].  The highlights of [summarizeText] are, first, the sentences
    collected by going through the sentences in score order (the order
    of the stable descending sort of the scored sentences) and keeping,
    up to [maxHighlights], those that are not bullets and have at least
    6 words; then, when these are fewer than the smaller of
    [maxHighlights] and the number of bullets, the bullets found from
    that position on in the list of bullets.  So there are at least as
    many highlights as that smaller number. *)
Theorem highlights_then_padding (text : list ascii) (maxBullets maxHighlights : nat) :
  let r := ContentScript.summarizeText text maxBullets maxHighlights in
  let sorted := sortDesc snd (scoreAll (segment text)) in
  let collected :=
    firstn maxHighlights
      (filter (fun s => negb (arrayIncludes (bullets r) s)
                        && (6 <=? length (tokens s)))
         (map fst sorted)) in
  Shared.highlights r
  = collected
    ++ firstn (Nat.min maxHighlights (length (bullets r)) - length collected)
         (skipn (length collected) (bullets r))
  /\ Forall (fun h => In h (segment text) /\ ~ In h (bullets r)
                      /\ 6 <= length (tokens h)) collected
  /\ Nat.min maxHighlights (length (bullets r))
     <= length (Shared.highlights r).
Proof.
  cbv zeta.
  set (r := ContentScript.summarizeText text maxBullets maxHighlights).
  set (collected :=
         firstn maxHighlights
           (filter (fun s => negb (arrayIncludes (bullets r) s)
                             && (6 <=? length (tokens s)))
              (map fst (sortDesc snd (scoreAll (segment text)))))).
  assert (E : Shared.highlights r
              = collected
                ++ firstn (Nat.min maxHighlights (length (bullets r))
                           - length collected)
                     (skipn (length collected) (bullets r))).
  { subst collected r.
    destruct (summarizeText_cases text maxBullets maxHighlights)
      as [[Es ->]|[Hne ->]].
    - rewrite Es. cbn. rewrite firstn_nil, Nat.min_0_r. reflexivity.
    - apply summarizeSentences_collected. }
  split; [exact E|]. split.
  - apply Forall_forall. intros h Hh. apply In_firstn in Hh.
    apply filter_In in Hh as [Hin Hp].
    apply andb_true_iff in Hp as [Hb Hl].
    split.
    { apply in_map_iff in Hin as [x [<- Hx]]. apply sorted_sentence, Hx. }
    split.
    + apply arrayIncludes_not_In, negb_true_iff, Hb.
    + apply Nat.leb_le, Hl.
  - rewrite E, length_app, length_firstn, length_skipn. lia.
Qed.

(** [X4].  The two copies of the summarizer agree: on every text
    [extractiveSummarize] of background.js returns the [raw] field of
    [summarizeText] of content_script.js, the empty string when the text
    has no sentence. *)
Theorem extractiveSummarize_is_raw (text : list ascii) (maxBullets maxHighlights : nat) :
  Background.extractiveSummarize text maxBullets maxHighlights
  = raw (ContentScript.summarizeText text maxBullets maxHighlights)
  /\ (isBlank text = true ->
      Background.extractiveSummarize text maxBullets maxHighlights = []).
Proof.
  split; [|apply extractive_blank].
  destruct (isBlank text) eqn:Eb.
  - rewrite (extractive_blank text maxBullets maxHighlights Eb).
    destruct (summarizeText_cases text maxBullets maxHighlights)
      as [[Es ->]|[Hne _]]; [reflexivity|].
    exfalso. apply Hne, segment_blank, Eb.
  - pose proof (segment_nonblank _ Eb) as Hne.
    destruct (summarizeText_cases text maxBullets maxHighlights)
      as [[Es _]|[_ ->]]; [congruence|].
    unfold Background.extractiveSummarize.
    assert (Ht : truthy text = true) by (destruct text; [discriminate|reflexivity]).
    assert (Htt : truthy (trim text) = true)
      by (apply truthy_nonempty, trim_nonblank, Eb).
    rewrite Ht, Htt. cbn [negb orb].
    destruct (segment text); [congruence|reflexivity].
Qed.

Section FallbackWire.

Lemma tidyFrom_noLineBreak : forall s p,
  tidyFrom p s = true -> noLineBreak s = true.
Proof.
  induction s as [|c r IH]; intros p H; [reflexivity|].
  cbn [tidyFrom] in H. unfold noLineBreak. cbn [forallb].
  fold (noLineBreak r). apply andb_true_iff.
  destruct (isWhiteSpace c) eqn:Ew.
  - apply andb_true_iff in H as [H1 H3]. apply andb_true_iff in H1 as [H1 _].
    apply Ascii.eqb_eq in H1. subst c. split; [reflexivity|apply (IH _ H3)].
  - split; [|apply (IH _ H)].
    unfold isLineBreak. apply negb_true_iff, orb_false_iff. split.
    + destruct (Ascii.eqb c LF) eqn:E; [|reflexivity].
      apply Ascii.eqb_eq in E. subst c. discriminate Ew.
    + destruct (Ascii.eqb c CR) eqn:E; [|reflexivity].
      apply Ascii.eqb_eq in E. subst c. discriminate Ew.
Qed.

Lemma sentence_wireSafe text s :
  In s (segment text) -> includes s DELIMITER = false -> wireSafe s = true.
Proof.
  intros Hs Hd. pose proof (segment_tidy text s Hs) as Ht.
  destruct (tidy_fixed _ Ht) as [Hne [Etr _]].
  unfold wireSafe. rewrite Etr, str_eqb_refl, Hd.
  rewrite (tidyFrom_noLineBreak _ _ Ht).
  destruct s; [congruence|reflexivity].
Qed.

Lemma fallback_wireSafe text maxBullets maxHighlights :
  (forall s, In s (segment text) -> includes s DELIMITER = false) ->
  forallb wireSafe
    (bullets (ContentScript.summarizeText text maxBullets maxHighlights))
  = true
  /\ forallb wireSafe
       (Shared.highlights
          (ContentScript.summarizeText text maxBullets maxHighlights))
     = true.
Proof.
  intros Hd.
  destruct (summarizeText_cases text maxBullets maxHighlights)
    as [[Es ->]|[Hne ->]]; [split; reflexivity|].
  pose proof (summarizeSentences_sentences text maxBullets maxHighlights)
    as [Fb Fh].
  rewrite Forall_forall in Fb, Fh.
  split; apply forallb_forall; intros x Hin;
    apply (sentence_wireSafe text); auto.
Qed.

Lemma content_recovers bs hs :
  forallb wireSafe bs = true -> forallb wireSafe hs = true ->
  length hs <= 5 ->
  ContentScript.parseSummary (compose bs hs) = (bs, hs).
Proof.
  intros Wb Wh Hn. unfold ContentScript.parseSummary.
  rewrite (compose_parts _ _ Wb Wh). cbn [nth].
  rewrite (recover_highlights _ Wh), firstn_all2 by exact Hn.
  rewrite (recover_bullets ContentScript.stripDash); [reflexivity| |exact Wb|].
  - reflexivity.
  - intros b Hin. rewrite forallb_forall in Wb.
    apply stripDash_line, (wireSafe_parts _ (Wb b Hin)).
Qed.

Lemma popup_recovers bs hs :
  forallb wireSafe bs = true -> forallb wireSafe hs = true ->
  length bs <= 6 -> length hs <= 5 ->
  forallb (fun b => negb (startsWith [DASH] b)) bs = true ->
  Popup.parseSummary (compose bs hs) = (bs, hs).
Proof.
  intros Wb Wh Hn6 Hn Hd. unfold Popup.parseSummary.
  rewrite (compose_parts _ _ Wb Wh). cbn [nth].
  rewrite (recover_highlights _ Wh).
  rewrite (recover_bullets Popup.stripLead);
    [rewrite !firstn_all2 by assumption; reflexivity| |exact Wb|].
  - reflexivity.
  - intros b Hin. rewrite forallb_forall in Wb, Hd.
    destruct (wireSafe_parts _ (Wb b Hin)) as [Ht [He _]].
    apply stripLead_line; [exact Ht|exact He|].
    apply negb_true_iff, (Hd b Hin).
Qed.

End FallbackWire.

(** [X5].  The text of the extractive fallback, read back by the parsers
    of the raw text, gives the bullets and highlights of [summarizeText]:
    for every page text, with [maxHighlights] at most 5 and no sentence
    holding the delimiter, the parser of content_script.js recovers the
    two lists from [extractiveSummarize]; the parser of the popup does
    when, besides, [maxBullets] is at most 6 and no sentence starts with a
    dash. *)
Theorem fallback_text_parses_back (text : list ascii) (maxBullets maxHighlights : nat) :
  maxHighlights <= 5 ->
  (forall s, In s (segment text) -> includes s DELIMITER = false) ->
  let r := ContentScript.summarizeText text maxBullets maxHighlights in
  let out := Background.extractiveSummarize text maxBullets maxHighlights in
  ContentScript.parseSummary out = (bullets r, Shared.highlights r)
  /\ (maxBullets <= 6 ->
      (forall s, In s (segment text) -> startsWith [DASH] s = false) ->
      Popup.parseSummary out = (bullets r, Shared.highlights r)).
Proof.
  intros Hn Hd. cbv zeta.
  destruct (fallback_wireSafe text maxBullets maxHighlights Hd) as [Wb Wh].
  pose proof (summarizeText_bounds text maxBullets maxHighlights) as Hlen.
  cbv zeta in Hlen. destruct Hlen as [Lb Lh].
  assert (Eraw : Background.extractiveSummarize text maxBullets maxHighlights
                 = [] /\ segment text = []
                 \/ Background.extractiveSummarize text maxBullets maxHighlights
                    = compose
                        (bullets (ContentScript.summarizeText text maxBullets
                                    maxHighlights))
                        (Shared.highlights
                           (ContentScript.summarizeText text maxBullets
                              maxHighlights))).
  { destruct (isBlank text) eqn:Eb.
    - left. split; [apply extractive_blank, Eb|apply segment_blank, Eb].
    - right.
      destruct (extractive_nonblank text maxBullets maxHighlights Eb)
        as [-> _].
      destruct (summarizeText_cases text maxBullets maxHighlights)
        as [[Es _]|[_ ->]]; [destruct (segment_nonblank _ Eb Es)|].
      apply raw_is_compose_shared. }
  destruct Eraw as [[-> Es] | ->].
  - destruct (summarizeText_cases text maxBullets maxHighlights)
      as [[_ ->]|[Hne _]]; [|contradiction].
    split; [reflexivity|]. intros _ _. reflexivity.
  - split; [apply content_recovers; try assumption; lia|].
    intros Hn6 Hdash. apply popup_recovers; try assumption; try lia.
    apply forallb_forall. intros b Hin. apply negb_true_iff, Hdash.
    pose proof (summarizeText_sentences text maxBullets maxHighlights)
      as [Fb _].
    rewrite Forall_forall in Fb. apply Fb, Hin.
Qed.

Lemma fallback_text_parses_back_witness :
  let text := lit "Dogs are mammals too.  Cats are mammals. Birds can fly." in
  Popup.parseSummary (Background.extractiveSummarize text 2 2)
  = (map lit ["Dogs are mammals too."; "Cats are mammals."]%string,
     map lit ["Dogs are mammals too."; "Cats are mammals."]%string).
Proof.
  cbv zeta.
  pose proof (fallback_text_parses_back
                (lit "Dogs are mammals too.  Cats are mammals. Birds can fly.")
                2 2) as H.
  cbv zeta in H. destruct H as [_ H].
  - lia.
  - intros s Hs. vm_compute in Hs.
    destruct Hs as [<-|[<-|[<-|[]]]]; reflexivity.
  - rewrite H.
    + reflexivity.
    + lia.
    + intros s Hs. vm_compute in Hs.
      destruct Hs as [<-|[<-|[<-|[]]]]; reflexivity.
Defined.

(* ================================================================== *)
(** * More on the question matcher                                     *)
(* ================================================================== *)

Section Excerpts.

Lemma occursIn_refl s : occursIn s s.
Proof. exists [], []. cbn. rewrite app_nil_r. reflexivity. Qed.

Lemma occursIn_trans s t u : occursIn s t -> occursIn t u -> occursIn s u.
Proof.
  intros [p1 [q1 ->]] [p2 [q2 ->]]. exists (p2 ++ p1), (q1 ++ q2).
  rewrite <- !app_assoc. reflexivity.
Qed.

Lemma occursIn_app_l s t u : occursIn s t -> occursIn s (t ++ u).
Proof.
  intros [p [q ->]]. exists p, (q ++ u). rewrite <- !app_assoc. reflexivity.
Qed.

Lemma occursIn_app_r s t u : occursIn s u -> occursIn s (t ++ u).
Proof.
  intros [p [q ->]]. exists (t ++ p), q. rewrite <- !app_assoc. reflexivity.
Qed.

Lemma occursIn_join sep : forall l s, In s l -> occursIn s (join sep l).
Proof.
  induction l as [|x r IH]; intros s H; [contradiction|].
  destruct r as [|y r'].
  - destruct H as [->|[]]. apply occursIn_refl.
  - rewrite join_cons by discriminate. destruct H as [->|H].
    + apply occursIn_app_l, occursIn_refl.
    + apply occursIn_app_r, occursIn_app_r, IH, H.
Qed.

Lemma occursIn_trim s : occursIn (trim s) s.
Proof.
  unfold trim. destruct (trimStart_suffix s) as [w [_ E]].
  destruct (trimEnd_prefix (trimStart s)) as [w' [_ E']].
  exists w, w'. rewrite <- E'. exact E.
Qed.

Lemma sentence_occurs text s :
  In s (segment text) -> occursIn s (collapseSpaces text).
Proof.
  intros H. apply (occursIn_trans _ (trim (collapseSpaces text))).
  - rewrite <- join_segment. apply occursIn_join, H.
  - apply occursIn_trim.
Qed.

Lemma matchScore_nil s : matchScore [] s = 0.
Proof. reflexivity. Qed.

(** The literal given for a page without sentence is not looked at when
    there is one. *)
Lemma pickSentence_dflt text qWords dflt dflt' :
  segment text <> [] ->
  pickSentence qWords (segment text) dflt
  = pickSentence qWords (segment text) dflt'.
Proof.
  intros Hne. unfold pickSentence.
  rewrite !(first_meaningful text _ Hne). reflexivity.
Qed.

End Excerpts.

(* ================================================================== *)
(** * Further statements about the question matcher                    *)
(* ================================================================== *)

(** [X6].  On a page that is not blank the answer of the matcher is, for
    every question, one of the sentences of the page: it is not empty,
    holds no line break, and occurs verbatim in the page text with its
    runs of white space collapsed.  Both copies of the matcher return
    it. *)
Theorem answer_is_an_excerpt (pageText question : list ascii) :
  isBlank pageText = false ->
  let a := ContentScript.answer
             (ContentScript.answerQuestion pageText question) in
  In a (segment pageText)
  /\ a <> []
  /\ noLineBreak a = true
  /\ occursIn a (collapseSpaces pageText)
  /\ Background.extractiveAnswer pageText question = a.
Proof.
  intros Hb. cbv zeta.
  pose proof (segment_nonblank _ Hb) as Hne.
  unfold ContentScript.answerQuestion, Background.extractiveAnswer.
  destruct (segment pageText) as [|s0 r] eqn:Es; [congruence|].
  cbn [length Nat.eqb ContentScript.answer]. rewrite <- Es.
  assert (Hin : In (pickSentence (questionWords question) (segment pageText) [])
                  (segment pageText)).
  { apply pickSentence_In; [rewrite Es; discriminate|apply segment_all_truthy]. }
  split; [exact Hin|]. split.
  { apply truthy_nonempty, (segment_truthy pageText), Hin. }
  split.
  { apply (tidyFrom_noLineBreak _ true), (segment_tidy pageText), Hin. }
  split; [apply sentence_occurs, Hin|].
  apply pickSentence_dflt. rewrite Es. discriminate.
Qed.

Lemma answer_is_an_excerpt_witness :
  In (ContentScript.answer
        (ContentScript.answerQuestion
           (lit "Cats are mammals.   Birds can fly.") (lit "fly?")))
     (segment (lit "Cats are mammals.   Birds can fly.")).
Proof.
  apply (answer_is_an_excerpt (lit "Cats are mammals.   Birds can fly.")
           (lit "fly?")).
  reflexivity.
Defined.

(** [X7].  A question without a word of more than two characters, the
    empty question included, is answered without looking at it: on a
    page with a sentence, both copies of the matcher return the first
    sentence with more than 6 words, or the first sentence when there is
    none. *)
Theorem wordless_question (pageText question : list ascii) :
  forallb (fun w => length w <=? 2)
    (tokens (stripNonWord (toLowerCase question))) = true ->
  segment pageText <> [] ->
  let dflt := match find (fun s => 6 <? length (tokens s)) (segment pageText) with
              | Some s => s
              | None => hd [] (segment pageText)
              end in
  questionWords question = []
  /\ ContentScript.answer (ContentScript.answerQuestion pageText question)
     = dflt
  /\ Background.extractiveAnswer pageText question = dflt.
Proof.
  intros Hw Hne. cbv zeta.
  assert (Eq : questionWords question = []).
  { rewrite questionWords_tokens.
    induction (tokens (stripNonWord (toLowerCase question))) as [|w ws IH];
      [reflexivity|].
    cbn [forallb] in Hw. apply andb_true_iff in Hw as [H1 H2].
    cbn [filter]. apply Nat.leb_le in H1.
    destruct (2 <? length w) eqn:E; [apply Nat.ltb_lt in E; lia|].
    apply IH, H2. }
  split; [exact Eq|].
  assert (P : forall dflt,
             pickSentence (questionWords question) (segment pageText) dflt
             = match find (fun s => 6 <? length (tokens s)) (segment pageText) with
               | Some s => s
               | None => hd [] (segment pageText)
               end).
  { intros dflt.
    pose proof (pickSentence_spec pageText question dflt) as H.
    cbv zeta in H. destruct (H Hne) as [_ H0]. apply H0.
    intros s _. rewrite Eq. reflexivity. }
  split.
  - unfold ContentScript.answerQuestion.
    destruct (segment pageText) as [|s0 r] eqn:Es; [congruence|].
    cbn [length Nat.eqb ContentScript.answer]. apply P.
  - unfold Background.extractiveAnswer. apply P.
Qed.

Lemma wordless_question_witness :
  Background.extractiveAnswer (lit "Cats are mammals. Birds can fly.")
    (lit "Is it so?")
  = lit "Cats are mammals.".
Proof.
  pose proof (wordless_question (lit "Cats are mammals. Birds can fly.")
                (lit "Is it so?")) as H.
  cbv zeta in H. destruct H as [_ [_ H]].
  - reflexivity.
  - vm_compute. discriminate.
  - rewrite H. reflexivity.
Defined.

(* ================================================================== *)
(** * The listener of the background worker                            *)
(* ================================================================== *)

Section WorkerFacts.

Import Extraction Background Worker.

Lemma describe_nonempty m : describe m <> [].
Proof.
  unfold describe. destruct m as [|c r]; cbn [truthy]; discriminate.
Qed.

Lemma viaScript_error i e :
  viaScript i = Failed e -> exists msg, e = Some msg /\ msg <> [].
Proof.
  destruct i as [|text error|message]; cbn [viaScript].
  - intros H. inversion H. eexists. split; [reflexivity|discriminate].
  - destruct (truthy (orElse error [])) eqn:Et; [|discriminate].
    intros H. inversion H. eexists. split; [reflexivity|].
    discriminate.
  - intros H. inversion H. eexists. split; [reflexivity|].
    apply describe_nonempty.
Qed.

Lemma extractPageText_cases m i :
  (exists text, m = Replied text
     /\ extractPageText m i = ([ByMessage], Ok (orElse text [])))
  \/ ((forall text, m <> Replied text)
      /\ extractPageText m i = ([ByMessage; ByScript], viaScript i)).
Proof.
  destruct m as [text|message|message|]; cbn.
  - left. exists text. split; reflexivity.
  - right. split; [discriminate|reflexivity].
  - right. split; [discriminate|reflexivity].
  - right. split; [discriminate|reflexivity].
Qed.

Lemma extractPageText_failed m i e :
  snd (extractPageText m i) = Failed e ->
  extractPageText m i = ([ByMessage; ByScript], Failed e)
  /\ viaScript i = Failed e
  /\ exists msg, e = Some msg /\ msg <> [].
Proof.
  destruct (extractPageText_cases m i) as [[text [_ E]]|[_ E]];
    rewrite E; cbn [snd]; intros H; [discriminate|].
  rewrite H. split; [reflexivity|]. split; [reflexivity|].
  apply (viaScript_error i), H.
Qed.

Lemma handled_cases a :
  handled a = true <-> a = lit "summarize" \/ a = lit "ask".
Proof.
  unfold handled. rewrite orb_true_iff. split.
  - intros [H|H]; apply str_eqb_eq in H; auto.
  - intros [-> | ->]; [left|right]; apply str_eqb_refl.
Qed.

(** The chain of the [ask] branch is the chain of the listener followed
    by the write to the store. *)
Lemma ask_is_answer_then_persist S mock question extracted url now w :
  ask S mock question extracted url now w
  = (persist url question
       (fst (snd (answer S mock question extracted w)))
       (snd (snd (answer S mock question extracted w))) now
       (fst (answer S mock question extracted w)),
     OkAnswer (fst (snd (answer S mock question extracted w)))
              (snd (snd (answer S mock question extracted w)))).
Proof.
  unfold ask, answer. destruct mock; [reflexivity|].
  destruct (callChromeAI S _ 300); [reflexivity|].
  destruct (callWindowAIInPage S _ 300); reflexivity.
Qed.

Lemma answer_store S mock question extracted w :
  store (fst (answer S mock question extracted w)) = store w
  /\ exists n, calls (fst (answer S mock question extracted w))
               = calls w ++ firstn n [OnDevice; PageContext; ExtractiveFallback].
Proof.
  unfold answer. destruct mock.
  - split; [reflexivity|]. exists 0. cbn. symmetry. apply app_nil_r.
  - destruct (callChromeAI S _ 300).
    + split; [reflexivity|]. exists 1. reflexivity.
    + destruct (callWindowAIInPage S _ 300).
      * split; [reflexivity|]. exists 2. cbn. rewrite <- app_assoc. reflexivity.
      * split; [reflexivity|]. exists 3. cbn. rewrite <- !app_assoc. reflexivity.
Qed.


Lemma summarize_error S mock extracted w msg :
  snd (summarize S mock extracted w) = Error msg ->
  exists e2,
    msg = lit "Gemini Nano not supported on this device or context: " ++ e2
    /\ calls (fst (summarize S mock extracted w))
       = calls w ++ [OnDevice; PageContext; ExtractiveFallback].
Proof.
  unfold summarize.
  destruct (callChromeAI S _ 400); [discriminate|].
  destruct (callWindowAIInPage S _ 400) as [t|e2]; [discriminate|].
  destruct (truthy _ && truthy _); [discriminate|].
  cbn [snd fst]. intros H. inversion H. exists (describe e2).
  split; [reflexivity|]. cbn. rewrite <- !app_assoc. reflexivity.
Qed.

Lemma get_set_same st key v : get (set st key v) key = Some v.
Proof. cbn. rewrite str_eqb_refl. reflexivity. Qed.

Lemma get_set_other st key k v :
  str_eqb k key = false -> get (set st key v) k = get st k.
Proof. intros H. cbn. rewrite H. reflexivity. Qed.

Lemma str_eqb_neq a b : a <> b -> str_eqb a b = false.
Proof.
  intros H. destruct (str_eqb a b) eqn:E; [|reflexivity].
  apply str_eqb_eq in E. contradiction.
Qed.

Lemma startsWith_app_self p s : startsWith p (p ++ s) = true.
Proof.
  induction p as [|c p IH]; [reflexivity|].
  cbn [app startsWith]. rewrite Ascii.eqb_refl. exact IH.
Qed.

Lemma not_history_key key url :
  startsWith (lit "qa_history_") key = false ->
  str_eqb key (historyKey url) = false.
Proof.
  intros H. apply str_eqb_neq. intros ->. unfold historyKey in H.
  rewrite startsWith_app_self in H. discriminate.
Qed.

End WorkerFacts.

(* ================================================================== *)
(** * Statements about the listener of the background worker           *)
(* ================================================================== *)

(** [X8].  [extractPageText] asks the content script first and runs the
    page script only when no reply came: a reply, even one without text,
    is the result and the script is not run; otherwise the result is the
    one of the script alone.  A failure is therefore always reported
    with the error of the script, never with the error of the message,
    and this error is never missing nor empty. *)
Theorem extraction_order (m : Extraction.delivery) (i : Extraction.injection) :
  let r := Extraction.extractPageText m i in
  (forall text, m = Extraction.Replied text ->
     r = ([Extraction.ByMessage], Extraction.Ok (orElse text [])))
  /\ (m = Extraction.Replied None -> snd r = Extraction.Ok [])
  /\ ((forall text, m <> Extraction.Replied text) ->
      r = ([Extraction.ByMessage; Extraction.ByScript], Extraction.viaScript i))
  /\ (forall e, snd r = Extraction.Failed e ->
        fst r = [Extraction.ByMessage; Extraction.ByScript]
        /\ Extraction.viaScript i = Extraction.Failed e
        /\ exists msg, e = Some msg /\ msg <> []).
Proof.
  cbv zeta. split; [|split; [|split]].
  - intros text ->. reflexivity.
  - intros ->. reflexivity.
  - intros Hn.
    destruct (extractPageText_cases m i) as [[text [E _]]|[_ E]];
      [destruct (Hn text E)|exact E].
  - intros e H. destruct (extractPageText_failed m i e H) as [E [Hs Hm]].
    rewrite E. split; [reflexivity|]. split; assumption.
Qed.


Lemma onMessage_summarize (b : Worker.browser) (m : Worker.message)
  (w : Background.world) (tab : nat) (text : list ascii) :
  Worker.msg_action m = lit "summarize" ->
  Worker.targetTab b m = Some tab ->
  snd (Extraction.extractPageText (Worker.br_sendMessage b tab)
         (Worker.br_pageScript b tab)) = Extraction.Ok text ->
  Worker.after (Worker.onMessage b m w)
  = fst (Background.summarize
           (Background.mkServices (Worker.br_chromeAI b)
              (Worker.br_windowAI b tab)) (Worker.msg_mock m) text w)
  /\ Worker.sent (Worker.onMessage b m w)
     = Some (snd (Background.summarize
                    (Background.mkServices (Worker.br_chromeAI b)
                       (Worker.br_windowAI b tab)) (Worker.msg_mock m)
                    text w)).
Proof.
  intros Ea Ht Hx. unfold Worker.onMessage. rewrite Ht.
  destruct (Extraction.extractPageText (Worker.br_sendMessage b tab)
              (Worker.br_pageScript b tab)) as [ps ex].
  cbn [snd] in Hx. subst ex. unfold Worker.handled. rewrite Ea.
  replace (str_eqb (lit "summarize") (lit "summarize")) with true
    by reflexivity.
  cbn [orb negb].
  destruct (Background.summarize _ _ text w) as [w1 r]. split; reflexivity.
Qed.

Lemma onMessage_ask (b : Worker.browser) (m : Worker.message)
  (w : Background.world) (tab : nat) (text : list ascii) :
  Worker.msg_action m = lit "ask" ->
  Worker.targetTab b m = Some tab ->
  snd (Extraction.extractPageText (Worker.br_sendMessage b tab)
         (Worker.br_pageScript b tab)) = Extraction.Ok text ->
  let q := orElse (Worker.msg_question m) [] in
  let ans := Worker.answer
               (Background.mkServices (Worker.br_chromeAI b)
                  (Worker.br_windowAI b tab)) (Worker.msg_mock m) q text w in
  Worker.sent (Worker.onMessage b m w)
  = Some (Background.OkAnswer (fst (snd ans)) (snd (snd ans)))
  /\ Worker.after (Worker.onMessage b m w)
     = match Worker.br_tabsGet b tab with
       | Some url =>
           Background.persist (orElse url (lit "unknown")) q
             (fst (snd ans)) (snd (snd ans)) (Worker.br_now b) (fst ans)
       | None => fst ans
       end.
Proof.
  intros Ea Ht Hx. cbv zeta. unfold Worker.onMessage. rewrite Ht.
  destruct (Extraction.extractPageText (Worker.br_sendMessage b tab)
              (Worker.br_pageScript b tab)) as [ps ex].
  cbn [snd] in Hx. subst ex. unfold Worker.handled. rewrite Ea.
  replace (str_eqb (lit "ask") (lit "summarize")) with false by reflexivity.
  replace (str_eqb (lit "ask") (lit "ask")) with true by reflexivity.
  cbn [orb negb].
  destruct (Worker.answer _ _ _ text w) as [w1 final].
  split; reflexivity.
Qed.

(** [X10].  Once the tab is known and its text extracted, the listener
    of the worker is the fallback chain: for [summarize] it sends the
    response of [summarize] and leaves its world; for [ask], when the
    address of the tab can be read, it sends the response of [ask] and
    leaves its world, the history being kept under the address, or under
    [unknown] when the tab has none; when the address cannot be read the
    same response is sent and the store is left as it was. *)
Theorem worker_runs_the_chain (b : Worker.browser) (m : Worker.message)
  (w : Background.world) (tab : nat) (text : list ascii) :
  Worker.targetTab b m = Some tab ->
  snd (Extraction.extractPageText (Worker.br_sendMessage b tab)
         (Worker.br_pageScript b tab)) = Extraction.Ok text ->
  let S := Background.mkServices (Worker.br_chromeAI b)
             (Worker.br_windowAI b tab) in
  let q := orElse (Worker.msg_question m) [] in
  let r := Worker.onMessage b m w in
  (Worker.msg_action m = lit "summarize" ->
     Worker.after r = fst (Background.summarize S (Worker.msg_mock m) text w)
     /\ Worker.sent r
        = Some (snd (Background.summarize S (Worker.msg_mock m) text w)))
  /\ (Worker.msg_action m = lit "ask" ->
      (forall url, Worker.br_tabsGet b tab = Some url ->
         Worker.after r
         = fst (Background.ask S (Worker.msg_mock m) q text
                  (orElse url (lit "unknown")) (Worker.br_now b) w)
         /\ Worker.sent r
            = Some (snd (Background.ask S (Worker.msg_mock m) q text
                           (orElse url (lit "unknown")) (Worker.br_now b) w)))
      /\ (Worker.br_tabsGet b tab = None ->
          Background.store (Worker.after r) = Background.store w
          /\ forall url now,
               Worker.sent r
               = Some (snd (Background.ask S (Worker.msg_mock m) q text url
                              now w)))).
Proof.
  intros Ht Hx. cbv zeta. split.
  - intros Ea. apply onMessage_summarize; assumption.
  - intros Ea.
    destruct (onMessage_ask b m w tab text Ea Ht Hx) as [Hs Ha].
    cbv zeta in Hs, Ha.
    pose proof (answer_store
                  (Background.mkServices (Worker.br_chromeAI b)
                     (Worker.br_windowAI b tab))
                  (Worker.msg_mock m) (orElse (Worker.msg_question m) [])
                  text w) as [Hst _].
    split.
    + intros url Hu. rewrite Hu in Ha.
      rewrite ask_is_answer_then_persist. cbn [fst snd].
      split; [exact Ha|exact Hs].
    + intros Hu. rewrite Hu in Ha. rewrite Ha.
      split; [exact Hst|].
      intros url now. rewrite ask_is_answer_then_persist. exact Hs.
Qed.

Lemma worker_runs_the_chain_witness :
  Worker.sent
    (Worker.onMessage (Scenes.offlineTab (lit "Cats purr. Dogs bark.") (lit "u"))
       (Worker.mkMessage (lit "ask") None (Some (lit "Who can bark?")) false)
       freshWorld)
  = Some (Background.OkAnswer (lit "Dogs bark.") (lit "extractive-fallback")).
Proof.
  pose proof (worker_runs_the_chain
                (Scenes.offlineTab (lit "Cats purr. Dogs bark.") (lit "u"))
                (Worker.mkMessage (lit "ask") None (Some (lit "Who can bark?"))
                   false)
                freshWorld 7 (lit "Cats purr. Dogs bark.")) as H.
  cbv zeta in H. destruct H as [_ H]; [reflexivity|reflexivity|].
  destruct H as [H _]; [reflexivity|].
  specialize (H (Some (lit "u"))).
  destruct H as [_ Hs]; [reflexivity|].
  rewrite Hs. reflexivity.
Defined.


(* ================================================================== *)
(** * The history of questions and the popup                           *)
(* ================================================================== *)

Section PopupFacts.

Import PopupView.

Lemma history_push st key e :
  history (pushHistory st key e) key = history st key ++ [e].
Proof.
  unfold history at 1, pushHistory. rewrite get_set_same.
  unfold history. destruct (get st key) as [[d|h]|]; reflexivity.
Qed.

Lemma get_push_other st key k e :
  str_eqb k key = false -> get (pushHistory st key e) k = get st k.
Proof. intros H. unfold pushHistory. apply get_set_other, H. Qed.

Lemma history_push_other st key k e :
  str_eqb k key = false -> history (pushHistory st key e) k = history st k.
Proof. intros H. unfold history. rewrite get_push_other by exact H. reflexivity. Qed.

Lemma history_pushes key : forall es st,
  history (fold_left (fun st e => pushHistory st key e) es st) key
  = history st key ++ es.
Proof.
  induction es as [|e es IH]; intros st; cbn [fold_left].
  - symmetry. apply app_nil_r.
  - rewrite IH, history_push, <- app_assoc. reflexivity.
Qed.

Lemma get_pushes_other key k : forall es st,
  str_eqb k key = false ->
  get (fold_left (fun st e => pushHistory st key e) es st) k = get st k.
Proof.
  induction es as [|e es IH]; intros st H; cbn [fold_left]; [reflexivity|].
  rewrite IH by exact H. apply get_push_other, H.
Qed.

Lemma lastFirst_rev h : lastFirst h = firstn 5 (rev h).
Proof. unfold lastFirst. symmetry. apply firstn_rev. Qed.



End PopupFacts.

(* ================================================================== *)
(** * Statements about the history and the popup                       *)
(* ================================================================== *)


(** [X13].  After a response with status ok the summary area of the
    popup never shows the notice [No summary available.]: it lists the
    bullets parsed from the text, at most six, or, when no bullet was
    parsed, the first 500 characters of the text as the only item.  What
    is stored under the address of the page is the parsed list itself, so
    when no bullet was parsed the popup, opened again, shows the notice
    in place of the text shown before; otherwise it shows the same
    list. *)
Theorem popup_summary_view (text source url : list ascii) (st : storage)
  (now : nat) :
  let v := PopupView.onSummary (Some (Background.OkText text source)) in
  let bullets := fst (Popup.parseSummary text) in
  let highlights := snd (Popup.parseSummary text) in
  let st' := PopupView.storeSummary st url now v in
  PopupView.toStore v = Some (bullets, highlights, text)
  /\ PopupView.toHighlight v = Some highlights
  /\ length bullets <= 6 /\ length highlights <= 5
  /\ PopupView.summaryArea v
     <> PopupView.TextContent (lit "No summary available.")
  /\ (bullets = [] ->
      PopupView.summaryArea v
      = PopupView.InnerHTML
          (lit "<ul><li>" ++ firstn 500 text ++ lit "</li></ul>")
      /\ PopupView.onOpen st' url
         = Some (PopupView.TextContent (lit "No summary available.")))
  /\ (bullets <> [] ->
      PopupView.summaryArea v = PopupView.setSummaryText bullets
      /\ PopupView.onOpen st' url = Some (PopupView.summaryArea v)).
Proof.
  cbv zeta.
  unfold PopupView.onSummary, PopupView.onOpen, PopupView.storeSummary.
  destruct (Popup.parseSummary text) as [bs hs] eqn:Ep. cbn [fst snd].
  cbn [PopupView.toStore PopupView.toHighlight PopupView.summaryArea].
  rewrite get_set_same. cbn [pd_summary].
  split; [reflexivity|]. split; [reflexivity|].
  assert (Hb : length bs <= 6 /\ length hs <= 5).
  { unfold Popup.parseSummary in Ep.
    apply (f_equal (fun p => (length (fst p), length (snd p)))) in Ep.
    cbn [fst snd] in Ep.
    pose proof (f_equal fst Ep) as E1. pose proof (f_equal snd Ep) as E2.
    cbn [fst snd] in E1, E2. rewrite <- E1, <- E2.
    split; apply firstn_le_length. }
  split; [apply Hb|]. split; [apply Hb|].
  destruct bs as [|b0 bs'].
  - cbn [length Nat.eqb]. unfold PopupView.setSummaryText.
    cbn [length Nat.eqb map List.concat].
    split; [discriminate|]. split; [|congruence].
    intros _. split; [|reflexivity].
    rewrite app_nil_r. f_equal. rewrite <- !app_assoc. reflexivity.
  - cbn [length Nat.eqb]. unfold PopupView.setSummaryText.
    cbn [length Nat.eqb].
    split; [discriminate|]. split; [discriminate|].
    intros _. split; reflexivity.
Qed.




(* ================================================================== *)
(** * More on the injector and the remover                             *)
(* ================================================================== *)

Section Traversal.

Lemma firstMatch_none t : forall cands,
  firstMatch t cands = None <-> findable cands t = false.
Proof.
  induction cands as [|s r IH]; [split; reflexivity|].
  cbn [firstMatch findable existsb]. unfold includes at 1.
  destruct (indexOf s t) as [i|]; [split; discriminate|].
  cbn [orb]. exact IH.
Qed.

Lemma visitText_idle total st t :
  findable (sentenceSet st) t = false -> visitText total st t = (st, [Text t]).
Proof.
  intros H. unfold visitText. apply firstMatch_none in H. rewrite H.
  destruct (total <=? highlights st); reflexivity.
Qed.

Lemma textNodes_cons k r : textNodes (k :: r) = textNodesOf k ++ textNodes r.
Proof. reflexivity. Qed.

Lemma docIds_app a b : docIds (a ++ b) = docIds a ++ docIds b.
Proof. apply flat_map_app. Qed.

Lemma docIds_setTextContent s : docIds (setTextContent s) = [].
Proof. unfold setTextContent. destruct (truthy s); reflexivity. Qed.

Lemma visitText_facts total st t :
  stepFacts total st [] [t] [] (st, [Text t]) (visitText total st t).
Proof.
  unfold stepFacts, visitText. cbn [existsb]. rewrite orb_false_r.
  destruct (total <=? highlights st) eqn:El;
    [|destruct (firstMatch t (sentenceSet st)) as [[s i]|] eqn:Ef].
  - cbn [fst snd]. rewrite Nat.sub_diag. cbn [seq app].
    split; [lia|]. split; [lia|]. split; [reflexivity|].
    split; [reflexivity|]. split.
    + intros Hl _. apply Nat.leb_le in El. lia.
    + intros s Hin. cbn in Hin. contradiction.
  - apply firstMatch_spec in Ef as [Hs Hi].
    assert (Hinc : includes t s = true).
    { unfold includes. rewrite Hi. reflexivity. }
    cbn [fst snd nextId Dom.highlights].
    split; [lia|]. split; [lia|]. split.
    { unfold docIds. cbn [flat_map selectIds app].
      fold (docIds (setTextContent s)). rewrite docIds_setTextContent.
      replace (S (nextId st) - nextId st) with 1 by lia. reflexivity. }
    split.
    { intros Hf. exfalso. unfold findable in Hf.
      assert (Ht : existsb (fun s0 => includes t s0) (sentenceSet st) = true).
      { apply existsb_exists. exists s. split; assumption. }
      congruence. }
    split; [intros; lia|].
    intros s' Hin. rewrite markerTexts_span in Hin.
    destruct Hin as [<-|[]]. right. exists t. split; [left; reflexivity|].
    exact Hinc.
  - apply firstMatch_none in Ef.
    cbn [fst snd]. rewrite Nat.sub_diag. cbn [seq app].
    split; [lia|]. split; [lia|]. split; [reflexivity|].
    split; [reflexivity|]. split.
    + intros _ Hf. congruence.
    + intros s Hin. cbn in Hin. contradiction.
Qed.

Lemma markerTexts_Elem i c ks :
  markerTexts [Elem i c ks]
  = (if hasMarkerClass c then [textOf ks] else []) ++ markerTexts ks.
Proof. unfold markerTexts. cbn [flat_map markerTextsOf]. apply app_nil_r. Qed.

Lemma docIds_Elem i c ks : docIds [Elem i c ks] = i :: docIds ks.
Proof. unfold docIds. cbn [flat_map selectIds]. rewrite app_nil_r. reflexivity. Qed.

Lemma seq_split a b c :
  a <= b -> b <= c -> seq a (c - a) = seq a (b - a) ++ seq b (c - b).
Proof.
  intros H1 H2. replace (c - a) with ((b - a) + (c - b)) by lia.
  rewrite seq_app. replace (a + (b - a)) with b by lia. reflexivity.
Qed.

Lemma visitAll_facts_from total : forall l,
  Forall (fun n => forall st,
            stepFacts total st (selectIds (fun _ => true) n) (textNodesOf n)
              (markerTextsOf n) (st, [n]) (visit total st n)) l ->
  forall st,
    stepFacts total st (docIds l) (textNodes l) (markerTexts l) (st, l)
      (visitAll total st l).
Proof.
  induction l as [|k r IH]; intros F st.
  - unfold stepFacts. cbn [visitAll fst snd]. rewrite Nat.sub_diag.
    cbn. split; [lia|]. split; [lia|]. split; [constructor|].
    split; [reflexivity|]. split; [discriminate|]. contradiction.
  - inversion F as [|? ? Fk Fr]; subst. specialize (IH Fr).
    cbn [visitAll]. specialize (Fk st).
    destruct (visit total st k) as [st1 k'] eqn:Ek.
    specialize (IH st1).
    destruct (visitAll total st1 r) as [st2 r'] eqn:Er.
    unfold stepFacts in *. cbn [fst snd] in *.
    destruct Fk as [K1 [K2 [K3 [K4 [K5 K6]]]]].
    destruct IH as [R1 [R2 [R3 [R4 [R5 R6]]]]].
    rewrite textNodes_cons, existsb_app, docIds_app, docIds_cons,
      markerTexts_app, markerTexts_cons.
    split; [lia|]. split; [lia|]. split.
    { rewrite K3, R3, (seq_split (nextId st) (nextId st1) (nextId st2))
        by assumption.
      rewrite <- !app_assoc. apply Permutation_app_head.
      rewrite !app_assoc. apply Permutation_app_tail, Permutation_app_comm. }
    split.
    { intros Hf. apply orb_false_iff in Hf as [Hk Hr].
      specialize (K4 Hk). inversion K4; subst.
      specialize (R4 Hr). inversion R4; subst. reflexivity. }
    split.
    { intros Hl Hf.
      destruct (existsb (findable (sentenceSet st)) (textNodesOf k)) eqn:Efk.
      - specialize (K5 Hl eq_refl). lia.
      - cbn [orb] in Hf. specialize (K4 eq_refl). inversion K4; subst.
        apply R5; assumption. }
    intros s Hin. apply in_app_or in Hin as [Hin|Hin].
    + destruct (K6 s Hin) as [H|[t [Ht Hi]]].
      * left. apply in_or_app. left. exact H.
      * right. exists t. split; [apply in_or_app; left; exact Ht|exact Hi].
    + destruct (R6 s Hin) as [H|[t [Ht Hi]]].
      * left. apply in_or_app. right. exact H.
      * right. exists t. split; [apply in_or_app; right; exact Ht|exact Hi].
Qed.

Lemma visit_facts total : forall n st,
  stepFacts total st (selectIds (fun _ => true) n) (textNodesOf n)
    (markerTextsOf n) (st, [n]) (visit total st n).
Proof.
  induction n as [t|i c ks IH] using node_ind; intros st.
  - cbn [visit selectIds textNodesOf markerTextsOf]. apply visitText_facts.
  - pose proof (visitAll_facts_from total ks IH st) as H.
    rewrite visit_Elem.
    pose proof (textOf_visitAll total ks st) as Ht.
    destruct (visitAll total st ks) as [st' ks'] eqn:Ev.
    unfold stepFacts in *. cbn [fst snd] in *.
    destruct H as [H1 [H2 [H3 [H4 [H5 H6]]]]].
    cbn [selectIds textNodesOf markerTextsOf].
    fold (docIds ks) (textNodes ks) (markerTexts ks) (textOf ks).
    split; [exact H1|]. split; [exact H2|]. split.
    { rewrite docIds_Elem. cbn [app]. constructor. exact H3. }
    split.
    { intros Hf. specialize (H4 Hf). inversion H4; subst. reflexivity. }
    split; [exact H5|].
    intros s Hin. rewrite markerTexts_Elem in Hin.
    apply in_app_or in Hin as [Hin|Hin].
    + left. apply in_or_app. left. rewrite <- Ht. exact Hin.
    + destruct (H6 s Hin) as [H|H]; [|right; exact H].
      left. apply in_or_app. right. exact H.
Qed.

Lemma visitAll_facts total l st :
  stepFacts total st (docIds l) (textNodes l) (markerTexts l) (st, l)
    (visitAll total st l).
Proof.
  apply visitAll_facts_from. apply Forall_forall. intros n _.
  apply visit_facts.
Qed.

Lemma NoDup_fold_replace : forall els d,
  NoDup (docIds d) ->
  NoDup (docIds (fold_left (fun d el => replaceInDoc el d) els d)).
Proof.
  induction els as [|x els IH]; intros d H; [exact H|].
  cbn [fold_left]. apply IH, NoDup_replaceInDoc, H.
Qed.

Lemma NoDup_removeHighlights d :
  NoDup (docIds d) -> NoDup (docIds (removeHighlights d)).
Proof. apply NoDup_fold_replace. Qed.

Lemma below_freshId d x : In x (docIds d) -> x < freshId d.
Proof.
  intros H. unfold freshId.
  pose proof (proj1 (list_max_le (docIds d) (list_max (docIds d)))
                (Nat.le_refl _)) as F.
  rewrite Forall_forall in F. specialize (F x H). lia.
Qed.

(** The elements created by the injector receive identities that no
    element of the document has. *)
Lemma NoDup_highlightSentences ss d :
  NoDup (docIds d) -> NoDup (docIds (highlightSentences ss d)).
Proof.
  intros H. unfold highlightSentences, highlightRun.
  pose proof (NoDup_removeHighlights d H) as Hc.
  set (clean := removeHighlights d) in *.
  set (st := mkH _ 0 (freshId clean)).
  destruct (visitAll_facts (length ss) clean st) as [_ [_ [Hp _]]].
  apply (Permutation_NoDup (Permutation_sym Hp)).
  apply NoDup_app; [exact Hc|apply seq_NoDup|].
  intros x Hx Hs. apply in_seq in Hs. apply below_freshId in Hx.
  subst st. cbn [nextId] in Hs. lia.
Qed.

Lemma setOf_length l : length (setOf l) <= length l.
Proof.
  apply NoDup_incl_length; [apply setOf_NoDup|].
  intros x Hx. apply setOf_In, Hx.
Qed.

Lemma run_counts ss d :
  NoDup (docIds d) ->
  length (markerTexts (highlightSentences ss d))
  = highlights (fst (highlightRun ss d))
  /\ length (markerTexts (highlightSentences ss d)) <= length ss.
Proof.
  intros H. unfold highlightSentences, highlightRun.
  set (clean := removeHighlights d).
  set (cands := setOf (filter truthy (map trim ss))).
  set (st := mkH cands 0 (freshId clean)).
  pose proof (visitAll_perm (length ss) clean st) as Hp.
  pose proof (visitAll_count (length ss) clean st) as Hc.
  subst clean. rewrite (no_markers_no_texts _ (removeHighlights_clears d H)) in Hp.
  apply Permutation_length in Hp. rewrite length_app in Hp.
  cbn [app sentenceSet highlights] in *.
  pose proof (setOf_length (filter truthy (map trim ss))) as Hl.
  pose proof (filter_length_le truthy (map trim ss)) as Hf.
  rewrite length_map in Hf. fold cands in Hl.
  destruct (visitAll (length ss) st (removeHighlights d)) as [st1 out].
  subst st. cbn [sentenceSet highlights fst snd] in *.
  split; lia.
Qed.

Lemma findable_nil t : findable [] t = false.
Proof. reflexivity. Qed.

Lemma existsb_findable_nil texts : existsb (findable []) texts = false.
Proof. induction texts as [|t r IH]; [reflexivity|exact IH]. Qed.

End Traversal.

(* ================================================================== *)
(** * Further statements about the injector and the listener           *)
(* ================================================================== *)

(** [X16].  What the injector finds.  With [clean] the document as the
    remover leaves it and [cands] the set of trimmed, non-empty
    sentences: every marker of the result holds a sentence that occurs
    inside one single text node of [clean]; when no sentence of [cands]
    occurs in a text node of [clean], the empty list of sentences
    included, the result is [clean] itself; when one does, at least one
    marker is inserted.  The result has at most as many markers as
    sentences were given, and its elements are again distinct. *)
Theorem injector_finds (sentences : list (list ascii)) (d : document) :
  NoDup (docIds d) ->
  let clean := removeHighlights d in
  let cands := setOf (filter truthy (map trim sentences)) in
  let out := highlightSentences sentences d in
  (forall s, In s (markerTexts out) ->
     exists t, In t (textNodes clean) /\ includes t s = true)
  /\ (findableIn cands clean = false -> out = clean)
  /\ (findableIn cands clean = true -> markerTexts out <> [])
  /\ highlightSentences [] d = clean
  /\ length (querySelectorAll out) <= length sentences
  /\ NoDup (docIds out).
Proof.
  intros H. cbv zeta.
  pose proof (run_counts sentences d H) as [Hcount Hbound].
  unfold highlightSentences, highlightRun in *.
  set (clean := removeHighlights d) in *.
  set (cands := setOf (filter truthy (map trim sentences))) in *.
  set (st := mkH cands 0 (freshId clean)) in *.
  destruct (visitAll_facts (length sentences) clean st)
    as [_ [_ [_ [Hidle [Hprog Hex]]]]].
  cbn [sentenceSet highlights] in *.
  split.
  { intros s Hs. destruct (Hex s Hs) as [Hm|Ht]; [|exact Ht].
    subst clean. rewrite (no_markers_no_texts _ (removeHighlights_clears d H)) in Hm.
    contradiction. }
  split.
  { intros Hf. rewrite (Hidle Hf). reflexivity. }
  split.
  { intros Hf E. rewrite E in Hcount. cbn [length] in Hcount.
    assert (Hl : 0 < length sentences).
    { destruct sentences as [|s0 r]; [|cbn; lia].
      unfold findableIn in Hf. subst cands. cbn in Hf.
      rewrite existsb_findable_nil in Hf. discriminate Hf. }
    specialize (Hprog Hl Hf). change (highlights st) with 0 in Hprog.
    exact (Nat.lt_irrefl 0 (eq_ind_r (fun n => 0 < n) Hprog Hcount)). }
  split.
  { destruct (visitAll_facts 0 clean (mkH (setOf (filter truthy (map trim [])))
                                        0 (freshId clean)))
      as [_ [_ [_ [Hidle0 _]]]].
    cbn [sentenceSet map filter length] in *.
    rewrite Hidle0; [reflexivity|]. apply existsb_findable_nil. }
  split.
  { rewrite <- markerTexts_length. exact Hbound. }
  apply (NoDup_highlightSentences sentences d H).
Qed.

Lemma injector_finds_witness :
  highlightSentences [lit "Birds can fly."] nested = removeHighlights nested
  /\ markerTexts (highlightSentences [lit "Dogs too."] nested) <> [].
Proof.
  pose proof (injector_finds [lit "Birds can fly."] nested nested_distinct)
    as H1.
  pose proof (injector_finds [lit "Dogs too."] nested nested_distinct) as H2.
  cbv zeta in H1, H2.
  destruct H1 as [_ [H1 _]]. destruct H2 as [_ [_ [H2 _]]].
  split; [apply H1|apply H2]; reflexivity.
Defined.

(** [X17].  Whatever sequence of [extract_page], [highlight_sentences]
    and [remove_highlights] messages the content script serves on a
    document, the text of the document stays what it was, its elements
    stay distinct, and it never holds more markers than the larger of 5
    and the number it held at first; right after a [remove_highlights]
    it holds none, and a sequence of [extract_page] alone leaves it
    untouched. *)
Theorem listener_keeps_the_page (ms : list Listener.request)
  (inner : list ascii) (d : document) :
  NoDup (docIds d) ->
  let d' := Listener.serve ms inner d in
  textOf d' = textOf d
  /\ NoDup (docIds d')
  /\ length (querySelectorAll d')
     <= Nat.max 5 (length (querySelectorAll d))
  /\ (forall ms', ms = ms' ++ [Listener.RemoveHighlights] ->
        querySelectorAll d' = [])
  /\ (Forall (fun m => m = Listener.ExtractPage) ms -> d' = d).
Proof.
  intros H. cbv zeta.
  assert (Step : forall m x, NoDup (docIds x) ->
            textOf (fst (Listener.onMessage m inner x)) = textOf x
            /\ NoDup (docIds (fst (Listener.onMessage m inner x)))
            /\ length (querySelectorAll (fst (Listener.onMessage m inner x)))
               <= Nat.max 5 (length (querySelectorAll x))).
  { intros m x Hx. destruct m as [|ss|]; cbn [Listener.onMessage fst].
    - split; [reflexivity|]. split; [exact Hx|]. lia.
    - split; [apply textOf_highlightSentences|].
      split; [apply NoDup_highlightSentences, Hx|].
      rewrite <- markerTexts_length.
      pose proof (run_counts (firstn 5 match ss with Some l => l | None => [] end)
                    x Hx) as [_ Hb].
      pose proof (firstn_le_length 5 match ss with Some l => l | None => [] end).
      rewrite length_firstn in Hb. lia.
    - split; [apply textOf_removeHighlights|].
      split; [apply NoDup_removeHighlights, Hx|].
      rewrite (removeHighlights_clears x Hx). cbn. lia. }
  assert (Inv : forall l x, NoDup (docIds x) ->
            textOf (Listener.serve l inner x) = textOf x
            /\ NoDup (docIds (Listener.serve l inner x))
            /\ length (querySelectorAll (Listener.serve l inner x))
               <= Nat.max 5 (length (querySelectorAll x))).
  { induction l as [|m l IH]; intros x Hx.
    - unfold Listener.serve. cbn [fold_left].
      split; [reflexivity|]. split; [exact Hx|]. apply Nat.le_max_r.
    - unfold Listener.serve. cbn [fold_left].
      fold (Listener.serve l inner (fst (Listener.onMessage m inner x))).
      destruct (Step m x Hx) as [S1 [S2 S3]].
      destruct (IH _ S2) as [I1 [I2 I3]].
      split; [exact (eq_trans I1 S1)|]. split; [exact I2|].
      apply (Nat.le_trans _ _ _ I3).
      apply Nat.max_lub; [apply Nat.le_max_l|exact S3]. }
  destruct (Inv ms d H) as [I1 [I2 I3]].
  split; [exact I1|]. split; [exact I2|]. split; [exact I3|]. split.
  - intros ms' ->. unfold Listener.serve. rewrite fold_left_app.
    cbn [fold_left Listener.onMessage fst].
    apply removeHighlights_clears.
    apply (Inv ms' d H).
  - clear. induction ms as [|m ms IH] in d |- *; intros F; [reflexivity|].
    inversion F; subst. unfold Listener.serve. cbn [fold_left].
    cbn [Listener.onMessage fst]. apply IH. assumption.
Qed.

Lemma listener_keeps_the_page_witness :
  textOf (Listener.serve
            [Listener.HighlightSentences (Some [lit "Dogs too."]);
             Listener.ExtractPage; Listener.RemoveHighlights] [] nested)
  = textOf nested.
Proof.
  apply (listener_keeps_the_page
           [Listener.HighlightSentences (Some [lit "Dogs too."]);
            Listener.ExtractPage; Listener.RemoveHighlights] [] nested
           nested_distinct).
Defined.

(* ================================================================== *)
(** * The table of word frequencies                                    *)
(* ================================================================== *)

Section Frequencies.

Lemma lookup_bump w w' : forall f,
  lookup (bump f w) w' = lookup f w' + (if str_eqb w' w then 1 else 0).
Proof.
  induction f as [|[k n] r IH]; cbn [bump lookup].
  - destruct (str_eqb w' w); reflexivity.
  - destruct (str_eqb w k) eqn:Ewk; cbn [lookup].
    + apply str_eqb_eq in Ewk. subst k.
      destruct (str_eqb w' w); lia.
    + destruct (str_eqb w' k) eqn:Ek; [|exact IH].
      apply str_eqb_eq in Ek. subst k.
      destruct (str_eqb w' w) eqn:E; [|lia].
      apply str_eqb_eq in E. subst w'. rewrite str_eqb_refl in Ewk.
      discriminate Ewk.
Qed.

Lemma lookup_countWords w' : forall ws f,
  lookup (countWords f ws) w'
  = lookup f w'
    + (if arrayIncludes stop w' then 0
       else length (filter (str_eqb w') ws)).
Proof.
  unfold countWords. induction ws as [|w ws IH]; intros f; cbn [fold_left].
  - cbn [filter length]. destruct (arrayIncludes stop w'); lia.
  - rewrite IH. cbn [filter].
    destruct (arrayIncludes stop w) eqn:Es.
    + destruct (arrayIncludes stop w') eqn:Es'; [reflexivity|].
      destruct (str_eqb w' w) eqn:E; [|reflexivity].
      apply str_eqb_eq in E. subst w'. congruence.
    + rewrite lookup_bump.
      destruct (str_eqb w' w) eqn:E.
      * apply str_eqb_eq in E. subst w'. rewrite Es. cbn [length]. lia.
      * destruct (arrayIncludes stop w'); lia.
Qed.

Lemma lookup_fold w' : forall sents f,
  lookup (fold_left (fun f s => countWords f (words s)) sents f) w'
  = lookup f w'
    + (if arrayIncludes stop w' then 0
       else length (filter (str_eqb w') (flat_map words sents))).
Proof.
  induction sents as [|s r IH]; intros f; cbn [fold_left flat_map].
  - cbn [filter length]. destruct (arrayIncludes stop w'); lia.
  - rewrite IH, lookup_countWords, filter_app, length_app.
    destruct (arrayIncludes stop w'); lia.
Qed.

Lemma score_from f : forall ws a,
  fold_left (fun score w => score + lookup f w) ws a
  = a + list_sum (map (lookup f) ws).
Proof.
  unfold list_sum.
  induction ws as [|w ws IH]; intros a; cbn [fold_left map fold_right].
  - lia.
  - rewrite IH. lia.
Qed.

Lemma counted_words f : forall ws,
  (forall w, In w ws -> arrayIncludes stop w = false -> 1 <= lookup f w) ->
  length (filter (fun w => negb (arrayIncludes stop w)) ws)
  <= list_sum (map (lookup f) ws).
Proof.
  unfold list_sum.
  induction ws as [|w ws IH]; intros H; cbn [filter map fold_right length];
    [lia|].
  specialize (IH (fun x Hx => H x (or_intror Hx))).
  destruct (arrayIncludes stop w) eqn:Es; cbn [negb length].
  - lia.
  - specialize (H w (or_introl eq_refl) Es). lia.
Qed.

End Frequencies.

(* ================================================================== *)
(** * Statement about the word frequencies                             *)
(* ================================================================== *)

(** [X18].  The table built by the summarizer holds, for every word that
    is not a stop word, the number of its occurrences among the words of
    all sentences, and nothing for a stop word.  The score of a sentence
    is the sum of the table over its words, each occurrence counted: a
    sentence of the text scores at least the number of its words that are
    not stop words, and a sentence made of stop words only scores 0. *)
Theorem frequency_scores (sents : list (list ascii)) :
  let f := buildFreqs sents in
  let occurrences w := length (filter (str_eqb w) (flat_map words sents)) in
  (forall w, lookup f w
             = if arrayIncludes stop w then 0 else occurrences w)
  /\ (forall s, sentenceScore f s = list_sum (map (lookup f) (words s)))
  /\ (forall s, In s sents ->
        length (filter (fun w => negb (arrayIncludes stop w)) (words s))
        <= sentenceScore f s)
  /\ (forall s, forallb (arrayIncludes stop) (words s) = true ->
        sentenceScore f s = 0)
  /\ scoreAll sents = map (fun s => (s, sentenceScore f s)) sents.
Proof.
  cbv zeta.
  assert (L : forall w, lookup (buildFreqs sents) w
                        = if arrayIncludes stop w then 0
                          else length (filter (str_eqb w)
                                         (flat_map words sents))).
  { intros w. unfold buildFreqs. rewrite lookup_fold. reflexivity. }
  assert (Sc : forall s, sentenceScore (buildFreqs sents) s
                         = list_sum (map (lookup (buildFreqs sents)) (words s))).
  { intros s. unfold sentenceScore. rewrite score_from. reflexivity. }
  split; [exact L|]. split; [exact Sc|]. split; [|split; [|reflexivity]].
  - intros s Hs. rewrite Sc. apply counted_words.
    intros w Hw Hst. rewrite L, Hst.
    assert (Hin : In w (filter (str_eqb w) (flat_map words sents))).
    { apply filter_In. split; [|apply str_eqb_refl].
      apply in_flat_map. exists s. split; assumption. }
    destruct (filter (str_eqb w) (flat_map words sents));
      [contradiction|cbn [length]; lia].
  - intros s Hs. rewrite Sc.
    induction (words s) as [|w ws IH]; [reflexivity|].
    cbn [forallb] in Hs. apply andb_true_iff in Hs as [H1 H2].
    unfold list_sum in *. cbn [map fold_right]. rewrite L, H1, (IH H2).
    reflexivity.
Qed.

(* ================================================================== *)
(** * Statement about mock mode                                        *)
(* ================================================================== *)

(** [X19].  Mock mode where it is honoured.  An [ask] with the flag set
    is answered by the worker without invoking a tier, with a sentence
    that quotes the question and does not depend on the page text; the
    page text must have been extracted all the same.  The content script
    answers the same question in mock mode with another sentence, never
    equal to the one of the worker, and leaves the document as it is;
    its mock summary is the same for every page text, and the document
    is left as the injector leaves it for the three fixed highlights. *)
Theorem mock_mode_answers (b : Worker.browser) (m : Worker.message)
  (w : Background.world) (tab : nat) (text : list ascii) :
  Worker.msg_action m = lit "ask" ->
  Worker.msg_mock m = true ->
  Worker.targetTab b m = Some tab ->
  snd (Extraction.extractPageText (Worker.br_sendMessage b tab)
         (Worker.br_pageScript b tab)) = Extraction.Ok text ->
  let q := orElse (Worker.msg_question m) [] in
  let r := Worker.onMessage b m w in
  Worker.sent r
  = Some (Background.OkAnswer
            (lit "MOCK ANSWER: simulated response to "
             ++ [DQUOTE] ++ q ++ [DQUOTE]) (lit "mock"))
  /\ Background.calls (Worker.after r) = Background.calls w
  /\ Background.mockAnswer q <> ContentScript.mockAnswer q
  /\ (forall text' url now p,
        snd (ContentScript.ask_question true q text' url now p)
        = ContentScript.OkAnswer (ContentScript.mockAnswer q) false
        /\ ContentScript.pg_document
             (fst (ContentScript.ask_question true q text' url now p))
           = ContentScript.pg_document p)
  /\ (forall text1 text2 url now p,
        snd (ContentScript.extract_and_summarize true text1 url now p)
        = snd (ContentScript.extract_and_summarize true text2 url now p)
        /\ ContentScript.pg_document
             (fst (ContentScript.extract_and_summarize true text1 url now p))
           = highlightSentences (Shared.highlights ContentScript.fake)
               (ContentScript.pg_document p)).
Proof.
  intros Ha Hm Ht Hx. cbv zeta.
  destruct (onMessage_ask b m w tab text Ha Ht Hx) as [Hsent Hafter].
  cbv zeta in Hsent, Hafter. rewrite Hm in Hsent, Hafter.
  unfold Worker.answer in Hsent, Hafter. cbn [fst snd] in Hsent, Hafter.
  split; [exact Hsent|].
  split.
  { rewrite Hafter.
    destruct (Worker.br_tabsGet b tab) as [url|]; reflexivity. }
  split.
  { unfold Background.mockAnswer, ContentScript.mockAnswer.
    cbn. intros E. discriminate E. }
  split.
  { intros text' url now p. split; reflexivity. }
  intros text1 text2 url now p. split; reflexivity.
Qed.

Lemma mock_mode_answers_witness :
  Worker.sent
    (Worker.onMessage
       (Scenes.offlineTab (lit "Cats purr. Dogs bark.") (lit "u"))
       (Worker.mkMessage (lit "ask") (Some 7) (Some (lit "Why?")) true)
       freshWorld)
  = Some (Background.OkAnswer
            (lit "MOCK ANSWER: simulated response to "
             ++ [DQUOTE] ++ lit "Why?" ++ [DQUOTE]) (lit "mock")).
Proof.
  apply (mock_mode_answers
           (Scenes.offlineTab (lit "Cats purr. Dogs bark.") (lit "u"))
           (Worker.mkMessage (lit "ask") (Some 7) (Some (lit "Why?")) true)
           freshWorld 7 (lit "Cats purr. Dogs bark.")); reflexivity.
Defined.

(* ================================================================== *)
(** * The remover and the injector, node by node                       *)
(* ================================================================== *)

Section Unwrapping.

Lemma mergeText_app s s' X :
  mergeText (s ++ s') X = mergeText s (mergeText s' X).
Proof.
  unfold mergeText. destruct s as [|a s]; cbn [app truthy].
  - destruct s' as [|b s']; reflexivity.
  - destruct s' as [|b s']; cbn [truthy].
    + rewrite app_nil_r. reflexivity.
    + destruct X as [|[t|i c ks] r]; cbn [app]; try reflexivity.
      rewrite <- app_assoc. reflexivity.
Qed.

Lemma normalizeKids_mergeText s Y :
  normalizeKids (mergeText s Y) = mergeText s (normalizeKids Y).
Proof.
  destruct s as [|a s]; [reflexivity|].
  destruct Y as [|[t|i c ks] r].
  - reflexivity.
  - unfold mergeText at 1. cbn [truthy].
    rewrite !normalizeKids_cons_text. apply mergeText_app.
  - unfold mergeText at 1. cbn [truthy].
    rewrite normalizeKids_cons_text. reflexivity.
Qed.

Lemma unwrap_Elem i c ks :
  unwrap (Elem i c ks)
  = if hasMarkerClass c then Text (textOf ks) else Elem i c (map unwrap ks).
Proof. reflexivity. Qed.

(** Normalizing before the markers are unwrapped changes nothing once the
    result is normalized. *)
Lemma unwrap_mergeText s X :
  normalizeKids (map unwrap (mergeText s X))
  = mergeText s (normalizeKids (map unwrap X)).
Proof.
  destruct s as [|a s]; [reflexivity|].
  destruct X as [|[t|i c ks] r].
  - reflexivity.
  - unfold mergeText at 1. cbn [truthy map unwrap].
    rewrite !normalizeKids_cons_text. apply mergeText_app.
  - unfold mergeText at 1. cbn [truthy]. rewrite map_cons.
    change (unwrap (Text (a :: s))) with (Text (a :: s)).
    rewrite normalizeKids_cons_text. reflexivity.
Qed.

Lemma normalizeKids_cons_unwrap k r r' :
  normalizeKids r = normalizeKids r' ->
  normalizeKids (k :: r) = normalizeKids (k :: r').
Proof.
  intros H. destruct k as [t|i c ks].
  - rewrite !normalizeKids_cons_text, H. reflexivity.
  - rewrite !normalizeKids_cons_elem, H. reflexivity.
Qed.

Lemma unwrap_normalizeKids_from l :
  Forall (fun n => match n with
                   | Text _ => True
                   | Elem _ _ ks =>
                       normalizeKids (map unwrap (normalizeKids ks))
                       = normalizeKids (map unwrap ks)
                   end) l ->
  normalizeKids (map unwrap (normalizeKids l)) = normalizeKids (map unwrap l).
Proof.
  induction 1 as [|k r Hk Hr IH]; [reflexivity|].
  destruct k as [t|i c ks].
  - rewrite normalizeKids_cons_text, unwrap_mergeText, IH, map_cons.
    change (unwrap (Text t)) with (Text t).
    rewrite normalizeKids_cons_text. reflexivity.
  - rewrite normalizeKids_cons_elem, normalize_Elem, !map_cons, !unwrap_Elem.
    destruct (hasMarkerClass c).
    + rewrite textOf_normalizeKids, !normalizeKids_cons_text, IH. reflexivity.
    + rewrite !normalizeKids_cons_elem, !normalize_Elem, Hk, IH. reflexivity.
Qed.

Lemma unwrap_normalizeKids_node : forall n,
  match n with
  | Text _ => True
  | Elem _ _ ks =>
      normalizeKids (map unwrap (normalizeKids ks))
      = normalizeKids (map unwrap ks)
  end.
Proof.
  induction n as [t|i c ks IH] using node_ind; [exact I|].
  apply unwrap_normalizeKids_from, IH.
Qed.

Lemma unwrap_normalizeKids l :
  normalizeKids (map unwrap (normalizeKids l)) = normalizeKids (map unwrap l).
Proof.
  apply unwrap_normalizeKids_from, Forall_forall. intros n _.
  apply unwrap_normalizeKids_node.
Qed.

Lemma unwrap_clean_from l :
  Forall (fun n => selectIds hasMarkerClass n = [] -> unwrap n = n) l ->
  querySelectorAll l = [] -> map unwrap l = l.
Proof.
  induction 1 as [|k r Hk Hr IH]; intros H; [reflexivity|].
  unfold querySelectorAll in H. cbn [flat_map] in H.
  apply app_eq_nil in H as [H1 H2].
  cbn [map]. rewrite (Hk H1), (IH H2). reflexivity.
Qed.

Lemma unwrap_clean_node : forall n,
  selectIds hasMarkerClass n = [] -> unwrap n = n.
Proof.
  induction n as [t|i c ks IH] using node_ind; intros H; [reflexivity|].
  cbn [selectIds] in H. rewrite unwrap_Elem.
  destruct (hasMarkerClass c); [discriminate H|].
  cbn [app] in H. rewrite (unwrap_clean_from ks IH H). reflexivity.
Qed.

(** A document without marker is its own unwrapping. *)
Lemma unwrap_clean l : querySelectorAll l = [] -> map unwrap l = l.
Proof.
  apply unwrap_clean_from, Forall_forall. intros n _.
  apply unwrap_clean_node.
Qed.

Lemma otherIds_cons k r :
  otherIds (k :: r)
  = selectIds (fun c => negb (hasMarkerClass c)) k ++ otherIds r.
Proof. reflexivity. Qed.

(** Swapping the top-level elements of identity [x] for their text is
    unwrapping them, when they are markers. *)
Lemma unwrap_swap x : forall l,
  ~ In x (otherIds l) ->
  map unwrap (map (swapForText x) l) = map unwrap l.
Proof.
  induction l as [|k r IH]; intros H; [reflexivity|].
  rewrite otherIds_cons in H. cbn [map].
  rewrite IH by (intros Hr; apply H, in_or_app; right; exact Hr).
  f_equal. unfold swapForText.
  destruct k as [t|i c ks]; cbn [isElemId]; [reflexivity|].
  destruct (i =? x) eqn:E; [|reflexivity].
  apply Nat.eqb_eq in E. subst i. rewrite unwrap_Elem.
  cbn [selectIds] in H.
  destruct (hasMarkerClass c); [reflexivity|].
  exfalso. apply H. cbn [negb app]. left. reflexivity.
Qed.

Lemma unwrap_replaceInDoc_from x l :
  Forall (fun n => match n with
                   | Text _ => True
                   | Elem _ _ ks =>
                       ~ In x (otherIds ks) ->
                       normalizeKids (map unwrap (replaceInDoc x ks))
                       = normalizeKids (map unwrap ks)
                   end) l ->
  ~ In x (otherIds l) ->
  normalizeKids (map unwrap (replaceInDoc x l)) = normalizeKids (map unwrap l).
Proof.
  intros F H. unfold replaceInDoc.
  destruct (existsb (isElemId x) l).
  - rewrite unwrap_normalizeKids, unwrap_swap by exact H. reflexivity.
  - clear -F H. induction F as [|k r Hk Hr IH]; [reflexivity|].
    rewrite otherIds_cons in H.
    assert (Hr' : ~ In x (otherIds r))
      by (intros Hx; apply H, in_or_app; right; exact Hx).
    specialize (IH Hr'). cbn [map].
    destruct k as [t|i c ks].
    + cbn [replaceEl unwrap]. rewrite !normalizeKids_cons_text, IH.
      reflexivity.
    + rewrite replaceEl_Elem, !unwrap_Elem.
      destruct (hasMarkerClass c) eqn:Ec.
      * rewrite textOf_replaceInDoc, !normalizeKids_cons_text, IH.
        reflexivity.
      * rewrite !normalizeKids_cons_elem, !normalize_Elem, IH, Hk;
          [reflexivity|].
        intros Hx. apply H, in_or_app. left. cbn [selectIds].
        rewrite Ec. cbn [negb app]. right. exact Hx.
Qed.

Lemma unwrap_replaceInDoc_node x : forall n,
  match n with
  | Text _ => True
  | Elem _ _ ks =>
      ~ In x (otherIds ks) ->
      normalizeKids (map unwrap (replaceInDoc x ks))
      = normalizeKids (map unwrap ks)
  end.
Proof.
  induction n as [t|i c ks IH] using node_ind; [exact I|].
  apply unwrap_replaceInDoc_from, IH.
Qed.

(** One turn of the loop of the remover, for an element that is a marker
    or is no longer there, does not change the unwrapped document. *)
Lemma unwrap_replaceInDoc x l :
  ~ In x (otherIds l) ->
  normalizeKids (map unwrap (replaceInDoc x l)) = normalizeKids (map unwrap l).
Proof.
  apply unwrap_replaceInDoc_from, Forall_forall. intros n _.
  apply unwrap_replaceInDoc_node.
Qed.

Lemma unwrap_fold_replace : forall els l,
  (forall x, In x els -> ~ In x (otherIds l)) ->
  normalizeKids (map unwrap (fold_left (fun d el => replaceInDoc el d) els l))
  = normalizeKids (map unwrap l).
Proof.
  induction els as [|x els IH]; intros l H; [reflexivity|].
  cbn [fold_left]. rewrite IH.
  - apply unwrap_replaceInDoc, H. left. reflexivity.
  - intros y Hy Hin. apply (H y (or_intror Hy)).
    apply (sublist_In _ _ _ (sublist_replaceInDoc _ x l)), Hin.
Qed.

Lemma ids_by_class_from sel l :
  Forall (fun n => Permutation (selectIds (fun _ => true) n)
                     (selectIds sel n
                      ++ selectIds (fun c => negb (sel c)) n)) l ->
  Permutation (flat_map (selectIds (fun _ => true)) l)
    (flat_map (selectIds sel) l
     ++ flat_map (selectIds (fun c => negb (sel c))) l).
Proof.
  induction 1 as [|k r Hk Hr IH]; [constructor|].
  cbn [flat_map]. rewrite Hk, IH, <- !app_assoc.
  apply Permutation_app_head. rewrite !app_assoc.
  apply Permutation_app_tail, Permutation_app_comm.
Qed.

Lemma ids_by_class_node sel : forall n,
  Permutation (selectIds (fun _ => true) n)
    (selectIds sel n ++ selectIds (fun c => negb (sel c)) n).
Proof.
  induction n as [t|i c ks IH] using node_ind; [constructor|].
  cbn [selectIds app]. rewrite (ids_by_class_from sel ks IH).
  destruct (sel c); cbn [negb app].
  - reflexivity.
  - apply Permutation_middle.
Qed.

(** The elements of a document are its markers and its other elements. *)
Lemma ids_by_class d :
  Permutation (docIds d) (querySelectorAll d ++ otherIds d).
Proof.
  apply ids_by_class_from, Forall_forall. intros n _.
  apply ids_by_class_node.
Qed.

Lemma marker_not_other d x :
  NoDup (docIds d) -> In x (querySelectorAll d) -> ~ In x (otherIds d).
Proof.
  intros Hn Hm Ho.
  apply (Permutation_NoDup (ids_by_class d)) in Hn.
  apply (NoDup_app_disjoint _ _ x Hn Hm Ho).
Qed.

(** The remover in closed form, up to the merging of adjacent text
    nodes. *)
Lemma removeHighlights_unwraps d :
  NoDup (docIds d) ->
  normalizeKids (removeHighlights d) = normalizeKids (map unwrap d).
Proof.
  intros Hn.
  rewrite <- (unwrap_clean (removeHighlights d))
    by (apply removeHighlights_clears, Hn).
  unfold removeHighlights. apply unwrap_fold_replace.
  intros x Hx. apply marker_not_other; assumption.
Qed.

End Unwrapping.

Section Splitting.

Lemma normalizeKids_app_congr a : forall r r',
  normalizeKids r = normalizeKids r' ->
  normalizeKids (a ++ r) = normalizeKids (a ++ r').
Proof.
  induction a as [|k a IH]; intros r r' H; [exact H|].
  cbn [app]. apply normalizeKids_cons_unwrap, IH, H.
Qed.

Lemma unwrap_span b id s a X :
  normalizeKids
    (map unwrap ([Text b; Elem id [MARKER] (setTextContent s); Text a] ++ X))
  = normalizeKids (map unwrap (Text (b ++ s ++ a) :: X)).
Proof.
  cbn [app map]. rewrite unwrap_Elem, marker_class, textOf_setTextContent.
  change (unwrap (Text b)) with (Text b).
  change (unwrap (Text a)) with (Text a).
  change (unwrap (Text (b ++ s ++ a))) with (Text (b ++ s ++ a)).
  rewrite !normalizeKids_cons_text, !mergeText_app. reflexivity.
Qed.

Lemma unwrap_visitAll_from total l :
  Forall (fun n => forall st X,
            normalizeKids (map unwrap (snd (visit total st n) ++ X))
            = normalizeKids (map unwrap (n :: X))) l ->
  forall st,
    normalizeKids (map unwrap (snd (visitAll total st l)))
    = normalizeKids (map unwrap l).
Proof.
  induction 1 as [|k r Hk Hr IH]; intros st; [reflexivity|].
  cbn [visitAll]. specialize (Hk st).
  destruct (visit total st k) as [st1 k']. specialize (IH st1).
  destruct (visitAll total st1 r) as [st2 r']. cbn [snd] in *.
  rewrite Hk. cbn [map]. apply normalizeKids_cons_unwrap, IH.
Qed.

Lemma unwrap_visit total : forall n st X,
  normalizeKids (map unwrap (snd (visit total st n) ++ X))
  = normalizeKids (map unwrap (n :: X)).
Proof.
  induction n as [t|i c ks IH] using node_ind; intros st X.
  - cbn [visit].
    destruct (visitText_cases total st t) as [->|[s [j [_ [Hj [_ ->]]]]]];
      [reflexivity|].
    cbn [snd]. rewrite unwrap_span.
    rewrite <- (indexOf_split _ _ _ Hj). reflexivity.
  - pose proof (unwrap_visitAll_from total ks IH st) as H.
    pose proof (textOf_visitAll total ks st) as Ht.
    rewrite visit_Elem. destruct (visitAll total st ks) as [st' ks'].
    cbn [snd app map] in *. rewrite !unwrap_Elem.
    destruct (hasMarkerClass c).
    + rewrite Ht. reflexivity.
    + rewrite !normalizeKids_cons_elem, !normalize_Elem, H. reflexivity.
Qed.

(** Unwrapping what the traversal has wrapped gives back, up to the
    merging of adjacent text nodes, the document it started from. *)
Lemma unwrap_visitAll total l st :
  normalizeKids (map unwrap (snd (visitAll total st l)))
  = normalizeKids (map unwrap l).
Proof.
  apply unwrap_visitAll_from, Forall_forall. intros n _ st' X.
  apply unwrap_visit.
Qed.

Lemma setDelete_In s cands y : In y (setDelete s cands) -> In y cands.
Proof.
  induction cands as [|x r IH]; [contradiction|].
  cbn [setDelete]. destruct (str_eqb s x).
  - intros H. right. exact H.
  - intros [->|H]; [left; reflexivity|right; apply IH, H].
Qed.

Lemma splits_visitAll_from cands total l :
  Forall (fun n => forall st,
            incl (sentenceSet st) cands ->
            incl (sentenceSet (fst (visit total st n))) cands
            /\ forall r r', splits cands r r' ->
                 splits cands (n :: r) (snd (visit total st n) ++ r')) l ->
  forall st,
    incl (sentenceSet st) cands ->
    incl (sentenceSet (fst (visitAll total st l))) cands
    /\ splits cands l (snd (visitAll total st l)).
Proof.
  induction 1 as [|k r Hk Hr IH]; intros st Hst.
  - cbn [visitAll fst snd]. split; [exact Hst|constructor].
  - cbn [visitAll]. destruct (Hk st Hst) as [H1 Hs].
    destruct (visit total st k) as [st1 k']. cbn [fst snd] in *.
    destruct (IH st1 H1) as [H2 Hr'].
    destruct (visitAll total st1 r) as [st2 r']. cbn [fst snd] in *.
    split; [exact H2|]. apply Hs, Hr'.
Qed.

Lemma splits_visit cands total : forall n st,
  incl (sentenceSet st) cands ->
  incl (sentenceSet (fst (visit total st n))) cands
  /\ forall r r', splits cands r r' ->
       splits cands (n :: r) (snd (visit total st n) ++ r').
Proof.
  induction n as [t|i c ks IH] using node_ind; intros st Hst.
  - cbn [visit].
    destruct (visitText_cases total st t) as [->|[s [j [Hs [Hj [_ ->]]]]]].
    + cbn [fst snd app]. split; [exact Hst|].
      intros r r' H. constructor. exact H.
    + cbn [fst snd app sentenceSet]. split.
      * intros y Hy. apply Hst, (setDelete_In s), Hy.
      * intros r r' H. apply splits_wrap; [apply Hst, Hs|exact Hj|exact H].
  - pose proof (splits_visitAll_from cands total ks IH st Hst) as [H1 H2].
    rewrite visit_Elem. destruct (visitAll total st ks) as [st' ks'].
    cbn [fst snd app] in *. split; [exact H1|].
    intros r r' H. apply splits_elem; assumption.
Qed.

(** The traversal only splits text nodes around sentences of the set. *)
Lemma splits_visitAll cands total l st :
  incl (sentenceSet st) cands ->
  splits cands l (snd (visitAll total st l)).
Proof.
  intros H. apply splits_visitAll_from; [|exact H].
  apply Forall_forall. intros n _. apply splits_visit.
Qed.

Lemma splits_textOf cands a b : splits cands a b -> textOf b = textOf a.
Proof.
  induction 1 as [|t r r' _ IH|t s i id r r' _ Hi _ IH
                  |i c ks ks' r r' _ IHk _ IHr].
  - reflexivity.
  - rewrite !textOf_cons, IH. reflexivity.
  - rewrite !textOf_cons, IH. cbn [textContent].
    fold (textOf (setTextContent s)). rewrite textOf_setTextContent.
    rewrite (indexOf_split _ _ _ Hi) at 3.
    rewrite <- !app_assoc. reflexivity.
  - rewrite !textOf_cons, IHr. cbn [textContent].
    fold (textOf ks') (textOf ks). rewrite IHk. reflexivity.
Qed.

End Splitting.

(* ================================================================== *)
(** * Statement about the round trip of the highlights                 *)
(* ================================================================== *)

(** [C7].  Whatever the document and the sentences, injecting the
    highlights and then removing them leaves the concatenated text of the
    document as it was, and so does the injection alone.  The injector
    returns the document left by the remover in which some text nodes are
    split in three: the text before the first occurrence of a sentence of
    the set, a marker holding that sentence, and the text after it; every
    such split keeps the text.  On a document with distinct elements, the
    remover leaves no marker and its result is, up to the merging of
    adjacent text nodes, the document with every marker replaced by a
    text node holding its text; when a sentence of the set occurs in a
    text node, the injector inserts at least one marker; and removing
    what was injected gives back, up to the same merging, the document
    the injector started from. *)
Theorem highlight_round_trip (sentences : list (list ascii)) (d : document) :
  let clean := removeHighlights d in
  let cands := setOf (filter truthy (map trim sentences)) in
  let out := highlightSentences sentences d in
  textOf (removeHighlights out) = textOf d
  /\ textOf out = textOf d
  /\ splits cands clean out
  /\ (forall a b, splits cands a b -> textOf b = textOf a)
  /\ (NoDup (docIds d) ->
      querySelectorAll clean = []
      /\ normalizeKids clean = normalizeKids (map unwrap d)
      /\ (findableIn cands clean = true -> querySelectorAll out <> [])
      /\ NoDup (docIds out)
      /\ querySelectorAll (removeHighlights out) = []
      /\ normalizeKids (removeHighlights out)
         = normalizeKids (map unwrap out)
      /\ normalizeKids (removeHighlights out) = normalizeKids clean)
  /\ (forall total st t,
        snd (visitText total st t) = [Text t]
        \/ exists s i,
             t = firstn i t ++ s ++ skipn (i + length s) t
             /\ snd (visitText total st t)
                = [Text (firstn i t);
                   Elem (nextId st) [MARKER] (setTextContent s);
                   Text (skipn (i + length s) t)])
  /\ (forall total st t, textOf (snd (visitText total st t)) = t)
  /\ (forall x k, isElemId x k = true ->
        swapForText x k = Text (textContent k))
  /\ (forall x d', textOf (replaceInDoc x d') = textOf d').
Proof.
  cbv zeta.
  split; [rewrite textOf_removeHighlights; apply textOf_highlightSentences|].
  split; [apply textOf_highlightSentences|].
  split.
  { unfold highlightSentences, highlightRun. apply splits_visitAll.
    cbn [sentenceSet]. intros y Hy. exact Hy. }
  split; [apply splits_textOf|].
  split.
  { intros Hn.
    pose proof (removeHighlights_clears d Hn) as Hc.
    pose proof (NoDup_highlightSentences sentences d Hn) as Ho.
    split; [exact Hc|].
    split; [apply removeHighlights_unwraps, Hn|].
    split.
    { intros Hf E.
      pose proof (run_counts sentences d Hn) as [Hcount _].
      rewrite markerTexts_length, E in Hcount. cbn [length] in Hcount.
      unfold highlightRun in Hcount.
      destruct (visitAll_facts (length sentences) (removeHighlights d)
                  (mkH (setOf (filter truthy (map trim sentences))) 0
                     (freshId (removeHighlights d))))
        as [_ [_ [_ [_ [Hprog _]]]]].
      cbn [sentenceSet highlights] in Hprog.
      assert (Hl : 0 < length sentences).
      { destruct sentences as [|s0 r]; [|cbn; lia].
        unfold findableIn in Hf. cbn in Hf.
        rewrite existsb_findable_nil in Hf. discriminate Hf. }
      specialize (Hprog Hl Hf).
      exact (Nat.lt_irrefl 0 (eq_ind_r (fun n => 0 < n) Hprog Hcount)). }
    split; [exact Ho|].
    split; [apply removeHighlights_clears, Ho|].
    split; [apply removeHighlights_unwraps, Ho|].
    rewrite (removeHighlights_unwraps _ Ho).
    unfold highlightSentences, highlightRun.
    rewrite unwrap_visitAll, (unwrap_clean _ Hc). reflexivity. }
  split.
  { intros total st t.
    destruct (visitText_cases total st t) as [->|[s [i [_ [Hi [_ ->]]]]]];
      [left; reflexivity|].
    right. exists s, i. split; [apply indexOf_split, Hi|reflexivity]. }
  split; [apply textOf_visitText|].
  split; [|apply textOf_replaceInDoc].
  intros x k H. unfold swapForText. rewrite H. reflexivity.
Qed.

(* ================================================================== *)
(** * The appends to a history and their interleavings                 *)
(* ================================================================== *)

Section Appends.

Import Transactions PopupView.

Lemma take_same i v : take i [(i, v)] = Some (v, []).
Proof. cbn [take]. rewrite Nat.eqb_refl. reflexivity. Qed.

Lemma step_alone aps s i a :
  inFlight s = [] -> nth_error aps i = Some a ->
  step aps (step aps s (Served i)) (Landed i)
  = mkState (atOnce (current s) a) [].
Proof.
  intros Hf Ha. destruct s as [cur fl]. cbn [inFlight current] in *. subst fl.
  unfold atOnce. cbn [step current inFlight]. rewrite Ha.
  destruct (callback cur a) as [v|]; cbn [step current inFlight app].
  - rewrite ?Ha, take_same. reflexivity.
  - rewrite ?Ha. reflexivity.
Qed.

Lemma oneByOne_from : forall rest pre s,
  inFlight s = [] ->
  fold_left (step (pre ++ rest))
    (flat_map (fun i => [Served i; Landed i]) (seq (length pre) (length rest)))
    s
  = mkState (fold_left atOnce rest (current s)) [].
Proof.
  induction rest as [|a rest IH]; intros pre s Hf.
  - destruct s as [cur fl]. cbn in *. subst fl. reflexivity.
  - cbn [length seq flat_map app fold_left].
    rewrite (step_alone (pre ++ a :: rest) s (length pre) a Hf).
    + replace (pre ++ a :: rest) with ((pre ++ [a]) ++ rest)
        by (rewrite <- app_assoc; reflexivity).
      replace (S (length pre)) with (length (pre ++ [a]))
        by (rewrite length_app; cbn; lia).
      rewrite IH by reflexivity. reflexivity.
    + rewrite nth_error_app2, Nat.sub_diag by lia. reflexivity.
Qed.

(** Appends that do not overlap are appends made at once. *)
Lemma run_oneByOne aps st :
  run aps (oneByOne (length aps)) st = fold_left atOnce aps st.
Proof.
  unfold run, oneByOne.
  pose proof (oneByOne_from aps [] (mkState st []) eq_refl) as H.
  cbn [app length] in H. rewrite H. reflexivity.
Qed.

Lemma atOnce_push st a :
  (forall d, get st (ap_key a) <> Some (StoredPage d)) ->
  atOnce st a = pushHistory st (ap_key a) (ap_entry a).
Proof.
  intros H. unfold atOnce, callback, pushHistory.
  destruct (get st (ap_key a)) as [[d|h]|]; [destruct (H d eq_refl)| |];
    reflexivity.
Qed.

Lemma atOnce_pushes key : forall es st,
  (forall d, get st key <> Some (StoredPage d)) ->
  fold_left atOnce (map (mkAppend key) es) st
  = fold_left (fun st e => pushHistory st key e) es st.
Proof.
  induction es as [|e es IH]; intros st H; [reflexivity|].
  cbn [map fold_left]. rewrite (atOnce_push st (mkAppend key e) H).
  cbn [ap_key ap_entry]. apply IH.
  intros d. unfold pushHistory. rewrite get_set_same. discriminate.
Qed.

Lemma nth_error_appends key es i a :
  nth_error (map (mkAppend key) es) i = Some a ->
  ap_key a = key /\ In (ap_entry a) es.
Proof.
  rewrite nth_error_map. destruct (nth_error es i) as [e|] eqn:E;
    [|discriminate].
  cbn. intros H. inversion H. cbn. split; [reflexivity|].
  apply (nth_error_In _ _ E).
Qed.

Lemma take_In i : forall l v rest,
  take i l = Some (v, rest) ->
  In (i, v) l /\ forall x, In x rest -> In x l.
Proof.
  induction l as [|[j w] r IH]; intros v rest H; [discriminate|].
  cbn [take] in H. destruct (j =? i) eqn:E.
  - apply Nat.eqb_eq in E. inversion H; subst.
    split; [left; reflexivity|]. intros x Hx. right. exact Hx.
  - destruct (take i r) as [[v' r']|] eqn:Et; [|discriminate].
    inversion H; subst. destruct (IH _ _ eq_refl) as [H1 H2].
    split; [right; exact H1|].
    intros x [<-|Hx]; [left; reflexivity|right; apply H2, Hx].
Qed.

(** Whatever the order of the reads and writes of appends to one key,
    the store and the arrays about to be written hold the history of
    the beginning, followed by entries of the appends. *)
Lemma interleaved_from key es old evs : forall s,
  (exists more, history (current s) key = old ++ more /\ incl more es) ->
  (forall i v, In (i, v) (inFlight s) ->
     exists more, v = old ++ more /\ incl more es) ->
  exists more,
    history (current (fold_left (step (map (mkAppend key) es)) evs s)) key
    = old ++ more
    /\ incl more es.
Proof.
  induction evs as [|ev evs IH]; intros s Hc Hf; [exact Hc|].
  cbn [fold_left]. apply IH.
  - destruct ev as [i|i]; cbn [step].
    + destruct (nth_error (map (mkAppend key) es) i) as [a|]; [|exact Hc].
      destruct (callback (current s) a); exact Hc.
    + destruct (nth_error (map (mkAppend key) es) i) as [a|] eqn:Ea;
        [|exact Hc].
      destruct (take i (inFlight s)) as [[v rest]|] eqn:Et; [|exact Hc].
      destruct (nth_error_appends key es i a Ea) as [Ek _].
      destruct (take_In i _ _ _ Et) as [Hin _].
      destruct (Hf i v Hin) as [more [-> Hm]].
      exists more. cbn [current]. unfold history.
      rewrite Ek, get_set_same. split; [reflexivity|exact Hm].
  - intros j w Hin. destruct ev as [i|i]; cbn [step] in Hin.
    + destruct (nth_error (map (mkAppend key) es) i) as [a|] eqn:Ea;
        [|apply (Hf j w Hin)].
      destruct (callback (current s) a) as [v|] eqn:Ev;
        [|apply (Hf j w Hin)].
      cbn [inFlight] in Hin. apply in_app_or in Hin as [Hin|[E|[]]];
        [apply (Hf j w Hin)|].
      inversion E; subst j w.
      destruct (nth_error_appends key es i a Ea) as [Ek He].
      destruct Hc as [more [Hh Hm]].
      unfold callback in Ev. unfold history in Hh. rewrite Ek in Ev.
      destruct (get (current s) key) as [[d|h]|]; [discriminate| |];
        inversion Ev; subst.
      * exists (more ++ [ap_entry a]).
        split; [rewrite app_assoc; reflexivity|].
        apply incl_app; [exact Hm|]. intros x [<-|[]]. exact He.
      * exists (more ++ [ap_entry a]).
        split; [rewrite app_assoc, <- Hh; reflexivity|].
        apply incl_app; [exact Hm|]. intros x [<-|[]]. exact He.
    + destruct (nth_error (map (mkAppend key) es) i) as [a|];
        [|apply (Hf j w Hin)].
      destruct (take i (inFlight s)) as [[v rest]|] eqn:Et;
        [|apply (Hf j w Hin)].
      cbn [inFlight] in Hin. destruct (take_In i _ _ _ Et) as [_ Hr].
      apply (Hf j w), Hr, Hin.
Qed.

Lemma interleaved key es evs st :
  exists more,
    history (run (map (mkAppend key) es) evs st) key
    = history st key ++ more
    /\ incl more es.
Proof.
  unfold run. apply interleaved_from.
  - exists []. cbn [current]. rewrite app_nil_r.
    split; [reflexivity|]. intros x [].
  - intros i v [].
Qed.

(** The appends write under their own keys only. *)
Lemma run_other_from aps k evs : forall s,
  (forall a, In a aps -> str_eqb k (ap_key a) = false) ->
  get (current (fold_left (step aps) evs s)) k = get (current s) k.
Proof.
  induction evs as [|ev evs IH]; intros s H; [reflexivity|].
  cbn [fold_left]. rewrite IH by exact H.
  destruct ev as [i|i]; cbn [step].
  - destruct (nth_error aps i) as [a|]; [|reflexivity].
    destruct (callback (current s) a); reflexivity.
  - destruct (nth_error aps i) as [a|] eqn:Ea; [|reflexivity].
    destruct (take i (inFlight s)) as [[v rest]|]; [|reflexivity].
    cbn [current]. apply get_set_other, H, (nth_error_In _ _ Ea).
Qed.

Lemma run_other aps k evs st :
  (forall a, In a aps -> str_eqb k (ap_key a) = false) ->
  get (run aps evs st) k = get st k.
Proof.
  intros H. unfold run.
  exact (run_other_from aps k evs (mkState st []) H).
Qed.

(** Two appends whose reads are both served before a write lands: the
    write that lands last wins, the other entry is lost. *)
Lemma lost_append key e0 e1 st :
  (forall d, get st key <> Some (StoredPage d)) ->
  history (run [mkAppend key e0; mkAppend key e1]
             [Served 0; Served 1; Landed 0; Landed 1] st) key
  = history st key ++ [e1]
  /\ history (run [mkAppend key e0; mkAppend key e1]
                [Served 0; Served 1; Landed 1; Landed 0] st) key
     = history st key ++ [e0].
Proof.
  intros H. unfold run, history at 2 4.
  cbn [fold_left step nth_error current inFlight]. unfold callback.
  cbn [ap_key ap_entry].
  destruct (get st key) as [[d|h]|] eqn:E; [destruct (H d eq_refl)| |];
    repeat (cbn [app take Nat.eqb current inFlight ap_key ap_entry];
            rewrite ?E);
    unfold history; rewrite !get_set_same; split; reflexivity.
Qed.

(** Served and not yet landed, an append has changed nothing. *)
Lemma run_served a st : run [a] [Served 0] st = st.
Proof.
  unfold run. cbn [fold_left step nth_error current inFlight].
  destruct (callback st a); reflexivity.
Qed.

Lemma run_landed a st :
  run [a] [Served 0; Landed 0] st = atOnce st a.
Proof. apply (run_oneByOne [a] st). Qed.

End Appends.

(* ================================================================== *)
(** * Statement about the history of a page                            *)
(* ================================================================== *)

(** [X12].  An append to a history is a read followed, later, by the
    write of what was read with the entry pushed.  For appends to one
    key that holds no page record: when every append is served and
    landed before the next is served, the history becomes the former one
    followed by the entries in that order, as with the append made at
    once; whatever the interleaving, the former entries stay in front
    and only entries of the appends follow them, and no other key
    changes; but when two reads are served before a write lands, the
    entry of the write that lands first is lost.  The popup lists at
    most five entries, the last ones of the history, newest first, and
    shows [No history yet.] exactly when the history is empty. *)
Theorem history_appends (st : storage) (key : list ascii)
  (es : list historyEntry) (e0 e1 : historyEntry) :
  (forall d, get st key <> Some (StoredPage d)) ->
  let aps := map (Transactions.mkAppend key) es in
  let two := [Transactions.mkAppend key e0; Transactions.mkAppend key e1] in
  let old := PopupView.history st key in
  PopupView.history
    (Transactions.run aps (Transactions.oneByOne (length es)) st) key
  = old ++ es
  /\ Transactions.run aps (Transactions.oneByOne (length es)) st
     = fold_left (fun st e => pushHistory st key e) es st
  /\ (forall evs, exists more,
        PopupView.history (Transactions.run aps evs st) key = old ++ more
        /\ incl more es)
  /\ (forall evs k, str_eqb k key = false ->
        get (Transactions.run aps evs st) k = get st k)
  /\ PopupView.history
       (Transactions.run two
          [Transactions.Served 0; Transactions.Served 1;
           Transactions.Landed 0; Transactions.Landed 1] st) key
     = old ++ [e1]
  /\ PopupView.history
       (Transactions.run two
          [Transactions.Served 0; Transactions.Served 1;
           Transactions.Landed 1; Transactions.Landed 0] st) key
     = old ++ [e0]
  /\ (forall st' url,
        PopupView.lastFirst (PopupView.history st' (PopupView.keyOf url))
        = firstn 5 (rev (PopupView.history st' (PopupView.keyOf url)))
        /\ length (PopupView.lastFirst
                     (PopupView.history st' (PopupView.keyOf url))) <= 5
        /\ (PopupView.loadHistory st' url
            = PopupView.TextContent (lit "No history yet.")
            <-> PopupView.history st' (PopupView.keyOf url) = [])).
Proof.
  intros H. cbv zeta.
  assert (E : Transactions.run (map (Transactions.mkAppend key) es)
                (Transactions.oneByOne (length es)) st
              = fold_left (fun st e => pushHistory st key e) es st).
  { rewrite <- (length_map (Transactions.mkAppend key) es).
    rewrite run_oneByOne. apply atOnce_pushes, H. }
  split; [rewrite E; apply history_pushes|].
  split; [exact E|].
  split; [intros evs; apply interleaved|].
  split.
  { intros evs k Hk. apply run_other. intros a Ha.
    apply in_map_iff in Ha as [e [<- _]]. exact Hk. }
  destruct (lost_append key e0 e1 st H) as [L1 L2].
  split; [exact L1|]. split; [exact L2|].
  intros st' url.
  split; [apply lastFirst_rev|].
  split; [rewrite lastFirst_rev; apply firstn_le_length|].
  unfold PopupView.loadHistory.
  destruct (PopupView.history st' (PopupView.keyOf url)) as [|x l].
  - cbn. split; reflexivity.
  - cbn [length Nat.eqb]. split; discriminate.
Qed.

Lemma history_appends_witness :
  PopupView.history
    (Transactions.run
       [Transactions.mkAppend (lit "qa_history_u")
          (mkEntry (lit "q0") (lit "a0") 1 None);
        Transactions.mkAppend (lit "qa_history_u")
          (mkEntry (lit "q1") (lit "a1") 2 None)]
       [Transactions.Served 0; Transactions.Served 1;
        Transactions.Landed 0; Transactions.Landed 1] [])
    (lit "qa_history_u")
  = [mkEntry (lit "q1") (lit "a1") 2 None].
Proof.
  pose proof (history_appends [] (lit "qa_history_u") []
                (mkEntry (lit "q0") (lit "a0") 1 None)
                (mkEntry (lit "q1") (lit "a1") 2 None)) as H.
  cbv zeta in H. destruct H as [_ [_ [_ [_ [H _]]]]].
  - intros d. discriminate.
  - exact H.
Defined.

(* ================================================================== *)
(** * The listener of the worker and the calls that do not settle      *)
(* ================================================================== *)

Section ListenFacts.

Import Extraction Background Worker Transactions Listening.

Ltac chain_cases hz b tab prompt n :=
  unfold chain;
  destruct (hz_chromeAI hz prompt n) eqn:?Hc1;
  [destruct (br_chromeAI b prompt n) as [?t1|?e1] eqn:?Ec1;
   [|destruct (hz_windowAI hz tab prompt n) eqn:?Hc2;
     [destruct (br_windowAI b tab prompt n) as [?t2|?e2] eqn:?Ec2|]]|].

(** The tiers of the chain are invoked in order, and the chain is stuck
    only on a tier that never settles. *)
Lemma chain_calls hz b tab prompt n :
  (fst (chain hz b tab prompt n) = [OnDevice]
   \/ fst (chain hz b tab prompt n) = [OnDevice; PageContext])
  /\ (forall e2, snd (chain hz b tab prompt n) = BothThrew e2 ->
        fst (chain hz b tab prompt n) = [OnDevice; PageContext])
  /\ (snd (chain hz b tab prompt n) = Stuck ->
        hz_chromeAI hz prompt n = Hangs
        \/ hz_windowAI hz tab prompt n = Hangs).
Proof.
  chain_cases hz b tab prompt n; cbn [fst snd];
    (split; [auto|]); (split; [intros; try discriminate; reflexivity|]);
    intros; try discriminate; auto.
Qed.

Lemma chain_calm b tab prompt n :
  chain calm b tab prompt n
  = match br_chromeAI b prompt n with
    | Returns aiText => ([OnDevice], Answered aiText (lit "chrome.ai"))
    | Throws _ =>
        match br_windowAI b tab prompt n with
        | Returns aiText =>
            ([OnDevice; PageContext], Answered aiText (lit "window.ai"))
        | Throws err2 => ([OnDevice; PageContext], BothThrew err2)
        end
    end.
Proof. reflexivity. Qed.

Ltac tiers_cases hz b tab p n :=
  destruct (hz_chromeAI hz p n) eqn:?Hc1;
  [destruct (br_chromeAI b p n) as [?t1|?e1] eqn:?Ec1;
   [|destruct (hz_windowAI hz tab p n) eqn:?Hc2;
     [destruct (br_windowAI b tab p n) as [?t2|?e2] eqn:?Ec2|]]|].

Ltac withText_cases hz b m tab text :=
  unfold withText, chain; cbv zeta;
  destruct (str_eqb (msg_action m) (lit "summarize")) eqn:?Ea;
  [tiers_cases hz b tab (summarizePrompt (firstn LIMIT text)) 400
  |destruct (msg_mock m) eqn:?Em;
   [|tiers_cases hz b tab
       (askPrompt (orElse (msg_question m) []) (firstn LIMIT text)) 300];
   (destruct (hz_tabsGet hz tab) eqn:?Hg;
    [destruct (br_tabsGet b tab) as [?url|] eqn:?Eg|])];
  cbn [fst snd tr_probes tr_calls tr_issued tr_sent app].


Lemma withText_calls hz b m tab ps text :
  exists n, tr_calls (withText hz b m tab ps text)
            = firstn n [OnDevice; PageContext; ExtractiveFallback].
Proof.
  withText_cases hz b m tab text;
    solve [exists 0; reflexivity | exists 1; reflexivity
          | exists 2; reflexivity | exists 3; reflexivity].
Qed.



(** What is written: nothing, or one append under the address of the
    tab, holding the question and the answer and source of the
    response. *)
Lemma withText_issued hz b m tab ps text :
  tr_issued (withText hz b m tab ps text) = []
  \/ exists url a src,
       str_eqb (msg_action m) (lit "summarize") = false
       /\ br_tabsGet b tab = Some url
       /\ hz_tabsGet hz tab = Settles
       /\ tr_sent (withText hz b m tab ps text) = Some (OkAnswer a src)
       /\ tr_issued (withText hz b m tab ps text)
          = [mkAppend (historyKey (orElse url (lit "unknown")))
               (mkEntry (orElse (msg_question m) []) a (br_now b)
                  (Some src))].
Proof.
  withText_cases hz b m tab text;
    try (left; reflexivity);
    right; eexists; eexists; eexists;
    (split; [reflexivity|]); (split; [reflexivity|]);
    (split; [reflexivity|]); split; reflexivity.
Qed.

(** Once the tab is known: the text is extracted and the listener goes
    on, or the page script never settles, or the extraction fails with
    the error of the page script. *)
Lemma withTab_shape hz b m tab :
  (exists ps text,
     (ps = [ByMessage] \/ ps = [ByMessage; ByScript])
     /\ withTab hz b m tab = withText hz b m tab ps text)
  \/ (hz_pageScript hz tab = Hangs
      /\ withTab hz b m tab = mkTrace [ByMessage; ByScript] [] [] None)
  \/ (exists e,
        e <> []
        /\ withTab hz b m tab
           = mkTrace [ByMessage; ByScript] [] []
               (Some (Error (lit "Failed to extract page text: " ++ e)))).
Proof.
  unfold withTab.
  destruct (viaMessage (br_sendMessage b tab)) as [text|e0].
  { left. exists [ByMessage], text. auto. }
  destruct (hz_pageScript hz tab) eqn:Hp; [|right; left; auto].
  destruct (viaScript (br_pageScript b tab)) as [text|e] eqn:Ev.
  { left. exists [ByMessage; ByScript], text. auto. }
  right. right. destruct (viaScript_error _ _ Ev) as [msg [-> Hne]].
  exists msg. split; [exact Hne|].
  cbn [orElse]. destruct msg; [congruence|reflexivity].
Qed.

(** The listener as a whole: it does nothing, or stops at
    [chrome.tabs.query], or goes on with the tab of the message or the
    active tab. *)
Lemma listen_shape hz b m :
  (handled (msg_action m) = false /\ listen hz b m = mkTrace [] [] [] None)
  \/ (handled (msg_action m) = true
      /\ ((exists tab, targetTab b m = Some tab
                       /\ listen hz b m = withTab hz b m tab)
          \/ (hz_query hz = QueryHangs
              /\ listen hz b m = mkTrace [] [] [] None)
          \/ (exists e, hz_query hz = QueryRejects e
                /\ listen hz b m
                   = mkTrace [] [] [] (Some (Error (describe e))))
          \/ (hz_query hz = QueryResolves /\ targetTab b m = None
              /\ listen hz b m
                 = mkTrace [] [] [] (Some (Error (lit "No active tab")))))).
Proof.
  unfold listen, targetTab.
  destruct (handled (msg_action m)); cbn [negb]; [right|left; auto].
  split; [reflexivity|].
  destruct (msg_tabId m) as [[|n]|].
  2:{ left. exists (S n). auto. }
  all: destruct (hz_query hz) as [|e|] eqn:Hq;
    [destruct (br_activeTab b) as [tab|];
     [left; exists tab; auto|right; right; right; auto]
    |right; right; left; exists e; auto
    |right; left; auto].
Qed.













End ListenFacts.

(* ================================================================== *)
(** * Statements about the listener of the background worker           *)
(* ================================================================== *)


(** [X11].  What the listener of the worker writes, whatever rejects or
    hangs.  The tiers it invokes are a prefix of the chain on-device,
    page context, extraction.  It starts no append, or exactly one, and
    then the action is [ask], the response is the answer, and the append
    is the entry of the question, the answer sent, the time and the
    source, under the key [qa_history_] followed by the address that
    [chrome.tabs.get] reports for the tab of the request, or by
    [unknown] when it reports none.  [summarize] starts no append, a
    call that sends no response starts none either.  The response does
    not wait for the write: after the read alone has been served the
    store is unchanged, and once the write has landed the history under
    the key is the one read followed by the entry.  Whatever the order
    in which the read and the write of the append happen, every key that
    does not start with [qa_history_] keeps its value. *)
Theorem worker_store_discipline (hz : Listening.hazards)
  (b : Worker.browser) (m : Worker.message) :
  let r := Listening.listen hz b m in
  (exists n, Listening.tr_calls r
             = firstn n [Background.OnDevice; Background.PageContext;
                         Background.ExtractiveFallback])
  /\ (Listening.tr_issued r = []
      \/ exists tab url a src,
           Worker.msg_action m = lit "ask"
           /\ Worker.targetTab b m = Some tab
           /\ Worker.br_tabsGet b tab = Some url
           /\ Listening.hz_tabsGet hz tab = Listening.Settles
           /\ Listening.tr_sent r = Some (Background.OkAnswer a src)
           /\ Listening.tr_issued r
              = [Transactions.mkAppend
                   (Storage.historyKey (orElse url (lit "unknown")))
                   (mkEntry (orElse (Worker.msg_question m) []) a
                      (Worker.br_now b) (Some src))])
  /\ (Worker.msg_action m = lit "summarize" -> Listening.tr_issued r = [])
  /\ (Listening.tr_sent r = None -> Listening.tr_issued r = [])
  /\ (forall a, In a (Listening.tr_issued r) ->
        startsWith (lit "qa_history_") (Transactions.ap_key a) = true
        /\ Listening.tr_issued r = [a]
        /\ forall st,
             (forall d, get st (Transactions.ap_key a) <> Some (StoredPage d)) ->
             Transactions.run (Listening.tr_issued r)
               [Transactions.Served 0] st = st
             /\ PopupView.history
                  (Transactions.run (Listening.tr_issued r)
                     [Transactions.Served 0; Transactions.Landed 0] st)
                  (Transactions.ap_key a)
                = PopupView.history st (Transactions.ap_key a)
                  ++ [Transactions.ap_entry a])
  /\ (forall st evs key,
        startsWith (lit "qa_history_") key = false ->
        get (Transactions.run (Listening.tr_issued r) evs st) key
        = get st key).
Proof.
  cbv zeta.
  assert (Issued :
    Listening.tr_issued (Listening.listen hz b m) = []
    \/ exists tab url a src,
         Worker.msg_action m = lit "ask"
         /\ Worker.targetTab b m = Some tab
         /\ Worker.br_tabsGet b tab = Some url
         /\ Listening.hz_tabsGet hz tab = Listening.Settles
         /\ Listening.tr_sent (Listening.listen hz b m)
            = Some (Background.OkAnswer a src)
         /\ Listening.tr_issued (Listening.listen hz b m)
            = [Transactions.mkAppend
                 (Storage.historyKey (orElse url (lit "unknown")))
                 (mkEntry (orElse (Worker.msg_question m) []) a
                    (Worker.br_now b) (Some src))]).
  { destruct (listen_shape hz b m)
      as [[_ E]|[Hh [[tab [Ht E]]|[[_ E]|[[e [_ E]]|[_ [_ E]]]]]]];
      rewrite E; clear E; try (left; reflexivity).
    destruct (withTab_shape hz b m tab)
      as [[ps [text [_ E]]]|[[_ E]|[e [_ E]]]];
      rewrite E; clear E; try (left; reflexivity).
    destruct (withText_issued hz b m tab ps text)
      as [E|[url [a [src [Hs [Hu [Hz [Hr Hi]]]]]]]]; [left; exact E|].
    right. exists tab, url, a, src.
    split; [|auto].
    apply handled_cases in Hh. destruct Hh as [Hh|Hh]; [|exact Hh].
    rewrite Hh in Hs. discriminate Hs. }
  split.
  { destruct (listen_shape hz b m)
      as [[_ E]|[Hh [[tab [Ht E]]|[[_ E]|[[e [_ E]]|[_ [_ E]]]]]]];
      rewrite E; clear E; try (exists 0; reflexivity).
    destruct (withTab_shape hz b m tab)
      as [[ps [text [_ E]]]|[[_ E]|[e [_ E]]]];
      rewrite E; clear E; try (exists 0; reflexivity).
    apply withText_calls. }
  split; [exact Issued|].
  split.
  { intros Hs.
    destruct Issued as [E|[tab [url [a [src [Ha _]]]]]]; [exact E|].
    rewrite Hs in Ha. discriminate Ha. }
  split.
  { intros Hn.
    destruct Issued as [E|[tab [url [a [src [_ [_ [_ [_ [Hr _]]]]]]]]]];
      [exact E|].
    rewrite Hn in Hr. discriminate Hr. }
  split.
  { intros a Ha.
    destruct Issued as [E|[tab [url [a0 [src [_ [_ [_ [_ [_ E]]]]]]]]]];
      rewrite E in *; [destruct Ha|].
    destruct Ha as [<-|[]].
    split; [apply startsWith_app_self|].
    split; [reflexivity|].
    intros st Hp. split; [apply run_served|].
    rewrite run_landed, (atOnce_push _ _ Hp). apply history_push. }
  intros st evs key Hk. apply run_other.
  intros a Ha.
  destruct Issued as [E|[tab [url [a0 [src [_ [_ [_ [_ [_ E]]]]]]]]]];
    rewrite E in *; [destruct Ha|].
  destruct Ha as [<-|[]].
  apply not_history_key. exact Hk.
Qed.


